(** * Stateful migration operator: a shallow embedding of its control loops

    The development follows the Go sources of the operator:

    - [internal/controller/checkpointbackup_controller.go]: the node-local
      checkpoint engine ([CE]);
    - the restore controller ([MigrationRestoreReconciler], module [RO]);
    - [internal/webhook/admission_webhook.go] ([PodMutator]) and
      [Mutation/webhook-server/main.go] ([WebhookServer]): the two admission
      interceptors.

    Go code that threads a reconciler, an API client and the node's disk
    through many calls is written in a state-and-error monad over an explicit
    [World].  Everything outside the operator (API server failures, the node
    agent, the image builder, the clock) is an oracle of the environment
    [Env], asked once per external call and indexed by the number of external
    calls made so far, so that every theorem quantifies over all the outcomes
    these collaborators can produce. *)

From stdpp Require Import base option list strings pretty gmap.

Open Scope string_scope.

(** ** Kubernetes objects, as the API types declare them *)

Record Time := mkTime {
  t_year : nat; t_month : nat; t_day : nat;
  t_hour : nat; t_minute : nat; t_second : nat }.

Record PodRef := mkPodRef { pr_namespace : string; pr_name : string }.

Record ResourceRef := mkResourceRef {
  rr_apiVersion : string; rr_kind : string;
  rr_namespace : string; rr_name : string }.

Record SecretRef := mkSecretRef { sr_name : string; sr_namespace : string }.

Record Registry := mkRegistry { reg_url : string; reg_secretRef : option SecretRef }.

(** [migrationv1.Container]: a container name and the image of its checkpoint. *)
Record Container := mkContainer { c_name : string; c_image : string }.

Record CheckpointFile := mkCheckpointFile {
  cf_containerName : string; cf_filePath : string;
  cf_checkpointTime : option Time }.

Record BuiltImage := mkBuiltImage {
  bi_containerName : string; bi_imageName : string;
  bi_buildTime : option Time; bi_pushed : bool }.

(** [ObservedGeneration] and [Conditions] are never read or written by the
    controllers and are left out. *)
Record CheckpointBackupStatus := mkStatus {
  st_phase : string;
  st_lastCheckpointTime : option Time;
  st_message : string;
  st_builtImages : list BuiltImage;
  st_checkpointFiles : list CheckpointFile }.

Record CheckpointBackupSpec := mkSpec {
  sp_schedule : string;
  sp_stopPod : option bool;
  sp_podRef : PodRef;
  sp_resourceRef : ResourceRef;
  sp_registry : option Registry;
  sp_containers : list Container }.

Record CheckpointBackup := mkBackup {
  cb_namespace : string;
  cb_name : string;
  cb_finalizers : list string;
  cb_deletionTimestamp : option Time;
  cb_spec : CheckpointBackupSpec;
  cb_status : CheckpointBackupStatus }.

Record OwnerReference := mkOwner {
  or_apiVersion : string; or_kind : string; or_name : string }.

Record PodContainer := mkPodContainer { pc_name : string; pc_image : string }.

Record Pod := mkPod {
  pod_namespace : string;
  pod_name : string;
  pod_generateName : string;
  pod_ownerReferences : list OwnerReference;
  pod_nodeName : string;
  pod_phase : string;
  pod_containers : list PodContainer;
  pod_initContainers : list PodContainer }.

(** One JSON-Patch operation, [map[string]interface{}] with the three keys
    [op], [path] and [value]. *)
Record Patch := mkPatch { p_op : string; p_path : string; p_value : string }.

Definition emptyStatus : CheckpointBackupStatus := mkStatus "" None "" [] [].

Definition emptyBackup : CheckpointBackup :=
  mkBackup "" "" [] None
    (mkSpec "" None (mkPodRef "" "") (mkResourceRef "" "" "" "") None [])
    emptyStatus.

(** Field updates of the nested object. *)
Definition set_status (b : CheckpointBackup) (s : CheckpointBackupStatus) : CheckpointBackup :=
  mkBackup (cb_namespace b) (cb_name b) (cb_finalizers b) (cb_deletionTimestamp b) (cb_spec b) s.

Definition set_finalizers (b : CheckpointBackup) (fs : list string) : CheckpointBackup :=
  mkBackup (cb_namespace b) (cb_name b) fs (cb_deletionTimestamp b) (cb_spec b) (cb_status b).

Definition set_phase (s : CheckpointBackupStatus) (phase message : string) : CheckpointBackupStatus :=
  mkStatus phase (st_lastCheckpointTime s) message (st_builtImages s) (st_checkpointFiles s).

Definition set_lastCheckpointTime (s : CheckpointBackupStatus) (t : option Time) : CheckpointBackupStatus :=
  mkStatus (st_phase s) t (st_message s) (st_builtImages s) (st_checkpointFiles s).

Definition set_builtImages (s : CheckpointBackupStatus) (l : list BuiltImage) : CheckpointBackupStatus :=
  mkStatus (st_phase s) (st_lastCheckpointTime s) (st_message s) l (st_checkpointFiles s).

Definition set_checkpointFiles (s : CheckpointBackupStatus) (l : list CheckpointFile) : CheckpointBackupStatus :=
  mkStatus (st_phase s) (st_lastCheckpointTime s) (st_message s) (st_builtImages s) l.

(** ** Strings: the few [strings] and [fmt] functions the code uses *)

(** [strings.HasPrefix s p]. *)
Definition HasPrefix (s p : string) : bool := String.prefix p s.

(** [strings.TrimPrefix s p]. *)
Definition TrimPrefix (s p : string) : string :=
  if HasPrefix s p then String.substring (String.length p) (String.length s - String.length p) s
  else s.

(** Decimal rendering with a minimal width, as the reference layout of
    [time.Format] fixes it for each field. *)
Fixpoint zeros (n : nat) : string :=
  match n with 0 => "" | S n' => "0" ++ zeros n' end.

Definition padded (width n : nat) : string :=
  let d := pretty n in zeros (width - String.length d) ++ d.

(** [t.Format("20060102-150405")]. *)
Definition formatTimestamp (t : Time) : string :=
  padded 4 (t_year t) ++ padded 2 (t_month t) ++ padded 2 (t_day t) ++ "-" ++
  padded 2 (t_hour t) ++ padded 2 (t_minute t) ++ padded 2 (t_second t).

(** A pointer or a map entry that is not there. *)
Definition isNil {A} (o : option A) : bool :=
  match o with None => true | Some _ => false end.

(** [types.NamespacedName.String()]. *)
Definition namespacedName (ns name : string) : string := ns ++ "/" ++ name.

(** ** The monad: a state, and Go's [error] as a message *)

Inductive Res (A : Type) : Type :=
| Ok (a : A)
| Err (e : string).
Arguments Ok {A} a.
Arguments Err {A} e.

Definition StateErr (S A : Type) : Type := S -> Res A * S.

#[export] Instance StateErr_ret {S} : MRet (StateErr S) := fun A (a : A) w => (Ok a, w).

#[export] Instance StateErr_bind {S} : MBind (StateErr S) :=
  fun A B (f : A -> StateErr S B) (m : StateErr S A) w =>
    match m w with
    | (Ok a, w') => f a w'
    | (Err e, w') => (Err e, w')
    end.

Definition fail {S A} (e : string) : StateErr S A := fun w => (Err e, w).

(** [if err := m; err != nil { ... }]: the error is handed to the caller as a
    value. *)
Definition try {S A} (m : StateErr S A) : StateErr S (Res A) :=
  fun w => let '(r, w') := m w in (Ok r, w').

Definition gets {S A} (f : S -> A) : StateErr S A := fun w => (Ok (f w), w).
Definition modify {S} (f : S -> S) : StateErr S unit := fun w => (Ok tt, f w).

(** The answers of [client.Get]; [NotFound] stands for any error that
    [errors.IsNotFound] accepts. *)
Inductive GetRes (A : Type) : Type :=
| Found (a : A)
| NotFound
| GetErr (e : string).
Arguments Found {A} a.
Arguments NotFound {A}.
Arguments GetErr {A} e.

(** ** The checkpoint engine: [checkpointbackup_controller.go] *)

Module CE.

Definition CheckpointBackupFinalizer : string := "checkpointbackup.migration.dcnlab.com/finalizer".
Definition CheckpointBasePath : string := "/var/lib/kubelet/checkpoints".
Definition ServiceAccountPath : string := "/var/run/secrets/kubernetes.io/serviceaccount".

Definition PhaseCheckpointing : string := "Checkpointing".
Definition PhaseCheckpointed : string := "Checkpointed".
Definition PhaseImageBuilding : string := "ImageBuilding".
Definition PhaseImageBuilt : string := "ImageBuilt".
Definition PhaseImagePushing : string := "ImagePushing".
Definition PhaseImagePushed : string := "ImagePushed".
Definition PhaseCompleted : string := "Completed".
Definition PhaseCompletedPodDeleted : string := "CompletedPodDeleted".
Definition PhaseCompletedWithError : string := "CompletedWithError".
Definition PhaseFailed : string := "Failed".

(** [corev1.PodRunning]. *)
Definition PodRunning : string := "Running".

(** *** The environment *)

(** What the API server answers to an [Update] or a [Status().Update]. *)
Inductive UpdateOutcome :=
| UpdOk
| UpdConflict (e : string)   (* errors.IsConflict *)
| UpdError (e : string).

(** What [KubeletClient.CreateCheckpoint] returns: an error (transport
    failure, status other than 200, unreadable body), or the relative path it
    extracts from the reply, together with the files the node agent has
    written under the checkpoint root meanwhile.  The decoding of the reply
    inside [CreateCheckpoint] is not part of the model. *)
Inductive KubeletReply :=
| KFail (e : string)
| KPath (relativePath : string) (written : list string).

Record Env := mkEnv {
  env_nodeName : string;                 (* NODE_NAME, r.NodeName *)
  env_nodeIP : string;                   (* NODE_IP *)
  env_token : option string;             (* the service account token file *)
  env_now : nat -> Time;                 (* time.Now / metav1.Now *)
  env_get : nat -> option string;        (* a read that fails otherwise than NotFound *)
  env_update : nat -> UpdateOutcome;     (* Update and Status().Update *)
  env_delete : nat -> option string;     (* Delete of a pod; None is success *)
  env_cron : string -> option string;    (* cron expression parser; None is success *)
  env_kubelet : nat -> KubeletReply;
  env_scan : nat -> option string;       (* the glob of findCheckpointFile and its choice; None: no match *)
  env_listing : nat -> string;           (* the names in the checkpoint root, as %v prints them *)
  env_build : nat -> option string;      (* the buildah from/add/config/commit run *)
  env_login : nat -> option string;      (* buildah login *)
  env_push : nat -> option string;       (* buildah push *)
  env_remove : nat -> option string      (* os.Remove *)
}.

(** *** The world *)

(** External calls, in the order they are issued, whatever their outcome. *)
Inductive Event :=
| EvUpdate (ns name : string) (finalizers : list string)
| EvStatusUpdate (ns name : string) (status : CheckpointBackupStatus)
| EvDeletePod (ns name : string)
| EvKubelet (ns pod container : string)
| EvBuild (path image base : string)
| EvLogin (registry : string)
| EvPush (image destination : string)
| EvRemove (path : string).

Record KubeletClient := mkKubeletClient { kc_token : string; kc_kubeletURL : string }.

Record RegistryClient := mkRegistryClient {
  rc_username : string; rc_password : string; rc_registry : string }.

(** An entry of the cron scheduler: the schedule and the [*CheckpointBackup]
    the scheduled closure has captured. *)
Record CronEntry := mkCronEntry { ce_schedule : string; ce_backup : nat }.

Record World := mkWorld {
  w_backups : gmap (string * string) CheckpointBackup;   (* API server, by (namespace, name) *)
  w_pods : gmap (string * string) Pod;
  w_secrets : gmap (string * string) (gmap string string);
  w_files : gset string;                                 (* files on the node, by full path *)
  w_heap : list CheckpointBackup;                        (* objects in memory; a pointer is an index *)
  w_kubeletClient : option KubeletClient;                (* r.KubeletClient *)
  w_registryClient : option RegistryClient;              (* r.RegistryClient *)
  w_cron : gmap nat CronEntry;                           (* r.Scheduler, by cron.EntryID *)
  w_cronNext : nat;
  w_scheduledJobs : gmap string nat;                     (* r.scheduledJobs; nil reads as empty *)
  w_tick : nat;                                          (* external calls made so far *)
  w_trace : list Event                                   (* newest first *)
}.

Definition with_backups (f : gmap (string * string) CheckpointBackup -> gmap (string * string) CheckpointBackup) (w : World) : World :=
  mkWorld (f (w_backups w)) (w_pods w) (w_secrets w) (w_files w) (w_heap w) (w_kubeletClient w)
    (w_registryClient w) (w_cron w) (w_cronNext w) (w_scheduledJobs w) (w_tick w) (w_trace w).

Definition with_pods (f : gmap (string * string) Pod -> gmap (string * string) Pod) (w : World) : World :=
  mkWorld (w_backups w) (f (w_pods w)) (w_secrets w) (w_files w) (w_heap w) (w_kubeletClient w)
    (w_registryClient w) (w_cron w) (w_cronNext w) (w_scheduledJobs w) (w_tick w) (w_trace w).

Definition with_files (f : gset string -> gset string) (w : World) : World :=
  mkWorld (w_backups w) (w_pods w) (w_secrets w) (f (w_files w)) (w_heap w) (w_kubeletClient w)
    (w_registryClient w) (w_cron w) (w_cronNext w) (w_scheduledJobs w) (w_tick w) (w_trace w).

Definition with_heap (f : list CheckpointBackup -> list CheckpointBackup) (w : World) : World :=
  mkWorld (w_backups w) (w_pods w) (w_secrets w) (w_files w) (f (w_heap w)) (w_kubeletClient w)
    (w_registryClient w) (w_cron w) (w_cronNext w) (w_scheduledJobs w) (w_tick w) (w_trace w).

Definition with_kubeletClient (c : option KubeletClient) (w : World) : World :=
  mkWorld (w_backups w) (w_pods w) (w_secrets w) (w_files w) (w_heap w) c
    (w_registryClient w) (w_cron w) (w_cronNext w) (w_scheduledJobs w) (w_tick w) (w_trace w).

Definition with_registryClient (c : option RegistryClient) (w : World) : World :=
  mkWorld (w_backups w) (w_pods w) (w_secrets w) (w_files w) (w_heap w) (w_kubeletClient w)
    c (w_cron w) (w_cronNext w) (w_scheduledJobs w) (w_tick w) (w_trace w).

Definition with_cron (f : gmap nat CronEntry -> gmap nat CronEntry) (next : nat -> nat) (w : World) : World :=
  mkWorld (w_backups w) (w_pods w) (w_secrets w) (w_files w) (w_heap w) (w_kubeletClient w)
    (w_registryClient w) (f (w_cron w)) (next (w_cronNext w)) (w_scheduledJobs w) (w_tick w) (w_trace w).

Definition with_scheduledJobs (f : gmap string nat -> gmap string nat) (w : World) : World :=
  mkWorld (w_backups w) (w_pods w) (w_secrets w) (w_files w) (w_heap w) (w_kubeletClient w)
    (w_registryClient w) (w_cron w) (w_cronNext w) (f (w_scheduledJobs w)) (w_tick w) (w_trace w).

Definition with_tick (f : nat -> nat) (w : World) : World :=
  mkWorld (w_backups w) (w_pods w) (w_secrets w) (w_files w) (w_heap w) (w_kubeletClient w)
    (w_registryClient w) (w_cron w) (w_cronNext w) (w_scheduledJobs w) (f (w_tick w)) (w_trace w).

Definition with_trace (f : list Event -> list Event) (w : World) : World :=
  mkWorld (w_backups w) (w_pods w) (w_secrets w) (w_files w) (w_heap w) (w_kubeletClient w)
    (w_registryClient w) (w_cron w) (w_cronNext w) (w_scheduledJobs w) (w_tick w) (f (w_trace w)).

(** *** The monad of the controller *)

Abbreviation M := (StateErr World).

(** One more external call. *)
Definition tick : M nat := fun w => (Ok (w_tick w), with_tick S w).
Definition emit (e : Event) : M unit := modify (with_trace (cons e)).

(** Pointers to objects in memory. *)
Definition alloc (b : CheckpointBackup) : M nat :=
  fun w => (Ok (length (w_heap w)), with_heap (fun h => (h ++ [b])%list) w).
Definition deref (w : World) (p : nat) : CheckpointBackup := default emptyBackup (w_heap w !! p).
Definition load (p : nat) : M CheckpointBackup := gets (fun w => deref w p).
Definition store (p : nat) (f : CheckpointBackup -> CheckpointBackup) : M unit :=
  modify (fun w => with_heap (fun h => <[p := f (deref w p)]> h) w).

(** [ctrl.Result], with [RequeueAfter] in seconds. *)
Record Result := mkResult { RequeueAfter : nat }.

Definition notFound (ns name : string) : string := namespacedName ns name ++ " not found".

(** [filepath.Join(CheckpointBasePath, p)], for a relative path [p]; joining
    the empty path gives the checkpoint root itself.  Paths are taken as they
    are written: [Join] also cleans dot segments and doubled separators. *)
Definition fullPath (p : string) : string :=
  if bool_decide (p = "") then CheckpointBasePath else CheckpointBasePath ++ "/" ++ p.

(** [controllerutil.ContainsFinalizer], [AddFinalizer], [RemoveFinalizer]. *)
Definition ContainsFinalizer (b : CheckpointBackup) (f : string) : bool :=
  bool_decide (f ∈ cb_finalizers b).

Definition AddFinalizer (b : CheckpointBackup) (f : string) : CheckpointBackup :=
  if ContainsFinalizer b f then b else set_finalizers b (cb_finalizers b ++ [f])%list.

Definition RemoveFinalizer (b : CheckpointBackup) (f : string) : CheckpointBackup :=
  set_finalizers b (filter (fun x => x ≠ f) (cb_finalizers b)).

(** An object read under a key carries the namespace and the name of that
    key. *)
Definition backupAt (ns name : string) (b : CheckpointBackup) : CheckpointBackup :=
  mkBackup ns name (cb_finalizers b) (cb_deletionTimestamp b) (cb_spec b) (cb_status b).

Definition podAt (ns name : string) (p : Pod) : Pod :=
  mkPod ns name (pod_generateName p) (pod_ownerReferences p) (pod_nodeName p) (pod_phase p)
    (pod_containers p) (pod_initContainers p).

Section Controller.

Variable env : Env.

Definition now : M Time := t ← tick; mret (env_now env t).

(** **** The API client *)

Definition getBackup (ns name : string) : M (GetRes CheckpointBackup) :=
  t ← tick;
  match env_get env t with
  | Some e => mret (GetErr e)
  | None =>
      w ← gets id;
      mret (match w_backups w !! (ns, name) with
            | Some b => Found (backupAt ns name b)
            | None => NotFound
            end)
  end.

Definition getPod (ns name : string) : M (GetRes Pod) :=
  t ← tick;
  match env_get env t with
  | Some e => mret (GetErr e)
  | None =>
      w ← gets id;
      mret (match w_pods w !! (ns, name) with
            | Some p => Found (podAt ns name p)
            | None => NotFound
            end)
  end.

Definition getSecret (ns name : string) : M (GetRes (gmap string string)) :=
  t ← tick;
  match env_get env t with
  | Some e => mret (GetErr e)
  | None =>
      w ← gets id;
      mret (match w_secrets w !! (ns, name) with Some d => Found d | None => NotFound end)
  end.

(** [r.Status().Update(ctx, obj)]: the status subresource takes the status
    of [obj] and nothing else. *)
Definition statusUpdate (obj : CheckpointBackup) : M UpdateOutcome :=
  t ← tick;
  emit (EvStatusUpdate (cb_namespace obj) (cb_name obj) (cb_status obj));;
  match env_update env t with
  | UpdOk =>
      w ← gets id;
      match w_backups w !! (cb_namespace obj, cb_name obj) with
      | Some cur =>
          modify (with_backups (<[(cb_namespace obj, cb_name obj) := set_status cur (cb_status obj)]>));;
          mret UpdOk
      | None => mret (UpdError (notFound (cb_namespace obj) (cb_name obj)))
      end
  | o => mret o
  end.

(** [r.Update(ctx, obj)] through the pointer [p]: with the status
    subresource enabled the main resource takes metadata and spec and keeps
    the stored status; the object in memory becomes the stored one.  An object
    that is being deleted goes away with its last finalizer. *)
Definition update (p : nat) : M UpdateOutcome :=
  obj ← load p;
  t ← tick;
  emit (EvUpdate (cb_namespace obj) (cb_name obj) (cb_finalizers obj));;
  match env_update env t with
  | UpdOk =>
      w ← gets id;
      match w_backups w !! (cb_namespace obj, cb_name obj) with
      | Some cur =>
          let stored := mkBackup (cb_namespace obj) (cb_name obj) (cb_finalizers obj)
                          (cb_deletionTimestamp cur) (cb_spec obj) (cb_status cur) in
          (if bool_decide (cb_deletionTimestamp stored ≠ None ∧ cb_finalizers stored = [])
           then modify (with_backups (delete (cb_namespace obj, cb_name obj)))
           else modify (with_backups (<[(cb_namespace obj, cb_name obj) := stored]>)));;
          store p (fun _ => stored);;
          mret UpdOk
      | None => mret (UpdError (notFound (cb_namespace obj) (cb_name obj)))
      end
  | o => mret o
  end.

(** [r.Delete(ctx, &pod)]. *)
Definition deletePod (pod : Pod) : M unit :=
  t ← tick;
  emit (EvDeletePod (pod_namespace pod) (pod_name pod));;
  match env_delete env t with
  | Some e => fail e
  | None => modify (with_pods (delete (pod_namespace pod, pod_name pod)))
  end.

(** **** The scheduler *)

(** [if entryID, exists := r.scheduledJobs[key]; exists { r.Scheduler.Remove(entryID);
    delete(r.scheduledJobs, key) }]. *)
Definition removeScheduledJob (key : string) : M bool :=
  w ← gets id;
  match w_scheduledJobs w !! key with
  | Some entryID =>
      modify (with_cron (delete entryID) id);;
      modify (with_scheduledJobs (delete key));;
      mret true
  | None => mret false
  end.

(** [r.Scheduler.AddFunc(schedule, func() { r.performCheckpoint(..., backup) })]. *)
Definition AddFunc (schedule : string) (backup : nat) : M nat :=
  match env_cron env schedule with
  | Some e => fail e
  | None =>
      entryID ← gets w_cronNext;
      modify (with_cron (<[entryID := mkCronEntry schedule backup]>) S);;
      mret entryID
  end.

(** **** Clients *)

Definition NewKubeletClient : M KubeletClient :=
  match env_token env with
  | None => fail "failed to read service account token"
  | Some tokenBytes =>
      let kubeletURL :=
        if bool_decide (env_nodeIP env ≠ "") then "https://" ++ env_nodeIP env ++ ":10250"
        else "https://localhost:10250" in
      mret (mkKubeletClient tokenBytes kubeletURL)
  end.

Definition NewRegistryClient (registryConfig : Registry) : M RegistryClient :=
  let secretName :=
    match reg_secretRef registryConfig with Some sr => sr_name sr | None => "registry-credentials" end in
  let secretNamespace :=
    match reg_secretRef registryConfig with
    | Some sr => if bool_decide (sr_namespace sr ≠ "") then sr_namespace sr else "stateful-migration"
    | None => "stateful-migration"
    end in
  r ← getSecret secretNamespace secretName;
  match r with
  | GetErr e =>
      fail ("failed to get registry credentials secret " ++ secretNamespace ++ "/" ++ secretName ++ ": " ++ e)
  | NotFound =>
      fail ("failed to get registry credentials secret " ++ secretNamespace ++ "/" ++ secretName ++ ": "
            ++ notFound secretNamespace secretName)
  | Found data =>
      let username := default "" (data !! "username") in
      let password := default "" (data !! "password") in
      let registry := default "" (data !! "registry") in
      if bool_decide (username = "" ∨ password = "") then
        fail ("registry credentials are empty in secret " ++ secretNamespace ++ "/" ++ secretName)
      else
        let registryURL := reg_url registryConfig in
        let registryURL :=
          if bool_decide (registryURL = "" ∧ registry ≠ "") then registry else registryURL in
        let registryURL := if bool_decide (registryURL = "") then "docker.io" else registryURL in
        mret (mkRegistryClient username password registryURL)
  end.

(** [cron.New()] has no state the model observes: the entries of the scheduler
    and [r.scheduledJobs] start empty. *)
Definition initializeClients (backup : nat) : M unit :=
  w ← gets id;
  (match w_kubeletClient w with
   | Some _ => mret tt
   | None =>
       r ← try NewKubeletClient;
       match r with
       | Err e => fail ("failed to create kubelet client: " ++ e)
       | Ok kubeletClient => modify (with_kubeletClient (Some kubeletClient))
       end
   end);;
  w ← gets id;
  b ← load backup;
  match w_registryClient w, sp_registry (cb_spec b) with
  | None, Some registry =>
      r ← try (NewRegistryClient registry);
      match r with
      | Err e => fail ("failed to create registry client: " ++ e)
      | Ok registryClient => modify (with_registryClient (Some registryClient))
      end
  | _, _ => mret tt
  end.

(** **** Status helpers *)

Definition isPodOnThisNode (backup : nat) : M bool :=
  b ← load backup;
  r ← getPod (pr_namespace (sp_podRef (cb_spec b))) (pr_name (sp_podRef (cb_spec b)));
  match r with
  | NotFound => mret false
  | GetErr e => fail e
  | Found pod => mret (bool_decide (pod_nodeName pod = env_nodeName env))
  end.

Definition shouldStopPod (b : CheckpointBackup) : bool :=
  match sp_stopPod (cb_spec b) with
  | Some stop => stop
  | None => false
  end.

Fixpoint findCheckpointFilePath (files : list CheckpointFile) (containerName : string) : option string :=
  match files with
  | [] => None
  | checkpointFile :: rest =>
      if bool_decide (cf_containerName checkpointFile = containerName)
      then Some (cf_filePath checkpointFile)
      else findCheckpointFilePath rest containerName
  end.

Definition getCheckpointFilePath (b : CheckpointBackup) (containerName : string) : option string :=
  findCheckpointFilePath (st_checkpointFiles (cb_status b)) containerName.

Definition maxRetries : nat := 3.

(** The loop [for i := 0; i < maxRetries; i++] of [updatePhase], entered at
    [i] with [maxRetries - i] rounds left. *)
Fixpoint updatePhase_from (rounds i : nat) (backup : nat) (phase message : string) : M unit :=
  match rounds with
  | 0 => fail ("failed to update backup status after " ++ pretty maxRetries ++ " retries")
  | S rounds' =>
      b ← load backup;
      r ← getBackup (cb_namespace b) (cb_name b);
      match r with
      | GetErr e => fail ("failed to get latest backup: " ++ e)
      | NotFound => fail ("failed to get latest backup: " ++ notFound (cb_namespace b) (cb_name b))
      | Found latestBackup =>
          let latestBackup := set_status latestBackup (set_phase (cb_status latestBackup) phase message) in
          u ← statusUpdate latestBackup;
          match u with
          | UpdConflict e =>
              if bool_decide (i < maxRetries - 1)
              then updatePhase_from rounds' (S i) backup phase message
              else fail ("failed to update backup status: " ++ e)
          | UpdError e => fail ("failed to update backup status: " ++ e)
          | UpdOk => store backup (fun b => set_status b (set_phase (cb_status b) phase message))
          end
      end
  end.

Definition updatePhase (backup : nat) (phase message : string) : M unit :=
  updatePhase_from maxRetries 0 backup phase message.

Fixpoint recordCheckpointFile_from (rounds i : nat) (backup : nat) (containerName checkpointPath : string) : M unit :=
  match rounds with
  | 0 => fail ("failed to record checkpoint file after " ++ pretty maxRetries ++ " retries")
  | S rounds' =>
      b ← load backup;
      r ← getBackup (cb_namespace b) (cb_name b);
      match r with
      | GetErr e => fail ("failed to get latest backup: " ++ e)
      | NotFound => fail ("failed to get latest backup: " ++ notFound (cb_namespace b) (cb_name b))
      | Found latestBackup =>
          let alreadyRecorded :=
            existsb (fun checkpointFile =>
                       bool_decide (cf_containerName checkpointFile = containerName
                                    ∧ cf_filePath checkpointFile = checkpointPath))
                    (st_checkpointFiles (cb_status latestBackup)) in
          if alreadyRecorded then mret tt
          else
            now' ← now;
            let newCheckpointFile := mkCheckpointFile containerName checkpointPath (Some now') in
            let files := (st_checkpointFiles (cb_status latestBackup) ++ [newCheckpointFile])%list in
            let latestBackup := set_status latestBackup (set_checkpointFiles (cb_status latestBackup) files) in
            u ← statusUpdate latestBackup;
            match u with
            | UpdConflict e =>
                if bool_decide (i < maxRetries - 1)
                then recordCheckpointFile_from rounds' (S i) backup containerName checkpointPath
                else fail ("failed to update backup status with checkpoint file: " ++ e)
            | UpdError e => fail ("failed to update backup status with checkpoint file: " ++ e)
            | UpdOk => store backup (fun b => set_status b (set_checkpointFiles (cb_status b) files))
            end
      end
  end.

Definition recordCheckpointFile (backup : nat) (containerName checkpointPath : string) : M unit :=
  recordCheckpointFile_from maxRetries 0 backup containerName checkpointPath.

Fixpoint recordBuiltImage_from (rounds i : nat) (backup : nat) (containerName imageName : string) (pushed : bool) : M unit :=
  match rounds with
  | 0 => fail ("failed to record built image after " ++ pretty maxRetries ++ " retries")
  | S rounds' =>
      b ← load backup;
      r ← getBackup (cb_namespace b) (cb_name b);
      match r with
      | GetErr e => fail ("failed to get latest backup: " ++ e)
      | NotFound => fail ("failed to get latest backup: " ++ notFound (cb_namespace b) (cb_name b))
      | Found latestBackup =>
          let alreadyRecorded :=
            existsb (fun builtImage =>
                       bool_decide (bi_containerName builtImage = containerName
                                    ∧ bi_imageName builtImage = imageName))
                    (st_builtImages (cb_status latestBackup)) in
          if alreadyRecorded then mret tt
          else
            now' ← now;
            let newBuiltImage := mkBuiltImage containerName imageName (Some now') pushed in
            let images := (st_builtImages (cb_status latestBackup) ++ [newBuiltImage])%list in
            let latestBackup := set_status latestBackup (set_builtImages (cb_status latestBackup) images) in
            u ← statusUpdate latestBackup;
            match u with
            | UpdConflict e =>
                if bool_decide (i < maxRetries - 1)
                then recordBuiltImage_from rounds' (S i) backup containerName imageName pushed
                else fail ("failed to update backup status with built image: " ++ e)
            | UpdError e => fail ("failed to update backup status with built image: " ++ e)
            | UpdOk => store backup (fun b => set_status b (set_builtImages (cb_status b) images))
            end
      end
  end.

Definition recordBuiltImage (backup : nat) (containerName imageName : string) (pushed : bool) : M unit :=
  recordBuiltImage_from maxRetries 0 backup containerName imageName pushed.

(** **** The node agent, the builder and the disk *)

(** [os.Stat(path)] finds something: a file of the node, or the checkpoint
    root itself. *)
Definition onDisk (w : World) (path : string) : bool :=
  bool_decide (path ∈ w_files w) || bool_decide (path = CheckpointBasePath).

(** [kc.CreateCheckpoint(namespace, podName, containerName)]. *)
Definition CreateCheckpoint (namespace podName containerName : string) : M string :=
  t ← tick;
  emit (EvKubelet namespace podName containerName);;
  match env_kubelet env t with
  | KFail e => fail e
  | KPath relativePath written =>
      modify (with_files (fun fs => fs ∪ list_to_set written));;
      mret relativePath
  end.

(** [r.findCheckpointFile]: the expected path when it is on disk, and else
    what the scan of the checkpoint root selects. *)
Definition findCheckpointFile (namespace podName containerName expectedPath : string) : M string :=
  w ← gets id;
  if onDisk w (fullPath expectedPath) then mret expectedPath
  else
    t ← tick;
    match env_scan env t with
    | None =>
        fail ("no checkpoint files found for pattern checkpoint-" ++ namespace ++ "_" ++ podName
              ++ "-" ++ containerName ++ "-*.tar. Available files: " ++ env_listing env t)
    | Some relativePath => mret relativePath
    end.

(** [r.buildCheckpointImage]: the builder runs only on a file that is there. *)
Definition buildCheckpointImage (checkpointPath imageName baseImage containerName : string) : M unit :=
  w ← gets id;
  let fullCheckpointPath := fullPath checkpointPath in
  if negb (onDisk w fullCheckpointPath) then
    fail ("checkpoint file does not exist: " ++ fullCheckpointPath
          ++ " (this should not happen after findCheckpointFile)")
  else
    t ← tick;
    emit (EvBuild fullCheckpointPath imageName baseImage);;
    match env_build env t with
    | Some e => fail e
    | None => mret tt
    end.

(** [rc.login]. *)
Definition login (rc : RegistryClient) (imageName : string) : M unit :=
  let registryURL := rc_registry rc in
  let registryURL := TrimPrefix registryURL "http://" in
  let registryURL := TrimPrefix registryURL "https://" in
  t ← tick;
  emit (EvLogin registryURL);;
  match env_login env t with
  | Some e => fail ("failed to login to registry " ++ registryURL ++ ": " ++ e)
  | None => mret tt
  end.

(** [rc.PushImage]. *)
Definition PushImage (rc : RegistryClient) (imageName : string) : M unit :=
  r ← try (login rc imageName);
  match r with
  | Err e => fail ("failed to login to registry: " ++ e)
  | Ok _ =>
      let registryURL := rc_registry rc in
      let registryURL := TrimPrefix registryURL "http://" in
      let registryURL := TrimPrefix registryURL "https://" in
      let destinationImage := registryURL ++ "/" ++ imageName in
      t ← tick;
      emit (EvPush imageName destinationImage);;
      match env_push env t with
      | Some e => fail ("failed to push image " ++ imageName ++ " to " ++ destinationImage ++ ": " ++ e)
      | None => mret tt
      end
  end.

(** [r.deleteCheckpointFile]. *)
Definition deleteCheckpointFile (checkpointPath : string) : M unit :=
  w ← gets id;
  if negb (onDisk w checkpointPath) then mret tt
  else
    t ← tick;
    emit (EvRemove checkpointPath);;
    match env_remove env t with
    | Some e => fail ("failed to remove checkpoint file " ++ checkpointPath ++ ": " ++ e)
    | None => modify (with_files (fun fs => fs ∖ {[checkpointPath]}))
    end.

(** **** The capture pipeline *)

(** Step 2 of [checkpointContainer]: the image of the pod's container of that
    name, the empty string when there is none. *)
Fixpoint findBaseImage (containers : list PodContainer) (name : string) : string :=
  match containers with
  | [] => ""
  | c :: rest => if bool_decide (pc_name c = name) then pc_image c else findBaseImage rest name
  end.

(** Step 3 of [checkpointContainer]: the name the image is built under. *)
Definition generatedImageName (b : CheckpointBackup) (container : Container) (t : Time) : string :=
  "localhost/checkpoint-" ++ pr_name (sp_podRef (cb_spec b)) ++ "-" ++ c_name container
  ++ ":" ++ formatTimestamp t.

Definition determineImageName (b : CheckpointBackup) (container : Container) : M string :=
  if isNil (sp_registry (cb_spec b)) || bool_decide (c_image container = "")
  then t ← now; mret (generatedImageName b container t)
  else mret (c_image container).

(** [checkpointContainer] is written in three parts, in the order of the
    source.  First the resume check: the path the status already names for
    the container when that file is on disk, the empty path when a
    checkpoint has to be taken, or [inr] for the early [return nil] when the
    file is gone and an image of the container is recorded. *)
Definition resumeCheck (b : CheckpointBackup) (w : World) (container : Container) : string + unit :=
  match getCheckpointFilePath b (c_name container) with
  | Some existingPath =>
      if negb (onDisk w (fullPath existingPath)) then
        let imageAlreadyBuilt :=
          existsb (fun builtImage => bool_decide (bi_containerName builtImage = c_name container))
                  (st_builtImages (cb_status b)) in
        if imageAlreadyBuilt then inr tt else inl ""
      else inl existingPath
  | None => inl ""
  end.

(** Then the block [if checkpointPath == ""]: Step 1, the call of the node
    agent and the record of the file. *)
Definition createCheckpointIfMissing (backup : nat) (b : CheckpointBackup) (container : Container)
    (checkpointPath : string) : M string :=
  if bool_decide (checkpointPath = "") then
    try (updatePhase backup PhaseCheckpointing
           ("Creating checkpoint for container " ++ c_name container));;
    r ← try (CreateCheckpoint (pr_namespace (sp_podRef (cb_spec b)))
               (pr_name (sp_podRef (cb_spec b))) (c_name container));
    match r with
    | Err e =>
        try (updatePhase backup PhaseFailed ("Failed to create checkpoint: " ++ e));;
        fail ("failed to create checkpoint via kubelet API: " ++ e)
    | Ok checkpointPath =>
        try (recordCheckpointFile backup (c_name container) checkpointPath);;
        try (updatePhase backup PhaseCheckpointed
               ("Checkpoint created for container " ++ c_name container ++ ": " ++ checkpointPath));;
        mret checkpointPath
    end
  else mret checkpointPath.

(** Then Steps 1.5 to 7: find the file, build the image, push it when a
    registry is configured, record it, and clean up. *)
Definition buildAndPush (backup : nat) (b : CheckpointBackup) (pod : Pod) (container : Container)
    (checkpointPath : string) : M unit :=
  (* Step 1.5 *)
  let fullCheckpointPath := fullPath checkpointPath in
  w ← gets id;
  checkpointPath ←
    (if negb (onDisk w fullCheckpointPath) then
       r ← try (findCheckpointFile (pr_namespace (sp_podRef (cb_spec b)))
                  (pr_name (sp_podRef (cb_spec b))) (c_name container) checkpointPath);
       match r with
       | Err e => fail ("failed to find checkpoint file after creation: " ++ e)
       | Ok actualCheckpointPath => mret actualCheckpointPath
       end
     else mret checkpointPath);
  (* Step 2 *)
  let baseImage := findBaseImage (pod_containers pod) (c_name container) in
  if bool_decide (baseImage = "") then
    fail ("could not find base image for container " ++ c_name container)
  else
    (* Step 3 *)
    imageName ← determineImageName b container;
    try (updatePhase backup PhaseImageBuilding
           ("Building checkpoint image for container " ++ c_name container));;
    (* Step 4 *)
    r ← try (buildCheckpointImage checkpointPath imageName baseImage (c_name container));
    match r with
    | Err e =>
        try (updatePhase backup PhaseFailed ("Failed to build image: " ++ e));;
        fail ("failed to build checkpoint image: " ++ e)
    | Ok _ =>
        try (updatePhase backup PhaseImageBuilt
               ("Image built successfully for container " ++ c_name container ++ ": " ++ imageName));;
        (* Step 5 *)
        w ← gets id;
        pushed ←
          match sp_registry (cb_spec b), w_registryClient w with
          | Some _, Some registryClient =>
              try (updatePhase backup PhaseImagePushing
                     ("Pushing image " ++ imageName ++ " to registry"));;
              r ← try (PushImage registryClient imageName);
              match r with
              | Err e =>
                  try (updatePhase backup PhaseFailed ("Failed to push image: " ++ e));;
                  fail ("failed to push checkpoint image: " ++ e)
              | Ok _ =>
                  try (updatePhase backup PhaseImagePushed
                         ("Image pushed successfully: " ++ imageName));;
                  mret true
              end
          | _, _ => mret false
          end;
        (* Step 6 *)
        try (recordBuiltImage backup (c_name container) imageName pushed);;
        (* Step 7 *)
        if isNil (sp_registry (cb_spec b)) || pushed
        then try (deleteCheckpointFile fullCheckpointPath);; mret tt
        else mret tt
    end.

Definition checkpointContainer (backup : nat) (pod : Pod) (container : Container) : M unit :=
  b ← load backup;
  w ← gets id;
  match resumeCheck b w container with
  | inr _ => mret tt
  | inl checkpointPath =>
      checkpointPath ← createCheckpointIfMissing backup b container checkpointPath;
      buildAndPush backup b pod container checkpointPath
  end.

(** [for _, container := range containersToProcess], leaving at the first
    error. *)
Fixpoint checkpointContainers (backup : nat) (pod : Pod) (containers : list Container) : M unit :=
  match containers with
  | [] => mret tt
  | container :: rest =>
      checkpointContainer backup pod container;;
      checkpointContainers backup pod rest
  end.

(** The end of [performCheckpoint], once every container went through:
    [Completed], then the pod's deletion when [stopPod] asks for it. *)
Definition completeCheckpoint (backup : nat) (pod : Pod) : M unit :=
  now' ← now;
  store backup (fun b => set_status b (set_lastCheckpointTime (cb_status b) (Some now')));;
  updatePhase backup PhaseCompleted "All containers checkpointed successfully";;
  b ← load backup;
  if shouldStopPod b then
    r ← try (deletePod pod);
    match r with
    | Err e =>
        try (updatePhase backup PhaseCompletedWithError
               ("Checkpoint completed but failed to delete pod: " ++ e));;
        fail e
    | Ok _ =>
        removeScheduledJob (namespacedName (cb_namespace b) (cb_name b));;
        updatePhase backup PhaseCompletedPodDeleted "Checkpoint completed and pod deleted successfully"
    end
  else mret tt.

Definition containersToProcess (b : CheckpointBackup) (pod : Pod) : list Container :=
  if bool_decide (length (sp_containers (cb_spec b)) = 0) && isNil (sp_registry (cb_spec b))
  then (sp_containers (cb_spec b)
        ++ map (fun podContainer => mkContainer (pc_name podContainer) "") (pod_containers pod))%list
  else sp_containers (cb_spec b).

Definition performCheckpoint (backup : nat) : M unit :=
  b ← load backup;
  let phase := st_phase (cb_status b) in
  if bool_decide (phase = PhaseCompleted ∨ phase = PhaseCompletedPodDeleted
                  ∨ phase = PhaseCompletedWithError) then mret tt
  else if bool_decide (phase = PhaseCheckpointing ∨ phase = PhaseCheckpointed
                       ∨ phase = PhaseImageBuilding ∨ phase = PhaseImageBuilt
                       ∨ phase = PhaseImagePushing ∨ phase = PhaseImagePushed) then mret tt
  else
    r ← getPod (pr_namespace (sp_podRef (cb_spec b))) (pr_name (sp_podRef (cb_spec b)));
    match r with
    | GetErr e => fail ("failed to get pod: " ++ e)
    | NotFound =>
        fail ("failed to get pod: "
              ++ notFound (pr_namespace (sp_podRef (cb_spec b))) (pr_name (sp_podRef (cb_spec b))))
    | Found pod =>
        if bool_decide (pod_phase pod ≠ PodRunning) then mret tt
        else
          checkpointContainers backup pod (containersToProcess b pod);;
          completeCheckpoint backup pod
    end.

(** **** Reconciliation *)

Definition reconcileNormal (backup : nat) : M Result :=
  b ← load backup;
  let backupKey := namespacedName (cb_namespace b) (cb_name b) in
  if bool_decide (sp_schedule (cb_spec b) = "immediately") then
    if bool_decide (st_phase (cb_status b) ≠ "") then mret (mkResult 0)
    else performCheckpoint backup;; mret (mkResult 0)
  else
    removeScheduledJob backupKey;;
    entryID ← AddFunc (sp_schedule (cb_spec b)) backup;
    modify (with_scheduledJobs (<[backupKey := entryID]>));;
    (if isNil (st_lastCheckpointTime (cb_status b)) then performCheckpoint backup else mret tt);;
    mret (mkResult 3600).

Definition reconcileDelete (backup : nat) : M Result :=
  b ← load backup;
  removeScheduledJob (namespacedName (cb_namespace b) (cb_name b));;
  store backup (fun b => RemoveFinalizer b CheckpointBackupFinalizer);;
  u ← update backup;
  match u with
  | UpdOk => mret (mkResult 0)
  | UpdConflict e | UpdError e => fail e
  end.

(** The block [// Add finalizer if not present] of [Reconcile]. *)
Definition ensureFinalizer (checkpointBackup : nat) : M unit :=
  b ← load checkpointBackup;
  if negb (ContainsFinalizer b CheckpointBackupFinalizer) then
    store checkpointBackup (fun b => AddFinalizer b CheckpointBackupFinalizer);;
    u ← update checkpointBackup;
    match u with
    | UpdOk => mret tt
    | UpdConflict e | UpdError e => fail e
    end
  else mret tt.

Definition Reconcile (namespace name : string) : M Result :=
  r ← getBackup namespace name;
  match r with
  | NotFound =>
      removeScheduledJob (namespacedName namespace name);;
      mret (mkResult 0)
  | GetErr e => fail e
  | Found fetched =>
      checkpointBackup ← alloc fetched;
      initializeClients checkpointBackup;;
      ensureFinalizer checkpointBackup;;
      b ← load checkpointBackup;
      if negb (isNil (cb_deletionTimestamp b)) then reconcileDelete checkpointBackup
      else if bool_decide (st_phase (cb_status b) = PhaseCompletedPodDeleted) then mret (mkResult 0)
      else
        isOnThisNode ← isPodOnThisNode checkpointBackup;
        if negb isOnThisNode then mret (mkResult 0)
        else reconcileNormal checkpointBackup
  end.

(** The scheduler runs the closure of an entry: [performCheckpoint] on the
    object the closure captured, its error logged. *)
Definition runEntry (entryID : nat) : M unit :=
  w ← gets id;
  match w_cron w !! entryID with
  | Some entry => try (performCheckpoint (ce_backup entry));; mret tt
  | None => mret tt
  end.

End Controller.

End CE.

(** ** The restore orchestrator: [MigrationRestoreReconciler] *)

Module RO.

(** [binding.Spec.Resource] and the names of [binding.Spec.Clusters]. *)
Record ResourceBinding := mkBinding {
  rb_name : string;
  rb_resource : ResourceRef;
  rb_clusters : list string }.

Record StatefulMigration := mkMigration {
  sm_namespace : string;
  sm_name : string;
  sm_resourceRef : ResourceRef;
  sm_sourceClusters : list string }.

Record CheckpointRestore := mkRestore {
  cr_namespace : string;
  cr_name : string;
  cr_labels : list (string * string);
  cr_backupRef : string;
  cr_podName : string;
  cr_containers : list Container }.

Record ResourceSelector := mkSelector {
  rs_apiVersion : string; rs_kind : string; rs_name : string }.

Record PropagationPolicy := mkPolicy {
  pp_namespace : string;
  pp_name : string;
  pp_resourceSelectors : list ResourceSelector;
  pp_clusterNames : list string }.

(** A manifest of a [Work]: what [UnmarshalJSON] makes of the raw bytes,
    [None] when it fails; [mf_containers] is [spec.containers] as
    (name, image) pairs, [None] when the field is not there. *)
Record Manifest := mkManifest {
  mf_apiVersion : string; mf_kind : string;
  mf_namespace : string; mf_name : string;
  mf_containers : option (list (string * string)) }.

Record Work := mkWork { wk_name : string; wk_manifests : list (option Manifest) }.

Record Env := mkEnv {
  env_list : nat -> option (bool * string);   (* a failing List: is it NotFound, and its text *)
  env_get : nat -> option string;             (* a Get that fails otherwise than NotFound *)
  env_create : nat -> option string;
  env_policy : nat -> option string;          (* CreateOrUpdatePropagationPolicy *)
  env_update : nat -> option string }.

(** The federation control plane, as [r.KarmadaClient] reaches it. *)
Record Plane := mkPlane {
  k_available : bool;                                        (* r.KarmadaClient != nil *)
  k_bindings : list ResourceBinding;
  k_backups : list CheckpointBackup;
  k_restores : gmap (string * string) CheckpointRestore;
  k_policies : gmap (string * string) PropagationPolicy;
  k_works : list Work;
  k_tick : nat;
  k_created : list (string * string)                         (* Create calls accepted, newest first *)
}.

Abbreviation M := (StateErr Plane).

Definition tick : M nat :=
  fun k => (Ok (k_tick k),
            mkPlane (k_available k) (k_bindings k) (k_backups k) (k_restores k) (k_policies k)
              (k_works k) (S (k_tick k)) (k_created k)).

Definition RestoreCheckInterval : nat := 30.

Definition sameResource (a b : ResourceRef) : bool :=
  bool_decide (rr_apiVersion a = rr_apiVersion b) && bool_decide (rr_kind a = rr_kind b)
  && bool_decide (rr_name a = rr_name b) && bool_decide (rr_namespace a = rr_namespace b).

(** [strings.ToLower], on ASCII letters. *)
Definition lowerAscii (c : Ascii.ascii) : Ascii.ascii :=
  let n := Ascii.nat_of_ascii c in
  if bool_decide (65 ≤ n ∧ n ≤ 90)%nat then Ascii.ascii_of_nat (n + 32) else c.

Fixpoint ToLower (s : string) : string :=
  match s with
  | EmptyString => EmptyString
  | String c rest => String (lowerAscii c) (ToLower rest)
  end.

Section Controller.

Variable env : Env.

(** Modelled from the spec: the [KarmadaClient] wrapper is not among the
    sources.  It is taken to be a client of the federation plane's object
    store: [List] returns the objects in order, [Get] answers NotFound for a
    key that is absent, [Create] adds an object under a fresh key and refuses
    an existing one, [CreateOrUpdatePropagationPolicy] writes the policy
    under its key, [Update] replaces the work of that name; each may fail. *)
Definition listBindings : M (GetRes (list ResourceBinding)) :=
  t ← tick;
  match env_list env t with
  | Some (true, _) => mret NotFound
  | Some (false, e) => mret (GetErr e)
  | None => gets (fun k => Found (k_bindings k))
  end.

Definition listBackups : M (GetRes (list CheckpointBackup)) :=
  t ← tick;
  match env_list env t with
  | Some (true, _) => mret NotFound
  | Some (false, e) => mret (GetErr e)
  | None => gets (fun k => Found (k_backups k))
  end.

Definition listWorks : M (GetRes (list Work)) :=
  t ← tick;
  match env_list env t with
  | Some (true, _) => mret NotFound
  | Some (false, e) => mret (GetErr e)
  | None => gets (fun k => Found (k_works k))
  end.

Definition getRestore (ns name : string) : M (GetRes CheckpointRestore) :=
  t ← tick;
  match env_get env t with
  | Some e => mret (GetErr e)
  | None =>
      gets (fun k => match k_restores k !! (ns, name) with Some r => Found r | None => NotFound end)
  end.

Definition createRestore (restore : CheckpointRestore) : M unit :=
  t ← tick;
  match env_create env t with
  | Some e => fail e
  | None =>
      k ← gets id;
      match k_restores k !! (cr_namespace restore, cr_name restore) with
      | Some _ => fail (namespacedName (cr_namespace restore) (cr_name restore) ++ " already exists")
      | None =>
          modify (fun k =>
            mkPlane (k_available k) (k_bindings k) (k_backups k)
              (<[(cr_namespace restore, cr_name restore) := restore]> (k_restores k))
              (k_policies k) (k_works k) (k_tick k)
              ((cr_namespace restore, cr_name restore) :: k_created k))
      end
  end.

Definition CreateOrUpdatePropagationPolicy (policy : PropagationPolicy) : M unit :=
  t ← tick;
  match env_policy env t with
  | Some e => fail e
  | None =>
      modify (fun k =>
        mkPlane (k_available k) (k_bindings k) (k_backups k) (k_restores k)
          (<[(pp_namespace policy, pp_name policy) := policy]> (k_policies k))
          (k_works k) (k_tick k) (k_created k))
  end.

Definition updateWork (work : Work) : M unit :=
  t ← tick;
  match env_update env t with
  | Some e => fail e
  | None =>
      modify (fun k =>
        mkPlane (k_available k) (k_bindings k) (k_backups k) (k_restores k) (k_policies k)
          (map (fun w => if bool_decide (wk_name w = wk_name work) then work else w) (k_works k))
          (k_tick k) (k_created k))
  end.

(** [findResourceBinding]: the first binding for the resource that lists
    [sourceCluster] among its clusters. *)
Fixpoint firstBindingWith (bindings : list ResourceBinding) (resourceRef : ResourceRef)
    (sourceCluster : string) : option ResourceBinding :=
  match bindings with
  | [] => None
  | binding :: rest =>
      if sameResource (rb_resource binding) resourceRef
         && existsb (fun cluster => bool_decide (cluster = sourceCluster)) (rb_clusters binding)
      then Some binding
      else firstBindingWith rest resourceRef sourceCluster
  end.

Definition findResourceBinding (resourceRef : ResourceRef) (sourceCluster : string)
    : M (GetRes ResourceBinding) :=
  l ← listBindings;
  match l with
  | NotFound => mret NotFound
  | GetErr e => mret (GetErr ("failed to list resource bindings: " ++ e))
  | Found bindings =>
      mret (match firstBindingWith bindings resourceRef sourceCluster with
            | Some binding => Found binding
            | None => NotFound
            end)
  end.

Definition isSourceClusterStillAvailable (binding : ResourceBinding) (sourceCluster : string) : bool :=
  existsb (fun cluster => bool_decide (cluster = sourceCluster)) (rb_clusters binding).

Definition findCheckpointBackups (resourceRef : ResourceRef) (sourceCluster : string)
    : M (list CheckpointBackup) :=
  l ← listBackups;
  match l with
  | NotFound => fail "failed to list checkpoint backups: not found"
  | GetErr e => fail ("failed to list checkpoint backups: " ++ e)
  | Found items =>
      mret (filter (fun backup =>
                      sameResource (sp_resourceRef (cb_spec backup)) resourceRef = true
                      ∧ pr_namespace (sp_podRef (cb_spec backup)) = rr_namespace resourceRef)
                   items)
  end.

(** The loop of [createRestorePropagationPolicy] that determines the target
    cluster: it leaves at its first round. *)
Definition targetClusterOf (sourceClusters : list string) : string :=
  match sourceClusters with
  | [] => ""
  | cluster :: _ => cluster
  end.

Definition restorePolicyFor (restore : CheckpointRestore) (targetCluster : string) : PropagationPolicy :=
  mkPolicy (cr_namespace restore) (cr_name restore ++ "-restore-policy")
    [mkSelector "migration.dcnlab.com/v1" "CheckpointRestore" (cr_name restore)]
    [targetCluster].

Definition createRestorePropagationPolicy (restore : CheckpointRestore)
    (statefulMigration : StatefulMigration) : M unit :=
  let targetCluster := targetClusterOf (sm_sourceClusters statefulMigration) in
  if bool_decide (targetCluster = "") then fail "no target cluster available for restore"
  else CreateOrUpdatePropagationPolicy (restorePolicyFor restore targetCluster).

Definition restoreFor (backup : CheckpointBackup) : CheckpointRestore :=
  mkRestore (cb_namespace backup) (cb_name backup ++ "-restore")
    [("migration.dcnlab.com/restore", "true"); ("migration.dcnlab.com/backup", cb_name backup)]
    (cb_name backup)
    (pr_name (sp_podRef (cb_spec backup)))
    (sp_containers (cb_spec backup)).

Definition createCheckpointRestore (backup : CheckpointBackup)
    (statefulMigration : StatefulMigration) : M unit :=
  let restoreName := cb_name backup ++ "-restore" in
  r ← getRestore (cb_namespace backup) restoreName;
  match r with
  | Found _ => mret tt
  | GetErr e => fail ("failed to check existing CheckpointRestore: " ++ e)
  | NotFound =>
      let restore := restoreFor backup in
      c ← try (createRestore restore);
      match c with
      | Err e => fail ("failed to create CheckpointRestore: " ++ e)
      | Ok _ => createRestorePropagationPolicy restore statefulMigration
      end
  end.

Fixpoint createCheckpointRestores (backups : list CheckpointBackup)
    (statefulMigration : StatefulMigration) : M unit :=
  match backups with
  | [] => mret tt
  | backup :: rest =>
      createCheckpointRestore backup statefulMigration;;
      createCheckpointRestores rest statefulMigration
  end.

(** [findWorkForResource]. *)
Definition manifestIs (resourceRef : ResourceRef) (m : option Manifest) : bool :=
  match m with
  | None => false
  | Some obj =>
      bool_decide (mf_apiVersion obj = rr_apiVersion resourceRef)
      && bool_decide (mf_kind obj = rr_kind resourceRef)
      && bool_decide (mf_name obj = rr_name resourceRef)
      && bool_decide (mf_namespace obj = rr_namespace resourceRef)
  end.

Definition findWorkForResource (resourceRef : ResourceRef) : M Work :=
  l ← listWorks;
  match l with
  | NotFound => fail "failed to list Work resources: not found"
  | GetErr e => fail ("failed to list Work resources: " ++ e)
  | Found works =>
      match find (fun work => existsb (manifestIs resourceRef) (wk_manifests work)) works with
      | Some work => mret work
      | None => fail "works.work.karmada.io not found"
      end
  end.

(** [updatePodContainerImages] and the map [updateWorkWithCheckpointImages]
    builds for it. *)
Definition checkpointImagesOf (checkpointBackups : list CheckpointBackup) : gmap string string :=
  foldl (fun m backup =>
           foldl (fun m container => <[c_name container := c_image container]> m)
                 m (sp_containers (cb_spec backup)))
        ∅ checkpointBackups.

Definition updatePodContainerImages (checkpointImages : gmap string string) (obj : Manifest)
    : option Manifest :=
  match mf_containers obj with
  | None => None
  | Some containers =>
      Some (mkManifest (mf_apiVersion obj) (mf_kind obj) (mf_namespace obj) (mf_name obj)
              (Some (map (fun c => match checkpointImages !! c.1 with
                                   | Some checkpointImage => (c.1, checkpointImage)
                                   | None => c
                                   end) containers)))
  end.

Definition updateWorkWithCheckpointImages (work : Work) (checkpointBackups : list CheckpointBackup)
    : M unit :=
  let checkpointImages := checkpointImagesOf checkpointBackups in
  let manifests :=
    map (fun manifest =>
           match manifest with
           | None => manifest
           | Some obj =>
               if bool_decide (mf_kind obj = "Pod") && bool_decide (mf_apiVersion obj = "v1") then
                 match updatePodContainerImages checkpointImages obj with
                 | Some obj' => Some obj'
                 | None => manifest
                 end
               else manifest
           end) (wk_manifests work) in
  updateWork (mkWork (wk_name work) manifests).

Definition handlePodRestore (statefulMigration : StatefulMigration)
    (checkpointBackups : list CheckpointBackup) : M unit :=
  r ← try (findWorkForResource (sm_resourceRef statefulMigration));
  match r with
  | Err e => fail ("failed to find Work for pod: " ++ e)
  | Ok work =>
      u ← try (updateWorkWithCheckpointImages work checkpointBackups);
      match u with
      | Err e => fail ("failed to update Work with checkpoint images: " ++ e)
      | Ok _ => mret tt
      end
  end.

Definition handleStatefulSetRestore (statefulMigration : StatefulMigration)
    (checkpointBackups : list CheckpointBackup) : M unit := mret tt.

Definition startRestoreProcess (statefulMigration : StatefulMigration) (sourceCluster : string)
    (checkpointBackups : list CheckpointBackup) : M unit :=
  createCheckpointRestores checkpointBackups statefulMigration;;
  let kind := ToLower (rr_kind (sm_resourceRef statefulMigration)) in
  if bool_decide (kind = "pod") then handlePodRestore statefulMigration checkpointBackups
  else if bool_decide (kind = "statefulset") then handleStatefulSetRestore statefulMigration checkpointBackups
  else mret tt.

Definition processSourceCluster (statefulMigration : StatefulMigration) (sourceCluster : string)
    : M unit :=
  r ← findResourceBinding (sm_resourceRef statefulMigration) sourceCluster;
  match r with
  | NotFound => mret tt
  | GetErr e => fail ("failed to find resource binding: " ++ e)
  | Found resourceBinding =>
      if isSourceClusterStillAvailable resourceBinding sourceCluster then mret tt
      else
        b ← try (findCheckpointBackups (sm_resourceRef statefulMigration) sourceCluster);
        match b with
        | Err e => fail ("failed to find checkpoint backups: " ++ e)
        | Ok checkpointBackups =>
            if bool_decide (length checkpointBackups = 0) then mret tt
            else startRestoreProcess statefulMigration sourceCluster checkpointBackups
        end
  end.

Fixpoint processSourceClusters (statefulMigration : StatefulMigration) (sourceClusters : list string)
    : M unit :=
  match sourceClusters with
  | [] => mret tt
  | sourceCluster :: rest =>
      processSourceCluster statefulMigration sourceCluster;;
      processSourceClusters statefulMigration rest
  end.

(** [Reconcile], from the [StatefulMigration] the manager's client returned
    ([NotFound] is ignored); the result is [RequeueAfter] in seconds. *)
Definition Reconcile (fetched : GetRes StatefulMigration) : M nat :=
  match fetched with
  | NotFound => mret 0
  | GetErr e => fail e
  | Found statefulMigration =>
      k ← gets id;
      if negb (k_available k) then mret RestoreCheckInterval
      else
        processSourceClusters statefulMigration (sm_sourceClusters statefulMigration);;
        mret RestoreCheckInterval
  end.

End Controller.

End RO.

(** ** The admission interceptor of the operator: [admission_webhook.go] *)

Module PodMutator.

(** [admission.Response], as [Handle] asks for it.  [PatchResponse patches]
    stands for the call [admission.PatchResponseFromRaw(req.Object.Raw,
    patchBytes)] on the marshalled [patches]; what the library makes of the
    two documents is not in the sources and is not modelled. *)
Inductive Response :=
| Allowed (reason : string)
| Errored (code : nat) (e : string)
| PatchResponse (patches : list Patch).

(** [p.Client]: what [List] of the CheckpointBackups of a namespace returns. *)
Record Client := mkClient { client_list : string -> Res (list CheckpointBackup) }.

Definition isPodFromJob (pod : Pod) : bool :=
  existsb (fun ownerRef => bool_decide (or_kind ownerRef = "Job")
                           && bool_decide (or_apiVersion ownerRef = "batch/v1"))
          (pod_ownerReferences pod).

Fixpoint jobNameOf (ownerReferences : list OwnerReference) : string :=
  match ownerReferences with
  | [] => ""
  | ownerRef :: rest =>
      if bool_decide (or_kind ownerRef = "Job") && bool_decide (or_apiVersion ownerRef = "batch/v1")
      then or_name ownerRef
      else jobNameOf rest
  end.

Definition getJobName (pod : Pod) : string := jobNameOf (pod_ownerReferences pod).

Definition doesResourceRefMatchJob (resourceRef : ResourceRef) (jobName namespace : string) : bool :=
  if bool_decide (rr_kind resourceRef = "Job") && bool_decide (rr_apiVersion resourceRef = "batch/v1") then
    let refNamespace :=
      if bool_decide (rr_namespace resourceRef = "") then namespace else rr_namespace resourceRef in
    bool_decide (rr_name resourceRef = jobName) && bool_decide (refNamespace = namespace)
  else if bool_decide (rr_kind resourceRef = "CronJob")
          && bool_decide (rr_apiVersion resourceRef = "batch/v1") then
    HasPrefix jobName (rr_name resourceRef ++ "-")
  else false.

(** The loop of [findMatchingCheckpointBackup] over the listed items. *)
Fixpoint firstMatching (items : list CheckpointBackup) (jobName namespace : string)
    : option CheckpointBackup :=
  match items with
  | [] => None
  | backup :: rest =>
      if doesResourceRefMatchJob (sp_resourceRef (cb_spec backup)) jobName namespace
      then Some backup
      else firstMatching rest jobName namespace
  end.

Definition findMatchingCheckpointBackup (c : Client) (namespace jobName : string)
    : Res (option CheckpointBackup) :=
  match client_list c namespace with
  | Err e => Err ("failed to list CheckpointBackup CRs: " ++ e)
  | Ok items => Ok (firstMatching items jobName namespace)
  end.

(** The map of [generateImagePatches]: [spec.containers] first, then
    [status.builtImages] for the names still unmapped. *)
Definition imageMapOf (backup : CheckpointBackup) : gmap string string :=
  let fromSpec :=
    foldl (fun imageMap container =>
             if bool_decide (c_image container ≠ "")
             then <[c_name container := c_image container]> imageMap
             else imageMap)
          ∅ (sp_containers (cb_spec backup)) in
  foldl (fun imageMap builtImage =>
           if isNil (imageMap !! bi_containerName builtImage)
              && bool_decide (bi_imageName builtImage ≠ "")
           then <[bi_containerName builtImage := bi_imageName builtImage]> imageMap
           else imageMap)
        fromSpec (st_builtImages (cb_status backup)).

(** [for i, container := range pod.Spec.Containers], from index [i] on. *)
Fixpoint patchesFrom (i : nat) (containers : list PodContainer) (imageMap : gmap string string)
    : list Patch :=
  match containers with
  | [] => []
  | container :: rest =>
      match imageMap !! pc_name container with
      | Some newImage =>
          mkPatch "replace" ("/spec/containers/" ++ pretty i ++ "/image") newImage
          :: patchesFrom (S i) rest imageMap
      | None => patchesFrom (S i) rest imageMap
      end
  end.

Definition generateImagePatches (pod : Pod) (backup : CheckpointBackup) : list Patch :=
  patchesFrom 0 (pod_containers pod) (imageMapOf backup).

(** [Handle], from the decoded pod ([None] when decoding fails). *)
Definition Handle (c : Client) (decoded : option Pod) : Response :=
  match decoded with
  | None => Errored 400 "failed to decode pod"
  | Some pod =>
      if negb (isPodFromJob pod) then Allowed "Pod not from Job"
      else
        let jobName := getJobName pod in
        if bool_decide (jobName = "") then Allowed "Job name not found"
        else
          match findMatchingCheckpointBackup c (pod_namespace pod) jobName with
          | Err e => Errored 500 e
          | Ok None => Allowed "No matching CheckpointBackup"
          | Ok (Some checkpointBackup) =>
              let patches := generateImagePatches pod checkpointBackup in
              if bool_decide (length patches = 0) then Allowed "No patches required"
              else PatchResponse patches
          end
  end.

End PodMutator.

(** ** The stand-alone admission interceptor: [Mutation/webhook-server/main.go] *)

Module WebhookServer.

(** A decoded JSON value, [interface{}] as [encoding/json] fills it. *)
#[local] Unset Elimination Schemes.
Inductive JSON :=
| JNull
| JBool (b : bool)
| JNumber (n : Z)
| JString (s : string)
| JArray (l : list JSON)
| JObject (m : gmap string JSON).
#[local] Set Elimination Schemes.

(** An item of the [unstructured] list. *)
Record Unstructured := mkUnstructured { u_name : string; u_object : gmap string JSON }.

(** The type assertions [v.(string)], [v.(map[string]interface{})] and
    [v.([]interface{})] on a map entry that may be absent. *)
Definition asString (v : option JSON) : string :=
  match v with Some (JString s) => s | _ => "" end.

Definition asObject (v : option JSON) : option (gmap string JSON) :=
  match v with Some (JObject m) => Some m | _ => None end.

Definition asArray (v : option JSON) : option (list JSON) :=
  match v with Some (JArray l) => Some l | _ => None end.

Record AdmissionRequest := mkAdmissionRequest {
  ar_kind : string;
  ar_version : string;
  ar_operation : string;
  ar_namespace : string;
  ar_object : option Pod            (* json.Unmarshal of Object.Raw; None when it fails *)
}.

(** The body of the HTTP request, as far as [handleMutate] tells cases apart. *)
Inductive Body :=
| BodyUnreadable
| BodyNoReview                       (* not an admission review, or Request is nil *)
| BodyReview (request : AdmissionRequest).

Record HttpRequest := mkHttpRequest { h_contentType : string; h_body : Body }.

(** The cluster the server talks to. *)
Record Cluster := mkCluster {
  cl_config : bool;                                   (* a kube config is found *)
  cl_dynamic : bool;                                  (* dynamic.NewForConfig succeeds *)
  cl_list : string -> Res (list Unstructured)         (* List of the restores of a namespace *)
}.

(** What is written back: [http.Error], or [writeResponse] with a patch or
    with nil. *)
Inductive HttpResponse :=
| HttpError (message : string) (code : nat)
| Review (patch : option (list Patch)).

(** The inner loop over [spec.containers]. *)
Fixpoint containerImages (raw : list JSON) (imageMap : gmap string string) (defaultImage : string)
    : gmap string string * string :=
  match raw with
  | [] => (imageMap, defaultImage)
  | c :: rest =>
      match c with
      | JObject m =>
          let cname := asString (m !! "name") in
          let cimg := asString (m !! "image") in
          if bool_decide (cimg = "") then containerImages rest imageMap defaultImage
          else
            let imageMap := if bool_decide (cname ≠ "") then <[cname := cimg]> imageMap else imageMap in
            let defaultImage := if bool_decide (defaultImage = "") then cimg else defaultImage in
            containerImages rest imageMap defaultImage
      | _ => containerImages rest imageMap defaultImage
      end
  end.

Definition nameMatch (targetName genPrefix specPodName specGenName : string) : bool :=
  (bool_decide (targetName ≠ "") && bool_decide (specPodName = targetName))
  || (bool_decide (genPrefix ≠ "") && bool_decide (specGenName ≠ "") && HasPrefix specGenName genPrefix)
  || (bool_decide (genPrefix ≠ "") && bool_decide (specPodName ≠ "") && HasPrefix specPodName genPrefix).

(** Does the loop over the items stop at this one? *)
Definition matches (targetName genPrefix : string) (it : Unstructured) : bool :=
  match asObject (u_object it !! "spec") with
  | None => false
  | Some spec =>
      nameMatch targetName genPrefix (asString (spec !! "podName")) (asString (spec !! "podGenerateName"))
  end.

(** The images of a matched item. *)
Definition imagesOf (spec : gmap string JSON) : gmap string string * string :=
  let '(imageMap, defaultImage) :=
    match asArray (spec !! "containers") with
    | Some raw => containerImages raw ∅ ""
    | None => (∅, "")
    end in
  let defaultImage :=
    if bool_decide (defaultImage = "") then
      match spec !! "image" with
      | Some (JString img) => if bool_decide (img ≠ "") then img else defaultImage
      | _ => defaultImage
      end
    else defaultImage in
  (imageMap, defaultImage).

(** [for _, it := range crList.Items { ...; break }]. *)
Fixpoint matchedImages (items : list Unstructured) (targetName genPrefix : string)
    : gmap string string * string :=
  match items with
  | [] => (∅, "")
  | it :: rest =>
      match asObject (u_object it !! "spec") with
      | None => matchedImages rest targetName genPrefix
      | Some spec =>
          if negb (nameMatch targetName genPrefix (asString (spec !! "podName"))
                     (asString (spec !! "podGenerateName")))
          then matchedImages rest targetName genPrefix
          else imagesOf spec
      end
  end.

(** The two patch loops, from index [i] on, over the field named [field]. *)
Fixpoint patchesFrom (field : string) (i : nat) (containers : list PodContainer)
    (imageMap : gmap string string) (defaultImage : string) : list Patch :=
  match containers with
  | [] => []
  | container :: rest =>
      let want := default "" (imageMap !! pc_name container) in
      let want := if bool_decide (want = "") then defaultImage else want in
      if bool_decide (want = "") || bool_decide (pc_image container = want)
      then patchesFrom field (S i) rest imageMap defaultImage
      else mkPatch "replace" ("/spec/" ++ field ++ "/" ++ pretty i ++ "/image") want
           :: patchesFrom field (S i) rest imageMap defaultImage
  end.

Definition buildPatches (pod : Pod) (imageMap : gmap string string) (defaultImage : string)
    : list Patch :=
  (patchesFrom "containers" 0 (pod_containers pod) imageMap defaultImage
   ++ patchesFrom "initContainers" 0 (pod_initContainers pod) imageMap defaultImage)%list.

Definition handleMutate (cl : Cluster) (r : HttpRequest) : HttpResponse :=
  if negb (HasPrefix (h_contentType r) "application/json") then HttpError "invalid content-type" 415
  else
    match h_body r with
    | BodyUnreadable => HttpError "could not read request" 400
    | BodyNoReview => HttpError "could not parse admission review" 400
    | BodyReview request =>
        if bool_decide (ar_kind request ≠ "Pod") || bool_decide (ar_version request ≠ "v1")
           || bool_decide (ar_operation request ≠ "CREATE")
        then Review None
        else
          match ar_object request with
          | None => HttpError "could not parse pod object" 400
          | Some pod =>
              let ns := ar_namespace request in
              if negb (cl_config cl) then HttpError "cannot get kubeconfig" 500
              else if negb (cl_dynamic cl) then HttpError "failed to create dynamic client" 500
              else
                match cl_list cl ns with
                | Err _ => Review None
                | Ok items =>
                    let targetName := pod_name pod in
                    let genPrefix := pod_generateName pod in
                    let '(imageMap, defaultImage) := matchedImages items targetName genPrefix in
                    if bool_decide (size imageMap = 0) && bool_decide (defaultImage = "")
                    then Review None
                    else
                      let patches := buildPatches pod imageMap defaultImage in
                      if bool_decide (length patches = 0) then Review None
                      else Review (Some patches)
                end
          end
    end.

End WebhookServer.

(** * Scenarios

    Concrete objects the examples and the witnesses below are evaluated on. *)

Module Scenario.

(** A CheckpointBackup for the Job [restore-xyz] that names, for the container
    [web], the very image the pod already runs. *)
Definition job_backup : CheckpointBackup :=
  mkBackup "t" "cb-web" [] None
    (mkSpec "immediately" None (mkPodRef "t" "app-0") (mkResourceRef "batch/v1" "Job" "t" "restore-xyz")
       None [mkContainer "web" "nginx:1.25"])
    emptyStatus.

Definition later_backup : CheckpointBackup :=
  mkBackup "t" "cb-later" [] None
    (mkSpec "immediately" None (mkPodRef "t" "app-1") (mkResourceRef "batch/v1" "Job" "t" "restore-xyz")
       None [mkContainer "web" "reg.example/ckpt/web:later"])
    emptyStatus.

Definition other_backup : CheckpointBackup :=
  mkBackup "t" "cb-other" [] None
    (mkSpec "immediately" None (mkPodRef "t" "db-0") (mkResourceRef "apps/v1" "StatefulSet" "t" "db")
       None [mkContainer "web" "reg.example/ckpt/db:1"])
    emptyStatus.

Definition job_pod : Pod :=
  mkPod "t" "restore-xyz-r2d2" "restore-xyz-" [mkOwner "batch/v1" "Job" "restore-xyz"] "" ""
    [mkPodContainer "web" "nginx:1.25"] [].

Definition backups_client (items : list CheckpointBackup) : PodMutator.Client :=
  PodMutator.mkClient (fun _ => Ok items).

(** A CheckpointRestore, as the dynamic client lists it. *)
Definition restore_item (name podName image : string) : WebhookServer.Unstructured :=
  WebhookServer.mkUnstructured name
    {[ "spec" := WebhookServer.JObject
         {[ "podName" := WebhookServer.JString podName;
            "containers" := WebhookServer.JArray
               [WebhookServer.JObject {[ "name" := WebhookServer.JString "web";
                                         "image" := WebhookServer.JString image ]}] ]} ]}.

Definition restores_cluster (items : list WebhookServer.Unstructured) : WebhookServer.Cluster :=
  WebhookServer.mkCluster true true (fun _ => Ok items).

Definition create_pod (pod : Pod) : WebhookServer.HttpRequest :=
  WebhookServer.mkHttpRequest "application/json"
    (WebhookServer.BodyReview
       (WebhookServer.mkAdmissionRequest "Pod" "v1" "CREATE" (pod_namespace pod) (Some pod))).

(** The restore orchestrator: a pod workload migrated from [c1] and [c2],
    whose binding has lost [c1]. *)
Definition workload : ResourceRef := mkResourceRef "v1" "Pod" "t" "p".

Definition migration : RO.StatefulMigration := RO.mkMigration "t" "mig" workload ["c1"; "c2"].

Definition pod_backup : CheckpointBackup :=
  mkBackup "t" "cb1" [] None
    (mkSpec "immediately" None (mkPodRef "t" "p") workload None
       [mkContainer "web" "reg.example/ckpt/web:abc"])
    emptyStatus.

Definition calm : RO.Env :=
  RO.mkEnv (fun _ => None) (fun _ => None) (fun _ => None) (fun _ => None) (fun _ => None).

Definition binding_without_c1 : RO.ResourceBinding := RO.mkBinding "p-pod" workload ["c2"].

Definition plane_c1_removed : RO.Plane :=
  RO.mkPlane true [binding_without_c1] [pod_backup] ∅ ∅ [] 0 [].

(** The checkpoint engine on the node [node-a]: a request for the container
    [web] of the pod [app-0], the pod on some node, and worlds that hold
    them. *)
Definition node_with (build push delete : option string) : CE.Env :=
  CE.mkEnv "node-a" "" (Some "token") (fun _ => mkTime 2025 1 4 14 30 0)
    (fun _ => None) (fun _ => CE.UpdOk) (fun _ => delete) (fun _ => None)
    (fun _ => CE.KPath "checkpoint-web.tar" [CE.fullPath "checkpoint-web.tar"])
    (fun _ => None) (fun _ => "[]") (fun _ => build) (fun _ => None) (fun _ => push)
    (fun _ => None).

Definition node : CE.Env := node_with None None None.

Definition request (schedule : string) (stopPod : option bool) (registry : option Registry)
    (finalizers : list string) (phase : string) : CheckpointBackup :=
  mkBackup "t" "cb1" finalizers None
    (mkSpec schedule stopPod (mkPodRef "t" "app-0") (mkResourceRef "v1" "Pod" "t" "app-0")
       registry [mkContainer "web" "reg.example/ckpt/web:abc"])
    (mkStatus phase None "" [] []).

Definition pod_on (nodeName : string) : Pod :=
  mkPod "t" "app-0" "" [] nodeName "Running" [mkPodContainer "web" "nginx:1.25"] [].

(** The request is stored and nothing is in memory yet. *)
Definition world_of (b : CheckpointBackup) (pod : Pod) : CE.World :=
  CE.mkWorld {[ ("t", "cb1") := b ]} {[ ("t", "app-0") := pod ]} ∅ ∅ [] None None ∅ 0 ∅ 0 [].

(** The request is stored and in memory at pointer [0], as in the middle of
    a reconcile. *)
Definition memory_of (b : CheckpointBackup) (pod : Pod) (rc : option CE.RegistryClient) : CE.World :=
  CE.mkWorld {[ ("t", "cb1") := b ]} {[ ("t", "app-0") := pod ]} ∅ ∅ [b] None rc ∅ 0 ∅ 0 [].

End Scenario.

(** * More situations of the checkpoint engine *)

Module Situations.

(** The node [node-a] with an API server that answers every update with
    [update], a scheduler that answers [cron] to every expression, and a
    node agent that answers [kubelet]; the scan of the checkpoint root
    selects [scan]. *)
Definition node_env (update : CE.UpdateOutcome) (cron : option string) (kubelet : CE.KubeletReply)
    (scan : option string) : CE.Env :=
  CE.mkEnv "node-a" "" (Some "token") (fun _ => mkTime 2025 1 4 14 30 0)
    (fun _ => None) (fun _ => update) (fun _ => None) (fun _ => cron)
    (fun _ => kubelet) (fun _ => scan) (fun _ => "[]") (fun _ => None) (fun _ => None)
    (fun _ => None) (fun _ => None).

(** The node [node-a] with an API server that accepts the updates of the
    calls before the call [n] and refuses them from the call [n] on; the
    push of an image and the deletion of a pod end as [push] and [delete]
    say. *)
Definition failing_with (n : nat) (push delete : option string) : CE.Env :=
  CE.mkEnv "node-a" "" (Some "token") (fun _ => mkTime 2025 1 4 14 30 0)
    (fun _ => None)
    (fun t => if bool_decide (t < n) then CE.UpdOk else CE.UpdError "refused")
    (fun _ => delete) (fun _ => None)
    (fun _ => CE.KPath "checkpoint-web.tar" [CE.fullPath "checkpoint-web.tar"])
    (fun _ => None) (fun _ => "[]") (fun _ => None) (fun _ => None) (fun _ => push)
    (fun _ => None).

Definition failing_from (n : nat) (push : option string) : CE.Env := failing_with n push None.

(** A node whose service account token cannot be read: no client of the
    node agent can be made. *)
Definition without_token : CE.Env :=
  CE.mkEnv "node-a" "" None (fun _ => mkTime 2025 1 4 14 30 0)
    (fun _ => None) (fun _ => CE.UpdOk) (fun _ => None) (fun _ => None)
    (fun _ => CE.KPath "checkpoint-web.tar" [CE.fullPath "checkpoint-web.tar"])
    (fun _ => None) (fun _ => "[]") (fun _ => None) (fun _ => None) (fun _ => None)
    (fun _ => None).

Definition misplacing : CE.Env :=
  node_env CE.UpdOk None
    (CE.KPath "checkpoint-web.tar" [CE.fullPath "checkpoint-web-2025.tar"])
    (Some "checkpoint-web-2025.tar").

(** Every status update meets a conflict. *)
Definition contended : CE.Env :=
  node_env (CE.UpdConflict "the object has been modified") None
    (CE.KPath "checkpoint-web.tar" [CE.fullPath "checkpoint-web.tar"]) None.

(** The scheduler refuses every expression. *)
Definition strict : CE.Env :=
  node_env CE.UpdOk (Some "expected exactly 5 fields")
    (CE.KPath "checkpoint-web.tar" [CE.fullPath "checkpoint-web.tar"]) None.

(** A request for the pod [app-0] with a registry and no container. *)
Definition bare_request : CheckpointBackup :=
  mkBackup "t" "cb1" [] None
    (mkSpec "immediately" None (mkPodRef "t" "app-0") (mkResourceRef "v1" "Pod" "t" "app-0")
       (Some (mkRegistry "reg.example" None)) [])
    (mkStatus "" None "" [] []).

(** A request whose container [web] went through the pipeline: its file is
    recorded, and gone from the node, and its image is recorded. *)
Definition captured_request : CheckpointBackup :=
  mkBackup "t" "cb1" [] None
    (mkSpec "*/5 * * * *" None (mkPodRef "t" "app-0") (mkResourceRef "v1" "Pod" "t" "app-0")
       None [mkContainer "web" ""])
    (mkStatus CE.PhaseFailed None ""
       [mkBuiltImage "web" "localhost/checkpoint-app-0-web:20250104-143000" None false]
       [mkCheckpointFile "web" "checkpoint-web.tar" None]).

(** The pod [app-0] before it runs, and with a container that is not
    [web]. *)
Definition pending_pod : Pod :=
  mkPod "t" "app-0" "" [] "node-a" "Pending" [mkPodContainer "web" "nginx:1.25"] [].

Definition sidecar_pod : Pod :=
  mkPod "t" "app-0" "" [] "node-a" "Running" [mkPodContainer "proxy" "envoy:1.30"] [].

(** The object of a scheduled request is gone: its job is in the table, the
    closure of its entry holds it in memory, and nothing is stored. *)
Definition orphaned : CE.World :=
  CE.mkWorld ∅ {[ ("t", "app-0") := Scenario.pod_on "node-a" ]} ∅ ∅
    [Scenario.request "*/5 * * * *" None None [CE.CheckpointBackupFinalizer] CE.PhaseCompleted]
    None None {[ 0 := CE.mkCronEntry "*/5 * * * *" 0 ]} 1 {[ "t/cb1" := 0 ]} 7 [].

(** An immediate request whose phase is unset although a checkpoint file of
    its container is recorded and on the disk of the node; the pod has no
    container of that name. *)
Definition resumed_request : CheckpointBackup :=
  mkBackup "t" "cb1" [CE.CheckpointBackupFinalizer] None
    (mkSpec "immediately" None (mkPodRef "t" "app-0") (mkResourceRef "v1" "Pod" "t" "app-0")
       None [mkContainer "sidecar" ""])
    (mkStatus "" None "" [] [mkCheckpointFile "sidecar" "checkpoint-sidecar.tar" None]).

Definition resuming : CE.World :=
  CE.mkWorld {[ ("t", "cb1") := resumed_request ]}
    {[ ("t", "app-0") := Scenario.pod_on "node-a" ]} ∅
    {[ CE.fullPath "checkpoint-sidecar.tar" ]} [] None None ∅ 0 ∅ 0 [].

(** The credentials of the registry, in the secret the engine looks for when
    a request names none; the secret names no registry. *)
Definition vault : CE.World :=
  CE.mkWorld ∅ ∅
    {[ ("stateful-migration", "registry-credentials")
       := {[ "username" := "robot"; "password" := "s3cret" ]} ]}
    ∅ [] None None ∅ 0 ∅ 0 [].

End Situations.

(** * Properties

    The vocabulary the statements below are written in. *)

(** [spec m w Q]: run from [w], [m] ends in a result and a state that [Q]
    accepts. *)
Definition spec {S A} (m : StateErr S A) (w : S) (Q : Res A -> S -> Prop) : Prop :=
  Q (m w).1 (m w).2.

(** What a pass of the restore orchestrator leaves alone when it creates
    nothing. *)
Definition nothing_created (k k' : RO.Plane) : Prop :=
  RO.k_restores k' = RO.k_restores k /\ RO.k_policies k' = RO.k_policies k
  /\ RO.k_created k' = RO.k_created k.

Module CEProps.

Import CE.

Definition key_of (b : CheckpointBackup) : string * string := (cb_namespace b, cb_name b).

(** A stored object after some steps of the pipeline: the same spec and
    metadata, a phase that stays set once it is set and, for the [strict]
    steps, the same recorded images. *)
Definition obj_frame (strict : bool) (c c' : CheckpointBackup) : Prop :=
  cb_spec c' = cb_spec c
  /\ cb_finalizers c' = cb_finalizers c
  /\ cb_deletionTimestamp c' = cb_deletionTimestamp c
  /\ (st_phase (cb_status c) <> "" -> st_phase (cb_status c') <> "")
  /\ (strict = true -> st_builtImages (cb_status c') = st_builtImages (cb_status c)).

(** The world after some steps: every stored object is still stored and
    framed, the objects in memory keep their key and spec, the [strict] steps
    delete no file, and the calls issued meanwhile are [allowed] ones. *)
Record frame (strict : bool) (allowed : Event -> Prop) (w w' : World) : Prop := mkFrame {
  fr_store : forall k c, w_backups w !! k = Some c ->
             exists c', w_backups w' !! k = Some c' /\ obj_frame strict c c';
  fr_heap : forall p, key_of (deref w' p) = key_of (deref w p)
                      /\ cb_spec (deref w' p) = cb_spec (deref w p);
  fr_files : strict = true -> w_files w ⊆ w_files w';
  fr_trace : exists evs, w_trace w' = (evs ++ w_trace w)%list /\ Forall allowed evs
}.

(** The classes of events. *)
Definition is_status (e : Event) : Prop :=
  match e with EvStatusUpdate _ _ _ => True | _ => False end.

(** The API server answers every read and accepts every write. *)
Definition api_reliable (env : Env) : Prop :=
  forall t, env_get env t = None /\ env_update env t = UpdOk.

(** The object of the request is stored with a phase that is set. *)
Definition phase_set (k : string * string) (w : World) : Prop :=
  exists c, w_backups w !! k = Some c /\ st_phase (cb_status c) <> "".

(** With a reliable server the first round of [updatePhase] succeeds: the
    phase and the message are stored and the object in memory follows. *)
Definition after_updatePhase (w : World) (backup : nat) (cur : CheckpointBackup)
    (phase message : string) : World :=
  let b := deref w backup in
  with_heap (fun h => <[backup := set_status b (set_phase (cb_status b) phase message)]> h)
    (with_backups (<[key_of b := set_status cur (set_phase (cb_status cur) phase message)]>)
       (with_trace (cons (EvStatusUpdate (cb_namespace b) (cb_name b)
                            (set_phase (cb_status cur) phase message)))
          (with_tick (fun t => S (S t)) w))).

(** The names an image of [container] may be built under. *)
Definition image_ok (env : Env) (b : CheckpointBackup) (container : Container) (img : string) : Prop :=
  if isNil (sp_registry (cb_spec b)) || bool_decide (c_image container = "")
  then exists t, img = generatedImageName b container (env_now env t)
  else img = c_image container.

(** The calls the capture of [container] may issue. *)
Definition allowedC (env : Env) (b : CheckpointBackup) (container : Container) (e : Event) : Prop :=
  match e with
  | EvStatusUpdate _ _ _ | EvKubelet _ _ _ | EvRemove _ => True
  | EvBuild _ img _ => image_ok env b container img
  | EvLogin _ => sp_registry (cb_spec b) <> None
  | EvPush img _ => sp_registry (cb_spec b) <> None /\ image_ok env b container img
  | EvUpdate _ _ _ | EvDeletePod _ _ => False
  end.

Definition pushFailed : string := "failed to push checkpoint image: ".

(** A chain of steps from [w0]: the frame so far and, once the phase has
    been written, the fact that it is set. *)
Definition acc (s : bool) (A : Event -> Prop) (G : Prop) (k : string * string)
    (w0 w : World) : Prop :=
  frame s A w0 w /\ (G -> phase_set k w).

(** What a failed push leaves behind. *)
Definition push_failure (env : Env) (b : CheckpointBackup) (container : Container) (backup : nat)
    (w : World) (r : Res unit) (w' : World) : Prop :=
  forall e, r = Err (pushFailed ++ e) ->
    frame true (allowedC env b container) w w'
    /\ sp_registry (cb_spec b) <> None
    /\ (api_reliable env -> forall c0, w_backups w !! key_of (deref w backup) = Some c0 ->
        exists c', w_backups w' !! key_of (deref w backup) = Some c'
                   /\ st_phase (cb_status c') = PhaseFailed
                   /\ st_message (cb_status c') = "Failed to push image: " ++ e).

(** The calls of the pipeline: anything but an [Update] of the object and
    the deletion of a pod. *)
Definition is_capture (e : Event) : Prop :=
  match e with EvUpdate _ _ _ | EvDeletePod _ _ => False | _ => True end.

Definition no_update (e : Event) : Prop :=
  match e with EvUpdate _ _ _ => False | _ => True end.

(** The pod of the request is stored and running. *)
Definition pod_running (w : World) (b : CheckpointBackup) : Prop :=
  exists pod, w_pods w !! (pr_namespace (sp_podRef (cb_spec b)), pr_name (sp_podRef (cb_spec b)))
              = Some pod
              /\ pod_phase pod = PodRunning.

(** *** Reconciliation *)

(** The calls of a trace other than the [Update] of the object. *)
Definition others (tr : list Event) : list Event :=
  List.filter (fun e => match e with EvUpdate _ _ _ => false | _ => true end) tr.

(** The pod of the request is not on the node of this engine: it is stored
    with another node name, or it is not stored. *)
Definition not_local (env : Env) (w : World) (b : CheckpointBackup) : Prop :=
  match w_pods w !! (pr_namespace (sp_podRef (cb_spec b)), pr_name (sp_podRef (cb_spec b))) with
  | Some pod => pod_nodeName pod <> env_nodeName env
  | None => True
  end.

(** The phases at which [performCheckpoint] returns at once, for good. *)
Definition guarded (phase : string) : Prop :=
  phase = PhaseCompleted \/ phase = PhaseCompletedPodDeleted \/ phase = PhaseCompletedWithError.

(** The phases at which [performCheckpoint] returns because a capture is
    under way. *)
Definition in_progress (phase : string) : Prop :=
  phase = PhaseCheckpointing \/ phase = PhaseCheckpointed
  \/ phase = PhaseImageBuilding \/ phase = PhaseImageBuilt
  \/ phase = PhaseImagePushing \/ phase = PhaseImagePushed.

(** A request for which a reconcile has nothing to capture: its phase is
    guarded, or it is an immediate request whose phase is set. *)
Definition quiescent (b : CheckpointBackup) : Prop :=
  guarded (st_phase (cb_status b))
  \/ (sp_schedule (cb_spec b) = "immediately" /\ st_phase (cb_status b) <> "").

(** What the API server, the node and the trace show after steps that
    capture nothing: the same pods and files, no call but [Update]s of the
    object, and every stored object already there with the status and the
    spec it had. *)
Record still (w w' : World) : Prop := mkStill {
  s_pods : w_pods w' = w_pods w;
  s_files : w_files w' = w_files w;
  s_others : others (w_trace w') = others (w_trace w);
  s_store : forall k c', w_backups w' !! k = Some c' ->
            exists c, w_backups w !! k = Some c
                      /\ cb_status c' = cb_status c /\ cb_spec c' = cb_spec c
}.

(** The same with the memory and the scheduler: the objects below [n] are
    untouched, and an entry of the scheduler was there before or has captured
    the object at [n]. *)
Record quiet (n : nat) (w w' : World) : Prop := mkQuiet {
  q_still : still w w';
  q_heap : forall q, q < n -> deref w' q = deref w q;
  q_len : length (w_heap w) <= length (w_heap w');
  q_cron : forall id e, w_cron w' !! id = Some e ->
           w_cron w !! id = Some e \/ (ce_backup e = n /\ n < length (w_heap w'))
}.

Definition same_sched (w w' : World) : Prop :=
  w_cron w' = w_cron w /\ w_cronNext w' = w_cronNext w
  /\ w_scheduledJobs w' = w_scheduledJobs w.

(** The object in memory at [p] is the request [(ns, name)] with the spec,
    the status and the deletion timestamp of [b], and so is the stored one. *)
Definition synced (w : World) (p : nat) (ns name : string) (b : CheckpointBackup) : Prop :=
  p < length (w_heap w)
  /\ key_of (deref w p) = (ns, name)
  /\ cb_spec (deref w p) = cb_spec b
  /\ cb_status (deref w p) = cb_status b
  /\ cb_deletionTimestamp (deref w p) = cb_deletionTimestamp b
  /\ exists c, w_backups w !! (ns, name) = Some c
               /\ cb_spec c = cb_spec b /\ cb_status c = cb_status b
               /\ cb_deletionTimestamp c = cb_deletionTimestamp b.

(** The object in memory at [p] is the request [(ns, name)] with the status
    of [b]. *)
Definition named (w : World) (p : nat) (ns name : string) (b : CheckpointBackup) : Prop :=
  p < length (w_heap w) /\ key_of (deref w p) = (ns, name)
  /\ cb_status (deref w p) = cb_status b.

(** The clients the reconciler needs are there or can be made. *)
Definition clients_ready (env : Env) (w : World) (b : CheckpointBackup) : Prop :=
  (is_Some (w_kubeletClient w) \/ is_Some (env_token env))
  /\ (sp_registry (cb_spec b) = None \/ is_Some (w_registryClient w)).

(** What happens to the request [(ns, name)]: it is reconciled, or the
    scheduler fires an entry whose closure has captured it. *)
Inductive step (env : Env) (ns name : string) : World -> World -> Prop :=
| step_reconcile w : step env ns name w (Reconcile env ns name w).2
| step_cron w entryID entry :
    w_cron w !! entryID = Some entry ->
    key_of (deref w (ce_backup entry)) = (ns, name) ->
    step env ns name w (runEntry env entryID w).2.

(** The request [(ns, name)] is stored, if at all, with a guarded phase, and
    the closures of the scheduler hold objects that are in memory, those of
    the request with a guarded phase. *)
Definition settled (ns name : string) (w : World) : Prop :=
  (forall c, w_backups w !! (ns, name) = Some c -> guarded (st_phase (cb_status c)))
  /\ (forall id e, w_cron w !! id = Some e -> ce_backup e < length (w_heap w))
  /\ (forall id e, w_cron w !! id = Some e ->
      key_of (deref w (ce_backup e)) = (ns, name) ->
      guarded (st_phase (cb_status (deref w (ce_backup e))))).

(** The pod of the request is stored, running, and on the node of this
    engine. *)
Definition pod_here (env : Env) (w : World) (b : CheckpointBackup) : Prop :=
  exists pod, w_pods w !! (pr_namespace (sp_podRef (cb_spec b)), pr_name (sp_podRef (cb_spec b)))
              = Some pod
              /\ pod_phase pod = PodRunning /\ pod_nodeName pod = env_nodeName env.

(** An immediate request that has been captured: it is stored with a phase
    that is set, carries the finalizer and is not being deleted. *)
Definition at_rest (ns name : string) (w : World) : Prop :=
  exists c, w_backups w !! (ns, name) = Some c
            /\ sp_schedule (cb_spec c) = "immediately"
            /\ st_phase (cb_status c) <> ""
            /\ ContainsFinalizer c CheckpointBackupFinalizer = true
            /\ cb_deletionTimestamp c = None.

(** The calls of a trace to the node agent and to the image builder. *)
Definition is_kubelet (e : Event) : bool :=
  match e with EvKubelet _ _ _ => true | _ => false end.

Definition is_build (e : Event) : bool :=
  match e with EvBuild _ _ _ => true | _ => false end.

(** Since [w], a checkpoint of the container [containerName] of the pod of
    [b] was asked of the node agent. *)
Definition asks_agent (b : CheckpointBackup) (containerName : string) (w w' : World) : Prop :=
  exists evs, w_trace w' = (evs ++ w_trace w)%list
              /\ EvKubelet (pr_namespace (sp_podRef (cb_spec b))) (pr_name (sp_podRef (cb_spec b)))
                   containerName ∈ evs.

(** The same of a reconcile, whose [Update]s of the object are left out. *)
Definition captures (b : CheckpointBackup) (containerName : string) (w w' : World) : Prop :=
  exists evs, others (w_trace w') = (evs ++ others (w_trace w))%list
              /\ EvKubelet (pr_namespace (sp_podRef (cb_spec b))) (pr_name (sp_podRef (cb_spec b)))
                   containerName ∈ evs.

End CEProps.

(** * Invariants of the checkpoint engine

    The vocabulary of the statements that hold of every run of the engine:
    whatever the environment answers, and for any sequence of reconciles and
    of firings of the scheduler. *)

Module CEInv.

Import CE.
Import CEProps.

(** [preserves I m]: from a world where [I] holds, [m] ends (with a result
    or with an error) in a world where [I] holds. *)
Definition preserves {A} (I : World -> Prop) (m : M A) : Prop :=
  forall w, I w -> spec m w (fun _ w' => I w').

(** What the engine is driven by: a reconcile of a request, or the scheduler
    firing an entry. *)
Inductive Action :=
| Reconciled (ns name : string)
| Fired (entryID : nat).

Definition perform (env : Env) (a : Action) (w : World) : World :=
  match a with
  | Reconciled ns name => (Reconcile env ns name w).2
  | Fired entryID => (runEntry env entryID w).2
  end.

Fixpoint run (env : Env) (actions : list Action) (w : World) : World :=
  match actions with
  | [] => w
  | a :: rest => run env rest (perform env a w)
  end.

(** ** What an invariant has to be closed under

    The elementary changes of the world are grouped by the code that makes
    them; a function preserves every invariant that is closed under the
    changes it makes.  [allowed] are the calls the invariant admits, [good]
    the statuses it admits for a stored object. *)

(** The tests of [recordCheckpointFile] and [recordBuiltImage] for an entry
    that is recorded already. *)
Definition file_recorded (files : list CheckpointFile) (containerName checkpointPath : string) : bool :=
  existsb (fun checkpointFile =>
             bool_decide (cf_containerName checkpointFile = containerName
                          ∧ cf_filePath checkpointFile = checkpointPath)) files.

Definition image_recorded (images : list BuiltImage) (containerName imageName : string) : bool :=
  existsb (fun builtImage =>
             bool_decide (bi_containerName builtImage = containerName
                          ∧ bi_imageName builtImage = imageName)) images.

(** The status helpers: a read, a status written over the stored one (the
    phase and the message, or one more file or image that was not recorded
    yet), the object in memory brought up to date. *)
Class Steady (I : World -> Prop) (allowed : Event -> Prop)
    (good : CheckpointBackup -> CheckpointBackupStatus -> Prop) : Prop := {
  steady_tick : forall f w, I w -> I (with_tick f w);
  steady_emit : forall e w, allowed e -> I w -> I (with_trace (cons e) w);
  steady_status : forall k cur st w,
    w_backups w !! k = Some cur -> good cur st -> I w ->
    I (with_backups (<[k := set_status cur st]>) w);
  steady_heap : forall p st w,
    I w -> I (with_heap (fun h => <[p := set_status (deref w p) st]> h) w);
  allowed_status : forall ns name st, allowed (EvStatusUpdate ns name st);
  good_phase : forall cur phase message, good cur (set_phase (cb_status cur) phase message);
  good_files : forall cur containerName checkpointPath t,
    file_recorded (st_checkpointFiles (cb_status cur)) containerName checkpointPath = false ->
    good cur (set_checkpointFiles (cb_status cur)
                (st_checkpointFiles (cb_status cur)
                 ++ [mkCheckpointFile containerName checkpointPath t]));
  good_images : forall cur containerName imageName t pushed,
    image_recorded (st_builtImages (cb_status cur)) containerName imageName = false ->
    good cur (set_builtImages (cb_status cur)
                (st_builtImages (cb_status cur)
                 ++ [mkBuiltImage containerName imageName t pushed]))
}.

(** The files the node agent writes. *)
Class SteadyFiles (I : World -> Prop) : Prop := {
  steady_files_add : forall X w, I w -> I (with_files (fun fs => fs ∪ X) w)
}.

(** The calls to the node agent, the builder and the registry. *)
Class SteadyCapture (I : World -> Prop) (allowed : Event -> Prop) : Prop := {
  allowed_kubelet : forall ns pod container, allowed (EvKubelet ns pod container);
  allowed_build : forall path image base, allowed (EvBuild path image base);
  allowed_login : forall registry, allowed (EvLogin registry);
  allowed_push : forall image destination, allowed (EvPush image destination)
}.

(** The removal of a checkpoint file. *)
Class SteadyRemove (I : World -> Prop) (allowed : Event -> Prop) : Prop := {
  steady_files_remove : forall X w, I w -> I (with_files (fun fs => fs ∖ X) w);
  allowed_remove : forall path, allowed (EvRemove path)
}.

(** The deletion of the pod, which the code reaches only for an object in
    memory that asks for it. *)
Class SteadyStop (I : World -> Prop) : Prop := {
  steady_stop_emit : forall p ns name w,
    I w -> shouldStopPod (deref w p) = true -> I (with_trace (cons (EvDeletePod ns name)) w);
  steady_stop_pods : forall p k w,
    I w -> shouldStopPod (deref w p) = true -> I (with_pods (delete k) w)
}.

(** The scheduler: the job of a key is removed; a job is added for a key
    that has none, with a closure on the object at [p]. *)
Class SteadySched (I : World -> Prop) (mine : nat -> Prop) : Prop := {
  steady_removeJob : forall key entryID w,
    I w -> w_scheduledJobs w !! key = Some entryID ->
    I (with_scheduledJobs (delete key) (with_cron (delete entryID) id w));
  steady_addJob : forall schedule p w,
    mine p -> I w ->
    w_scheduledJobs w !! namespacedName (cb_namespace (deref w p)) (cb_name (deref w p)) = None ->
    I (with_scheduledJobs
         (<[namespacedName (cb_namespace (deref w p)) (cb_name (deref w p)) := w_cronNext w]>)
         (with_cron (<[w_cronNext w := mkCronEntry schedule p]>) S w))
}.

(** The clients of the reconciler. *)
Class SteadyClients (I : World -> Prop) : Prop := {
  steady_kubeletClient : forall c w, I w -> I (with_kubeletClient c w);
  steady_registryClient : forall c w, I w -> I (with_registryClient c w)
}.

(** [Update] through the pointer [p] of the reconcile: the finalizers of the
    object in memory change, then the stored object takes its metadata and
    its spec (or goes away with its last finalizer) and the object in memory
    becomes the stored one. *)
Definition updated (obj cur : CheckpointBackup) : CheckpointBackup :=
  mkBackup (cb_namespace obj) (cb_name obj) (cb_finalizers obj)
    (cb_deletionTimestamp cur) (cb_spec obj) (cb_status cur).

Class SteadyUpdate (I : World -> Prop) (allowed : Event -> Prop) (mine : nat -> Prop) : Prop := {
  allowed_update : forall ns name fs, allowed (EvUpdate ns name fs);
  steady_finalizers : forall p fs w,
    mine p -> I w -> I (with_heap (fun h => <[p := set_finalizers (deref w p) fs]> h) w);
  steady_update_insert : forall p cur w,
    mine p -> I w -> w_backups w !! key_of (deref w p) = Some cur ->
    I (with_heap (fun h => <[p := updated (deref w p) cur]> h)
         (with_backups (<[key_of (deref w p) := updated (deref w p) cur]>) w));
  steady_update_delete : forall p cur w,
    mine p -> I w -> w_backups w !! key_of (deref w p) = Some cur ->
    I (with_heap (fun h => <[p := updated (deref w p) cur]> h)
         (with_backups (delete (key_of (deref w p))) w))
}.

(** ** The invariants *)

(** No object is created, and an object that is stored has the spec, the
    deletion timestamp and the [lastCheckpointTime] it had in [w0]. *)
Definition kept (w0 w : World) : Prop :=
  forall k c', w_backups w !! k = Some c' ->
    exists c, w_backups w0 !! k = Some c
              /\ cb_spec c' = cb_spec c
              /\ cb_deletionTimestamp c' = cb_deletionTimestamp c
              /\ st_lastCheckpointTime (cb_status c') = st_lastCheckpointTime (cb_status c).

(** The object in memory at [p] has the spec of the object stored under its
    key. *)
Definition mirrors (p : nat) (w : World) : Prop :=
  forall cur, w_backups w !! key_of (deref w p) = Some cur -> cb_spec (deref w p) = cb_spec cur.

(** During a reconcile that works on the object at [p]. *)
Definition kept_mirrored (w0 : World) (p : nat) (w : World) : Prop :=
  kept w0 w /\ mirrors p w.

(** A status with the [lastCheckpointTime] of the stored object. *)
Definition same_time (cur : CheckpointBackup) (st : CheckpointBackupStatus) : Prop :=
  st_lastCheckpointTime st = st_lastCheckpointTime (cb_status cur).

Definition any_event (e : Event) : Prop := True.
Definition any_status (cur : CheckpointBackup) (st : CheckpointBackupStatus) : Prop := True.
Definition no_pointer (p : nat) : Prop := False.

(** No request, stored or in memory, asks for its pod to be stopped. *)
Definition never_stops (w : World) : Prop :=
  (forall k c, w_backups w !! k = Some c -> shouldStopPod c = false)
  /\ (forall p, shouldStopPod (deref w p) = false).

Definition is_deletion (e : Event) : Prop :=
  match e with EvDeletePod _ _ => True | _ => False end.

(** The pods are those of [w0] and no deletion of a pod was asked for since. *)
Definition no_deletion (w0 w : World) : Prop :=
  w_pods w = w_pods w0
  /\ exists evs, w_trace w = (evs ++ w_trace w0)%list /\ Forall (fun e => ~ is_deletion e) evs.

Definition not_deletion (e : Event) : Prop := ~ is_deletion e.

(** Nobody asks for a pod to be stopped, and none was since [w0]. *)
Definition pods_safe (w0 w : World) : Prop := never_stops w /\ no_deletion w0 w.

(** The scheduler and the table of scheduled jobs agree: the job of a key is
    an entry of the scheduler whose closure holds, in memory, the request of
    that key; every entry is the job of a key, of one key only, and its
    identifier was handed out by the scheduler. *)
Definition sched_ok (w : World) : Prop :=
  (forall key entryID, w_scheduledJobs w !! key = Some entryID ->
     exists entry, w_cron w !! entryID = Some entry
                   /\ ce_backup entry < length (w_heap w)
                   /\ namespacedName (cb_namespace (deref w (ce_backup entry)))
                                     (cb_name (deref w (ce_backup entry))) = key)
  /\ (forall entryID entry, w_cron w !! entryID = Some entry ->
        exists key, w_scheduledJobs w !! key = Some entryID)
  /\ (forall key1 key2 entryID,
        w_scheduledJobs w !! key1 = Some entryID -> w_scheduledJobs w !! key2 = Some entryID ->
        key1 = key2)
  /\ (forall entryID entry, w_cron w !! entryID = Some entry -> entryID < w_cronNext w).

(** During a reconcile that works on the object at [p]. *)
Definition sched_live (p : nat) (w : World) : Prop := sched_ok w /\ p < length (w_heap w).

(** The clients that were there in [w0] are still the clients. *)
Definition clients_kept (w0 w : World) : Prop :=
  (forall c, w_kubeletClient w0 = Some c -> w_kubeletClient w = Some c)
  /\ (forall c, w_registryClient w0 = Some c -> w_registryClient w = Some c).

(** ** What the status records *)

(** Every stored object was stored in [w0], and its status lists the files
    and the images it listed then, in the same order, before any other. *)
Definition records_kept (w0 w : World) : Prop :=
  forall k c', w_backups w !! k = Some c' ->
    exists c, w_backups w0 !! k = Some c
              /\ st_checkpointFiles (cb_status c) `prefix_of` st_checkpointFiles (cb_status c')
              /\ st_builtImages (cb_status c) `prefix_of` st_builtImages (cb_status c').

(** The checkpoint path that the status of [w0] gives for a container is the
    path that the status of [w] gives for it. *)
Definition paths_kept (w0 w : World) : Prop :=
  forall k c c' containerName path,
    w_backups w0 !! k = Some c -> w_backups w !! k = Some c' ->
    getCheckpointFilePath c containerName = Some path ->
    getCheckpointFilePath c' containerName = Some path.

Definition grows (cur : CheckpointBackup) (st : CheckpointBackupStatus) : Prop :=
  st_checkpointFiles (cb_status cur) `prefix_of` st_checkpointFiles st
  /\ st_builtImages (cb_status cur) `prefix_of` st_builtImages st.

(** What identifies an entry of the status. *)
Definition file_key (checkpointFile : CheckpointFile) : string * string :=
  (cf_containerName checkpointFile, cf_filePath checkpointFile).

Definition image_key (builtImage : BuiltImage) : string * string :=
  (bi_containerName builtImage, bi_imageName builtImage).

Definition distinct (st : CheckpointBackupStatus) : Prop :=
  NoDup (map file_key (st_checkpointFiles st)) /\ NoDup (map image_key (st_builtImages st)).

(** No status of a stored object lists a file, or an image, twice. *)
Definition records_distinct (w : World) : Prop :=
  forall k c, w_backups w !! k = Some c -> distinct (cb_status c).

Definition stays_distinct (cur : CheckpointBackup) (st : CheckpointBackupStatus) : Prop :=
  distinct (cb_status cur) -> distinct st.

(** ** Requests the engine leaves alone *)

(** The phases at which [performCheckpoint] returns at once. *)
Definition halted (phase : string) : Prop := guarded phase \/ in_progress phase.

(** A request for which a reconcile has nothing to capture. *)
Definition dormant (b : CheckpointBackup) : Prop :=
  halted (st_phase (cb_status b))
  \/ (sp_schedule (cb_spec b) = "immediately" /\ st_phase (cb_status b) <> "").

(** The request [(ns, name)] is stored, if at all, with a halted phase, and
    the closures of the scheduler hold objects that are in memory, those of
    the request with a halted phase. *)
Definition stranded (ns name : string) (w : World) : Prop :=
  (forall c, w_backups w !! (ns, name) = Some c -> halted (st_phase (cb_status c)))
  /\ (forall id e, w_cron w !! id = Some e -> ce_backup e < length (w_heap w))
  /\ (forall id e, w_cron w !! id = Some e ->
      key_of (deref w (ce_backup e)) = (ns, name) ->
      halted (st_phase (cb_status (deref w (ce_backup e))))).

(** The container is done with: the status names a checkpoint file for it
    that is no longer on the node, and an image of it. *)
Definition captured (b : CheckpointBackup) (w : World) (container : Container) : Prop :=
  exists path, getCheckpointFilePath b (c_name container) = Some path
               /\ onDisk w (fullPath path) = false
               /\ exists builtImage, builtImage ∈ st_builtImages (cb_status b)
                                      /\ bi_containerName builtImage = c_name container.

(** ** The disk *)

Definition is_removal (e : Event) : Prop :=
  match e with EvRemove _ => True | _ => False end.

Definition not_removal (e : Event) : Prop := ~ is_removal e.

(** The files of the node are [files], and no removal was asked for since
    the trace was [trace]. *)
Definition disk_is (files : gset string) (trace : list Event) (w : World) : Prop :=
  w_files w = files
  /\ exists evs, w_trace w = (evs ++ trace)%list /\ Forall not_removal evs.

End CEInv.

(** * The images an interceptor or the orchestrator settles on *)

Module Images.

(** The image that [spec.containers] of a request gives for a container
    name: the image of the last container of that name that has one. *)
Fixpoint specImage (containers : list Container) (name : string) : option string :=
  match containers with
  | [] => None
  | container :: rest =>
      match specImage rest name with
      | Some image => Some image
      | None =>
          if bool_decide (c_name container = name ∧ c_image container ≠ "")
          then Some (c_image container) else None
      end
  end.

(** The image that [status.builtImages] gives for a container name: that of
    the first entry of that name that has one. *)
Fixpoint builtImage (builtImages : list BuiltImage) (name : string) : option string :=
  match builtImages with
  | [] => None
  | entry :: rest =>
      if bool_decide (bi_containerName entry = name ∧ bi_imageName entry ≠ "")
      then Some (bi_imageName entry) else builtImage rest name
  end.

(** The image a request gives for a container name: that of its spec, and
    that of its status when the spec gives none. *)
Definition requestImage (backup : CheckpointBackup) (name : string) : option string :=
  match specImage (sp_containers (cb_spec backup)) name with
  | Some image => Some image
  | None => builtImage (st_builtImages (cb_status backup)) name
  end.

(** The image of the last container of that name, empty or not. *)
Fixpoint lastImage (containers : list Container) (name : string) : option string :=
  match containers with
  | [] => None
  | container :: rest =>
      match lastImage rest name with
      | Some image => Some image
      | None => if bool_decide (c_name container = name) then Some (c_image container) else None
      end
  end.

(** The entries of [spec.containers] of a restore that count: the objects
    among them that have an image, as pairs of a name (empty when the entry
    has none) and an image. *)
Fixpoint listedImages (raw : list WebhookServer.JSON) : list (string * string) :=
  match raw with
  | [] => []
  | WebhookServer.JObject m :: rest =>
      if bool_decide (WebhookServer.asString (m !! "image") = "") then listedImages rest
      else (WebhookServer.asString (m !! "name"), WebhookServer.asString (m !! "image"))
           :: listedImages rest
  | _ :: rest => listedImages rest
  end.

(** The image of the last pair of that name. *)
Fixpoint lastNamed (listed : list (string * string)) (name : string) : option string :=
  match listed with
  | [] => None
  | entry :: rest =>
      match lastNamed rest name with
      | Some image => Some image
      | None => if bool_decide (entry.1 = name) then Some entry.2 else None
      end
  end.

(** The entries of a restore that count, and its single image. *)
Definition listedOf (spec : gmap string WebhookServer.JSON) : list (string * string) :=
  match WebhookServer.asArray (spec !! "containers") with
  | Some raw => listedImages raw
  | None => []
  end.

Definition singleImage (spec : gmap string WebhookServer.JSON) : string :=
  WebhookServer.asString (spec !! "image").

(** The image the stand-alone server wants for a container of the pod: the
    image mapped to its name, and the default image when there is none. *)
Definition wantedImage (imageMap : gmap string string) (defaultImage : string)
    (container : PodContainer) : string :=
  let want := default "" (imageMap !! pc_name container) in
  if bool_decide (want = "") then defaultImage else want.

(** What [Handle] answers, told by what it found. *)
Definition Handle_answers (c : PodMutator.Client) (decoded : option Pod)
    (response : PodMutator.Response) : Prop :=
  match response with
  | PodMutator.Errored code e =>
      (decoded = None /\ code = 400)
      \/ (exists pod e', decoded = Some pod
                         /\ PodMutator.isPodFromJob pod = true
                         /\ PodMutator.client_list c (pod_namespace pod) = Err e'
                         /\ code = 500 /\ e = "failed to list CheckpointBackup CRs: " ++ e')
  | PodMutator.PatchResponse patches =>
      exists pod items backup,
        decoded = Some pod
        /\ PodMutator.isPodFromJob pod = true
        /\ PodMutator.client_list c (pod_namespace pod) = Ok items
        /\ backup ∈ items
        /\ PodMutator.doesResourceRefMatchJob (sp_resourceRef (cb_spec backup))
             (PodMutator.getJobName pod) (pod_namespace pod) = true
        /\ patches = PodMutator.generateImagePatches pod backup
        /\ patches <> []
  | PodMutator.Allowed _ => True
  end.

End Images.

(** * Reasoning about monadic code *)

Section Spec.

Context {S : Type}.

Lemma spec_ret {A} (a : A) (w : S) Q : Q (Ok a) w -> spec (mret a) w Q.
Proof. done. Qed.

Lemma spec_fail {A} e (w : S) (Q : Res A -> S -> Prop) : Q (Err e) w -> spec (fail e) w Q.
Proof. done. Qed.

Lemma spec_bind {A B} (m : StateErr S A) (f : A -> StateErr S B) (w : S) Q :
  spec m w (fun r w' => match r with Ok a => spec (f a) w' Q | Err e => Q (Err e) w' end) ->
  spec (m ≫= f) w Q.
Proof.
  unfold spec, mbind, StateErr_bind. destruct (m w) as [[a|e] w']; simpl; auto.
Qed.

Lemma spec_try {A} (m : StateErr S A) (w : S) Q :
  spec m w (fun r w' => Q (Ok r) w') -> spec (try m) w Q.
Proof. unfold spec, try. destruct (m w); simpl; auto. Qed.

Lemma spec_gets {A} (f : S -> A) (w : S) Q : Q (Ok (f w)) w -> spec (gets f) w Q.
Proof. done. Qed.

Lemma spec_modify (f : S -> S) (w : S) Q : Q (Ok tt) (f w) -> spec (modify f) w Q.
Proof. done. Qed.

Lemma spec_mono {A} (m : StateErr S A) (w : S) (Q Q' : Res A -> S -> Prop) :
  spec m w Q -> (forall r w', Q r w' -> Q' r w') -> spec m w Q'.
Proof. unfold spec. auto. Qed.

Lemma spec_run {A} (m : StateErr S A) (w : S) Q r w' : spec m w Q -> m w = (r, w') -> Q r w'.
Proof. unfold spec. intros H E. by rewrite E in H. Qed.

End Spec.

Ltac wp_core :=
  lazymatch goal with
  | |- spec (mbind _ _) _ _ => apply spec_bind
  | |- spec (mret _) _ _ => apply spec_ret
  | |- spec (fail _) _ _ => apply spec_fail
  | |- spec (try _) _ _ => apply spec_try
  | |- spec (gets _) _ _ => apply spec_gets
  | |- spec (modify _) _ _ => apply spec_modify
  | |- spec (match ?x with _ => _ end) _ _ => destruct x eqn:?
  | |- spec (let _ := _ in _) _ _ => cbv zeta
  end.

(** * The image maps of the interceptors *)

Section RequestImages.

Import Images.
Import PodMutator.

Lemma fromSpec_lookup containers name (imageMap : gmap string string) :
  foldl (fun imageMap container =>
           if bool_decide (c_image container ≠ "")
           then <[c_name container := c_image container]> imageMap
           else imageMap) imageMap containers !! name
  = match specImage containers name with
    | Some image => Some image
    | None => imageMap !! name
    end.
Proof.
  revert imageMap. induction containers as [|container rest IH]; intros imageMap; [done|].
  simpl. rewrite IH. destruct (specImage rest name) as [image|]; [done|].
  case_bool_decide as Himage.
  - destruct (decide (c_name container = name)) as [<-|Hname].
    + rewrite lookup_insert_eq. by rewrite bool_decide_eq_true_2.
    + rewrite lookup_insert_ne by done. rewrite bool_decide_eq_false_2; [done|]. by intros [? _].
  - rewrite bool_decide_eq_false_2; [done|]. by intros [_ ?].
Qed.

Lemma fromStatus_lookup builtImages name (imageMap : gmap string string) :
  foldl (fun imageMap entry =>
           if isNil (imageMap !! bi_containerName entry)
              && bool_decide (bi_imageName entry ≠ "")
           then <[bi_containerName entry := bi_imageName entry]> imageMap
           else imageMap) imageMap builtImages !! name
  = match imageMap !! name with
    | Some image => Some image
    | None => builtImage builtImages name
    end.
Proof.
  revert imageMap. induction builtImages as [|entry rest IH]; intros imageMap.
  { simpl. by destruct (imageMap !! name). }
  simpl. rewrite IH.
  destruct (decide (bi_containerName entry = name)) as [<-|Hname].
  - destruct (imageMap !! bi_containerName entry) as [image|] eqn:Hmapped; simpl.
    + by rewrite Hmapped.
    + case_bool_decide as Himage.
      * rewrite lookup_insert_eq. by rewrite bool_decide_eq_true_2.
      * rewrite Hmapped. rewrite bool_decide_eq_false_2; [done|]. by intros [_ ?].
  - rewrite (bool_decide_eq_false_2 (_ ∧ _)) by by intros [? _].
    destruct (isNil _ && _); [|done]. by rewrite lookup_insert_ne.
Qed.

Lemma patchesFrom_elem i containers imageMap p :
  p ∈ patchesFrom i containers imageMap
  <-> exists j container newImage,
        containers !! j = Some container
        /\ imageMap !! pc_name container = Some newImage
        /\ p = mkPatch "replace" ("/spec/containers/" ++ pretty (i + j) ++ "/image") newImage.
Proof.
  revert i. induction containers as [|container rest IH]; intros i; simpl.
  { split; [by intros ?%elem_of_nil|]. by intros (j & ? & ? & ? & _). }
  assert (p ∈ patchesFrom (S i) rest imageMap
          <-> exists j container0 newImage,
                (container :: rest) !! S j = Some container0
                /\ imageMap !! pc_name container0 = Some newImage
                /\ p = mkPatch "replace" ("/spec/containers/" ++ pretty (i + S j) ++ "/image")
                         newImage) as Hrest.
  { rewrite IH. split; intros (j & c & img & ? & ? & ->); exists j, c, img; split_and!; try done.
    - by replace (i + S j) with (S i + j) by lia.
    - by replace (S i + j) with (i + S j) by lia. }
  destruct (imageMap !! pc_name container) as [newImage|] eqn:Hmapped.
  - rewrite elem_of_cons, Hrest. split.
    + intros [->|(j & c & img & ? & ? & ->)].
      * exists 0, container, newImage. by replace (i + 0) with i by lia.
      * by exists (S j), c, img.
    + intros ([|j] & c & img & Hc & Himg & ->).
      * left. simpl in Hc. simplify_eq. by replace (i + 0) with i by lia.
      * right. by exists j, c, img.
  - rewrite Hrest. split.
    + intros (j & c & img & ? & ? & ->). by exists (S j), c, img.
    + intros ([|j] & c & img & Hc & Himg & ->).
      * simpl in Hc. simplify_eq.
      * by exists j, c, img.
Qed.

End RequestImages.

Section RestoreImages.

Import Images.
Import WebhookServer.

Lemma containerImages_map raw (imageMap : gmap string string) defaultImage name :
  (containerImages raw imageMap defaultImage).1 !! name
  = match (if bool_decide (name = "") then None else lastNamed (listedImages raw) name) with
    | Some image => Some image
    | None => imageMap !! name
    end.
Proof.
  revert imageMap defaultImage. induction raw as [|entry rest IH]; intros imageMap defaultImage.
  { simpl. by destruct (bool_decide (name = "")). }
  destruct entry as [| | | |l|m]; cbn [containerImages listedImages]; try apply IH.
  destruct (bool_decide (asString (m !! "image") = "")) eqn:Himage; [apply IH|].
  rewrite IH. cbn [lastNamed fst snd].
  destruct (decide (name = "")) as [->|Hname].
  - rewrite !(bool_decide_eq_true_2 ("" = "")) by done.
    destruct (decide (asString (m !! "name") = "")) as [Hcname|Hcname].
    + by rewrite (bool_decide_eq_false_2 (asString (m !! "name") ≠ "")) by by intros ?.
    + rewrite (bool_decide_eq_true_2 (asString (m !! "name") ≠ "")) by done.
      by rewrite lookup_insert_ne.
  - rewrite !(bool_decide_eq_false_2 (name = "")) by done.
    destruct (lastNamed (listedImages rest) name) as [image|]; [done|].
    destruct (decide (asString (m !! "name") = name)) as [Hsame|Hsame].
    + rewrite (bool_decide_eq_true_2 (asString (m !! "name") = name)) by done.
      rewrite (bool_decide_eq_true_2 (asString (m !! "name") ≠ "")) by congruence.
      by rewrite Hsame, lookup_insert_eq.
    + rewrite (bool_decide_eq_false_2 (asString (m !! "name") = name)) by done.
      destruct (bool_decide (asString (m !! "name") ≠ "")); [|done].
      by rewrite lookup_insert_ne.
Qed.

Lemma containerImages_default raw (imageMap : gmap string string) defaultImage :
  (containerImages raw imageMap defaultImage).2
  = if bool_decide (defaultImage = "")
    then match listedImages raw with entry :: _ => entry.2 | [] => "" end
    else defaultImage.
Proof.
  revert imageMap defaultImage. induction raw as [|entry rest IH]; intros imageMap defaultImage.
  { simpl. by destruct (bool_decide (defaultImage = "")) eqn:H; [apply bool_decide_eq_true in H|]. }
  destruct entry as [| | | |l|m]; cbn [containerImages listedImages]; try apply IH.
  destruct (bool_decide (asString (m !! "image") = "")) eqn:Himage; [apply IH|].
  apply bool_decide_eq_false in Himage.
  rewrite IH. cbn [fst snd].
  destruct (bool_decide (defaultImage = "")) eqn:Hdefault.
  - by rewrite bool_decide_eq_false_2.
  - by rewrite Hdefault.
Qed.

Lemma imagesOf_listed spec imageMap defaultImage :
  imagesOf spec = (imageMap, defaultImage) ->
  (forall name, imageMap !! name
                = if bool_decide (name = "") then None else lastNamed (listedOf spec) name)
  /\ defaultImage = match listedOf spec with
                    | entry :: _ => entry.2
                    | [] => singleImage spec
                    end.
Proof.
  unfold imagesOf, listedOf, singleImage.
  destruct (asArray (spec !! "containers")) as [raw|].
  - pose proof (containerImages_map raw ∅ "") as Hmap.
    pose proof (containerImages_default raw ∅ "") as Hdefault.
    destruct (containerImages raw ∅ "") as [found first]. simpl in Hmap, Hdefault.
    intros [= <- <-]. split.
    + intros name. rewrite Hmap, lookup_empty.
      by destruct (if bool_decide (name = "") then _ else _).
    + subst first. destruct (listedImages raw) as [|entry listed] eqn:Hlisted.
      * destruct (spec !! "image") as [[| | |img| |]|]; simpl; try done.
        destruct (decide (img = "")) as [->|Himg]; [done|]. by rewrite bool_decide_eq_true_2.
      * assert (entry.2 <> "") as Hne; [|by rewrite bool_decide_eq_false_2].
        clear -Hlisted. induction raw as [|head rest IH]; [done|].
        destruct head as [| | | |l|m]; simpl in Hlisted; try by apply IH.
        destruct (bool_decide (asString (m !! "image") = "")) eqn:Himage; [by apply IH|].
        apply bool_decide_eq_false in Himage. by simplify_eq.
  - intros [= <- <-]. split.
    + intros name. rewrite lookup_empty. by destruct (bool_decide (name = "")).
    + simpl. destruct (spec !! "image") as [[| | |img| |]|]; simpl; try done.
      destruct (decide (img = "")) as [->|Himg]; [done|]. by rewrite bool_decide_eq_true_2.
Qed.

End RestoreImages.

(** * The admission interceptors *)

Section Admission.

Import PodMutator.

Lemma firstMatching_app l1 m l2 jobName namespace :
  Forall (fun b => doesResourceRefMatchJob (sp_resourceRef (cb_spec b)) jobName namespace = false) l1 ->
  doesResourceRefMatchJob (sp_resourceRef (cb_spec m)) jobName namespace = true ->
  firstMatching (l1 ++ m :: l2) jobName namespace = Some m.
Proof.
  intros Hl1 Hm. induction Hl1 as [|b l1 Hb _ IH]; simpl.
  - by rewrite Hm.
  - by rewrite Hb.
Qed.

Lemma matchedImages_app k1 km k2 targetName genPrefix :
  Forall (fun it => WebhookServer.matches targetName genPrefix it = false) k1 ->
  WebhookServer.matches targetName genPrefix km = true ->
  WebhookServer.matchedImages (k1 ++ km :: k2) targetName genPrefix
  = WebhookServer.matchedImages [km] targetName genPrefix.
Proof.
  intros Hk1 Hm. induction Hk1 as [|it k1 Hit _ IH]; simpl.
  - unfold WebhookServer.matches in Hm.
    destruct (WebhookServer.asObject _) as [spec|]; [|done]. by rewrite Hm.
  - unfold WebhookServer.matches in Hit.
    destruct (WebhookServer.asObject (WebhookServer.u_object it !! "spec")) as [spec|]; [|done].
    by rewrite Hit.
Qed.

Lemma matchedImages_first k1 km k2 targetName genPrefix spec :
  Forall (fun it => WebhookServer.matches targetName genPrefix it = false) k1 ->
  WebhookServer.matches targetName genPrefix km = true ->
  WebhookServer.asObject (WebhookServer.u_object km !! "spec") = Some spec ->
  WebhookServer.matchedImages (k1 ++ km :: k2) targetName genPrefix = WebhookServer.imagesOf spec.
Proof.
  intros Hk1 Hm Hspec. rewrite (matchedImages_app k1 km k2 _ _ Hk1 Hm).
  unfold WebhookServer.matches in Hm. simpl. by rewrite Hspec in *; rewrite Hm.
Qed.

(** C10. Both interceptors build their image map from the first request of
    the list that matches the pod, and from it alone.  With non-matching
    requests before it and any requests after it, [PodMutator] finds that
    request, answers as if it were the only one listed, and the patches it
    answers with are those of the images that request gives: for a container
    of the pod, the image of the request's spec and, when the spec gives
    none, of its status.  [handleMutate] takes its image map and its default
    image from the spec of that one restore, answers as if it were the only
    one listed, and builds its patches from that map and that default.  What
    comes later in the list, matching or not, has no effect. *)
Theorem first_match_only (pod : Pod) (l1 l2 : list CheckpointBackup) (m : CheckpointBackup)
    (k1 k2 : list WebhookServer.Unstructured) (km : WebhookServer.Unstructured) :
  Forall (fun b => doesResourceRefMatchJob (sp_resourceRef (cb_spec b))
                     (getJobName pod) (pod_namespace pod) = false) l1 ->
  doesResourceRefMatchJob (sp_resourceRef (cb_spec m)) (getJobName pod) (pod_namespace pod) = true ->
  Forall (fun it => WebhookServer.matches (pod_name pod) (pod_generateName pod) it = false) k1 ->
  WebhookServer.matches (pod_name pod) (pod_generateName pod) km = true ->
  (forall c, client_list c (pod_namespace pod) = Ok (l1 ++ m :: l2)%list ->
     findMatchingCheckpointBackup c (pod_namespace pod) (getJobName pod) = Ok (Some m)
     /\ Handle c (Some pod) = Handle (mkClient (fun _ => Ok [m])) (Some pod)
     /\ (forall patches, Handle c (Some pod) = PatchResponse patches ->
         patches = generateImagePatches pod m)
     /\ (isPodFromJob pod = true -> getJobName pod <> "" ->
         generateImagePatches pod m <> [] ->
         Handle c (Some pod) = PatchResponse (generateImagePatches pod m))
     /\ (forall p, p ∈ generateImagePatches pod m
                   <-> exists i container image,
                         pod_containers pod !! i = Some container
                         /\ Images.requestImage m (pc_name container) = Some image
                         /\ p = mkPatch "replace" ("/spec/containers/" ++ pretty i ++ "/image")
                                  image))
  /\ (forall cl r request,
       WebhookServer.h_body r = WebhookServer.BodyReview request ->
       WebhookServer.ar_object request = Some pod ->
       WebhookServer.cl_list cl (WebhookServer.ar_namespace request) = Ok (k1 ++ km :: k2)%list ->
       WebhookServer.matchedImages (k1 ++ km :: k2) (pod_name pod) (pod_generateName pod)
       = WebhookServer.matchedImages [km] (pod_name pod) (pod_generateName pod)
       /\ WebhookServer.handleMutate cl r
          = WebhookServer.handleMutate
              (WebhookServer.mkCluster (WebhookServer.cl_config cl) (WebhookServer.cl_dynamic cl)
                 (fun _ => Ok [km])) r
       /\ exists spec imageMap defaultImage,
            WebhookServer.asObject (WebhookServer.u_object km !! "spec") = Some spec
            /\ WebhookServer.matchedImages (k1 ++ km :: k2) (pod_name pod) (pod_generateName pod)
               = (imageMap, defaultImage)
            /\ (forall name,
                  imageMap !! name
                  = if bool_decide (name = "") then None
                    else Images.lastNamed (Images.listedOf spec) name)
            /\ defaultImage = match Images.listedOf spec with
                              | entry :: _ => entry.2
                              | [] => Images.singleImage spec
                              end
            /\ (forall patches,
                  WebhookServer.handleMutate cl r = WebhookServer.Review (Some patches) ->
                  patches = WebhookServer.buildPatches pod imageMap defaultImage)).
Proof.
  intros Hl1 Hm Hk1 Hkm. split.
  - intros c Hc.
    assert (findMatchingCheckpointBackup c (pod_namespace pod) (getJobName pod) = Ok (Some m)) as Hf.
    { unfold findMatchingCheckpointBackup. rewrite Hc. f_equal. by apply firstMatching_app. }
    split; [done|]. split; [|split; [|split]].
    + unfold Handle. rewrite Hf. unfold findMatchingCheckpointBackup. simpl. by rewrite Hm.
    + intros patches. unfold Handle. rewrite Hf.
      repeat case_match; try done. by intros [= <-].
    + intros Hjob Hname Hpatches. unfold Handle. rewrite Hf, Hjob. simpl.
      rewrite bool_decide_eq_false_2 by done.
      rewrite bool_decide_eq_false_2; [done|].
      intros Hnil. apply Hpatches. by apply length_zero_iff_nil.
    + intros p. unfold generateImagePatches. rewrite patchesFrom_elem.
      assert (forall name, imageMapOf m !! name = Images.requestImage m name) as Hmap.
      { intros name. unfold imageMapOf, Images.requestImage.
        rewrite fromStatus_lookup, fromSpec_lookup, lookup_empty.
        by destruct (Images.specImage _ _). }
      split; intros (i & container & image & Hc' & Himage & ->); exists i, container, image.
      * by rewrite <- Hmap.
      * by rewrite Hmap.
  - intros cl r request Hr Hpod Hlist.
    pose proof (matchedImages_app k1 km k2 _ _ Hk1 Hkm) as Heq. split; [done|].
    assert (WebhookServer.handleMutate cl r
            = WebhookServer.handleMutate
                (WebhookServer.mkCluster (WebhookServer.cl_config cl) (WebhookServer.cl_dynamic cl)
                   (fun _ => Ok [km])) r) as Hsame.
    { unfold WebhookServer.handleMutate. rewrite Hr, Hpod, Hlist.
      cbn [WebhookServer.cl_config WebhookServer.cl_dynamic WebhookServer.cl_list].
      by rewrite Heq. }
    split; [done|].
    assert (exists spec, WebhookServer.asObject (WebhookServer.u_object km !! "spec") = Some spec)
      as [spec Hspec].
    { unfold WebhookServer.matches in Hkm.
      destruct (WebhookServer.asObject _) as [spec|]; [by exists spec|done]. }
    pose proof (matchedImages_first k1 km k2 _ _ spec Hk1 Hkm Hspec) as Hfirst.
    destruct (WebhookServer.imagesOf spec) as [imageMap defaultImage] eqn:Himages.
    assert (forall patches,
              WebhookServer.handleMutate cl r = WebhookServer.Review (Some patches) ->
              patches = WebhookServer.buildPatches pod imageMap defaultImage) as Hpatches.
    { intros patches. unfold WebhookServer.handleMutate. rewrite Hr, Hpod, Hlist, Hfirst.
      repeat case_match; try done. by intros [= <-]. }
    destruct (imagesOf_listed spec imageMap defaultImage Himages) as [Hmap Hdefault].
    by exists spec, imageMap, defaultImage.
Qed.

Lemma first_match_only_witness :
  let pod := Scenario.job_pod in
  let m := Scenario.job_backup in
  let k0 := Scenario.restore_item "r0" "elsewhere" "reg.example/x:0" in
  let km := Scenario.restore_item "r1" "restore-xyz-r2d2" "reg.example/ckpt/web:abc" in
  let k2 := Scenario.restore_item "r2" "restore-xyz-r2d2" "reg.example/ckpt/web:later" in
  Forall (fun b => doesResourceRefMatchJob (sp_resourceRef (cb_spec b))
                     (getJobName pod) (pod_namespace pod) = false) [Scenario.other_backup]
  /\ doesResourceRefMatchJob (sp_resourceRef (cb_spec m)) (getJobName pod) (pod_namespace pod) = true
  /\ doesResourceRefMatchJob (sp_resourceRef (cb_spec Scenario.later_backup))
       (getJobName pod) (pod_namespace pod) = true
  /\ Forall (fun it => WebhookServer.matches (pod_name pod) (pod_generateName pod) it = false) [k0]
  /\ WebhookServer.matches (pod_name pod) (pod_generateName pod) km = true
  /\ WebhookServer.matches (pod_name pod) (pod_generateName pod) k2 = true
  /\ Handle (Scenario.backups_client [Scenario.other_backup; m; Scenario.later_backup]) (Some pod)
     = Handle (Scenario.backups_client [m]) (Some pod)
  /\ Handle (Scenario.backups_client [Scenario.other_backup; m; Scenario.later_backup]) (Some pod)
     = PatchResponse [mkPatch "replace" "/spec/containers/0/image" "nginx:1.25"]
  /\ WebhookServer.handleMutate (Scenario.restores_cluster [k0; km; k2]) (Scenario.create_pod pod)
     = WebhookServer.handleMutate (Scenario.restores_cluster [km]) (Scenario.create_pod pod)
  /\ WebhookServer.handleMutate (Scenario.restores_cluster [k0; km; k2]) (Scenario.create_pod pod)
     = WebhookServer.Review
         (Some [mkPatch "replace" "/spec/containers/0/image" "reg.example/ckpt/web:abc"]).
Proof.
  cbv zeta.
  set (pod := Scenario.job_pod). set (m := Scenario.job_backup).
  set (k0 := Scenario.restore_item "r0" _ _). set (km := Scenario.restore_item "r1" _ _).
  set (k2 := Scenario.restore_item "r2" _ _).
  assert (Forall (fun b => doesResourceRefMatchJob (sp_resourceRef (cb_spec b))
                             (getJobName pod) (pod_namespace pod) = false)
            [Scenario.other_backup]) as H1 by repeat constructor.
  assert (doesResourceRefMatchJob (sp_resourceRef (cb_spec m)) (getJobName pod)
            (pod_namespace pod) = true) as H2 by (vm_compute; reflexivity).
  assert (Forall (fun it => WebhookServer.matches (pod_name pod) (pod_generateName pod) it = false)
            [k0]) as H3 by repeat constructor.
  assert (WebhookServer.matches (pod_name pod) (pod_generateName pod) km = true) as H4
    by (vm_compute; reflexivity).
  assert (generateImagePatches pod m
          = [mkPatch "replace" "/spec/containers/0/image" "nginx:1.25"]) as H5
    by (vm_compute; reflexivity).
  destruct (first_match_only pod [Scenario.other_backup] [Scenario.later_backup] m [k0] [k2] km
              H1 H2 H3 H4) as [A B].
  destruct (A (Scenario.backups_client [Scenario.other_backup; m; Scenario.later_backup])
              eq_refl) as (_ & A2 & _ & A4 & _).
  destruct (B (Scenario.restores_cluster [k0; km; k2]) (Scenario.create_pod pod) _
              eq_refl eq_refl eq_refl) as (_ & B2 & _).
  split; [exact H1|]. split; [exact H2|]. split; [vm_compute; reflexivity|].
  split; [exact H3|]. split; [exact H4|]. split; [vm_compute; reflexivity|].
  split; [exact A2|]. split.
  - rewrite <- H5. apply A4; [reflexivity|discriminate|]. rewrite H5. discriminate.
  - split; [exact B2|]. vm_compute. reflexivity.
Defined.

(** The pod of the Job gets the image of the first matching
    restore. *)
Example handleMutate_rewrites_image :
  WebhookServer.handleMutate
    (Scenario.restores_cluster
       [Scenario.restore_item "r1" "restore-xyz-r2d2" "reg.example/ckpt/web:abc"])
    (Scenario.create_pod Scenario.job_pod)
  = WebhookServer.Review
      (Some [mkPatch "replace" "/spec/containers/0/image" "reg.example/ckpt/web:abc"]).
Proof. vm_compute. reflexivity. Qed.

(** C7. [PodMutator] answers the pod of the Job [restore-xyz], whose container
    [web] runs [nginx:1.25], with a replace of that image by [nginx:1.25]
    itself: the request maps [web] to the image the container has, and
    [generateImagePatches] does not compare the two. *)
Theorem PodMutator_patches_equal_image :
  generateImagePatches Scenario.job_pod Scenario.job_backup
  = [mkPatch "replace" "/spec/containers/0/image" "nginx:1.25"]
  /\ Handle (Scenario.backups_client [Scenario.job_backup]) (Some Scenario.job_pod)
     = PatchResponse [mkPatch "replace" "/spec/containers/0/image" "nginx:1.25"]
  /\ pc_image <$> pod_containers Scenario.job_pod !! 0 = Some "nginx:1.25".
Proof. split_and!; vm_compute; reflexivity. Qed.

Lemma WebhookServer_patches_differ field i containers imageMap defaultImage p :
  p ∈ WebhookServer.patchesFrom field i containers imageMap defaultImage ->
  exists j c, containers !! j = Some c
         /\ p_op p = "replace"
         /\ p_path p = "/spec/" ++ field ++ "/" ++ pretty (i + j) ++ "/image"
         /\ p_value p <> pc_image c.
Proof.
  revert i. induction containers as [|c rest IH]; intros i; simpl.
  - by intros ?%elem_of_nil.
  - assert (p ∈ WebhookServer.patchesFrom field (S i) rest imageMap defaultImage ->
            exists j c0, (c :: rest) !! j = Some c0 /\ p_op p = "replace"
                    /\ p_path p = "/spec/" ++ field ++ "/" ++ pretty (i + j) ++ "/image"
                    /\ p_value p <> pc_image c0) as Hrest.
    { intros Hq. destruct (IH _ Hq) as (j & c0 & ? & ? & Hpath & ?).
      exists (S j), c0. split_and!; try done.
      rewrite Hpath. by replace (i + S j) with (S i + j) by lia. }
    destruct (_ || _) eqn:Hskip; [done|].
    intros [->|Hp]%elem_of_cons; [|by apply Hrest].
    exists 0, c. simpl. replace (i + 0) with i by lia. split_and!; try done.
    apply orb_false_iff in Hskip as [_ Hne]. by apply bool_decide_eq_false in Hne.
Qed.

(** The stand-alone server does what [PodMutator] misses: every patch it
    answers with replaces the image of a container, or of an init container,
    of the pod by a different image. *)
Lemma WebhookServer_never_patches_equal_image cl r request pod patches p :
  WebhookServer.h_body r = WebhookServer.BodyReview request ->
  WebhookServer.ar_object request = Some pod ->
  WebhookServer.handleMutate cl r = WebhookServer.Review (Some patches) ->
  p ∈ patches ->
  exists field containers j c,
    (field = "containers" /\ containers = pod_containers pod
     \/ field = "initContainers" /\ containers = pod_initContainers pod)
    /\ containers !! j = Some c
    /\ p = mkPatch "replace" ("/spec/" ++ field ++ "/" ++ pretty j ++ "/image") (p_value p)
    /\ p_value p <> pc_image c.
Proof.
  intros Hr Hpod. unfold WebhookServer.handleMutate. rewrite Hr, Hpod.
  repeat case_match; try done. intros [= <-]. unfold WebhookServer.buildPatches.
  intros [Hp|Hp]%elem_of_app;
    destruct (WebhookServer_patches_differ _ _ _ _ _ _ Hp) as (j & c & Hc & Hop & Hpath & Hne).
  - exists "containers", (pod_containers pod), j, c. split_and!; auto.
    destruct p; simpl in *; by subst.
  - exists "initContainers", (pod_initContainers pod), j, c. split_and!; auto.
    destruct p; simpl in *; by subst.
Qed.

End Admission.

(** * The restore orchestrator *)

Section Restore.

Import RO.

Lemma spec_RO_tick k Q :
  Q (Ok (k_tick k))
    (mkPlane (k_available k) (k_bindings k) (k_backups k) (k_restores k) (k_policies k)
       (k_works k) (S (k_tick k)) (k_created k)) ->
  spec tick k Q.
Proof. done. Qed.

Ltac wp := repeat (wp_core || apply spec_RO_tick).

Lemma firstBindingWith_available bindings resourceRef sourceCluster binding :
  firstBindingWith bindings resourceRef sourceCluster = Some binding ->
  isSourceClusterStillAvailable binding sourceCluster = true.
Proof.
  induction bindings as [|b rest IH]; simpl; [done|].
  destruct (sameResource _ _ && _) eqn:Hb; [|done].
  intros [= <-]. by apply andb_true_iff in Hb as [_ ?].
Qed.

(** Whatever the plane holds and whatever the clients answer,
    [processSourceCluster] reaches no [Create]: the only bindings
    [findResourceBinding] returns are bindings that still list the cluster,
    and for those no restore is needed. *)
Lemma processSourceCluster_creates_nothing env statefulMigration sourceCluster k :
  spec (processSourceCluster env statefulMigration sourceCluster) k
       (fun _ k' => nothing_created k k').
Proof.
  unfold processSourceCluster, findResourceBinding, listBindings.
  wp; try done.
  all: simplify_eq.
  all: repeat case_match; simplify_eq.
  all: match goal with
       | H : firstBindingWith _ _ _ = Some _ |- _ =>
           apply firstBindingWith_available in H; congruence
       end.
Qed.

Lemma processSourceClusters_create_nothing env statefulMigration sourceClusters k :
  spec (processSourceClusters env statefulMigration sourceClusters) k
       (fun _ k' => nothing_created k k').
Proof.
  revert k. induction sourceClusters as [|c rest IH]; intros k; [done|].
  cbn [processSourceClusters]. apply spec_bind.
  eapply spec_mono; [apply processSourceCluster_creates_nothing|].
  intros [[]|e] k1 (H1 & H2 & H3); [|done].
  eapply spec_mono; [apply IH|].
  intros _ k2 (H1' & H2' & H3'). unfold nothing_created. by rewrite H1', H2', H3'.
Qed.

(** A pass of the orchestrator creates no restore request, in particular
    while the source cluster is still listed in the binding. *)
Lemma Reconcile_creates_nothing env fetched k :
  spec (Reconcile env fetched) k (fun _ k' => nothing_created k k').
Proof.
  unfold Reconcile. wp; try done.
  eapply spec_mono; [apply processSourceClusters_create_nothing|].
  by intros [[]|e] k1 H.
Qed.

(** [createCheckpointRestore] on a backup whose restore is stored creates
    nothing: creation is guarded by a [Get]. *)
Lemma createCheckpointRestore_existing env backup statefulMigration k r :
  k_restores k !! (cb_namespace backup, cb_name backup ++ "-restore") = Some r ->
  spec (createCheckpointRestore env backup statefulMigration) k
       (fun _ k' => nothing_created k k').
Proof.
  intros Hr. unfold createCheckpointRestore, getRestore.
  wp; try done; simpl in *; simplify_eq.
  all: by rewrite Hr in *.
Qed.

(** C8. The binding of the workload lists [c2] only, [c1] has been removed,
    and a CheckpointBackup of the workload is stored.  The pass over the
    migration succeeds and creates no restore request: for [c1]
    [findResourceBinding] only accepts a binding that lists [c1], finds none,
    and [processSourceCluster] returns before it looks at the backups. *)
Theorem removed_cluster_gets_no_restore :
  isSourceClusterStillAvailable Scenario.binding_without_c1 "c1" = false
  /\ (findCheckpointBackups Scenario.calm Scenario.workload "c1" Scenario.plane_c1_removed).1
     = Ok [Scenario.pod_backup]
  /\ (Reconcile Scenario.calm (Found Scenario.migration) Scenario.plane_c1_removed).1
     = Ok RestoreCheckInterval
  /\ k_restores (Reconcile Scenario.calm (Found Scenario.migration) Scenario.plane_c1_removed).2 = ∅
  /\ k_created (Reconcile Scenario.calm (Found Scenario.migration) Scenario.plane_c1_removed).2 = [].
Proof. split_and!; vm_compute; reflexivity. Qed.

(** Had the restore been started, it would be created once: a restore is
    created for the backup, and a second run finds it and creates nothing. *)
Example createCheckpointRestore_twice :
  let k1 := (createCheckpointRestore Scenario.calm Scenario.pod_backup Scenario.migration
               Scenario.plane_c1_removed).2 in
  let k2 := (createCheckpointRestore Scenario.calm Scenario.pod_backup Scenario.migration k1).2 in
  k_created k1 = [("t", "cb1-restore")] /\ k_created k2 = [("t", "cb1-restore")]
  /\ k_restores k2 = k_restores k1.
Proof. split_and!; vm_compute; reflexivity. Qed.

Lemma targetClusterOf_first cluster rest : targetClusterOf (cluster :: rest) = cluster.
Proof. done. Qed.

(** What the selection of the target would do, were it reached: for the
    migration over [c1] and [c2] whose binding has lost [c1], a direct call
    of [createRestorePropagationPolicy] writes a policy that names [c1],
    since the loop takes the first source cluster and compares it with
    nothing. *)
Example createRestorePropagationPolicy_takes_first :
  isSourceClusterStillAvailable Scenario.binding_without_c1 "c1" = false
  /\ k_policies (createRestorePropagationPolicy Scenario.calm (restoreFor Scenario.pod_backup)
                   Scenario.migration Scenario.plane_c1_removed).2
       !! ("t", "cb1-restore-restore-policy")
     = Some (mkPolicy "t" "cb1-restore-restore-policy"
               [mkSelector "migration.dcnlab.com/v1" "CheckpointRestore" "cb1-restore"] ["c1"]).
Proof. split; vm_compute; reflexivity. Qed.


End Restore.

(** * The checkpoint engine *)

Module CEFacts.

Import CE.
Import CEProps.

Lemma spec_tick w Q : Q (Ok (w_tick w)) (with_tick S w) -> spec tick w Q.
Proof. done. Qed.

Lemma spec_emit e w Q : Q (Ok tt) (with_trace (cons e) w) -> spec (emit e) w Q.
Proof. done. Qed.

Lemma spec_load p w Q : Q (Ok (deref w p)) w -> spec (load p) w Q.
Proof. done. Qed.

Lemma spec_store p f w Q :
  Q (Ok tt) (with_heap (fun h => <[p := f (deref w p)]> h) w) -> spec (store p f) w Q.
Proof. done. Qed.

Lemma spec_alloc b w Q :
  Q (Ok (length (w_heap w))) (with_heap (fun h => (h ++ [b])%list) w) -> spec (alloc b) w Q.
Proof. done. Qed.

Ltac wp :=
  repeat (wp_core || apply spec_tick || apply spec_emit || apply spec_load
          || apply spec_store || apply spec_alloc).

(** Apply the specification [L] of the call at the head of the goal. *)
Tactic Notation "wp_call" uconstr(L) := eapply spec_mono; [eapply L|].

(** ** What the capture pipeline leaves alone *)

Lemma obj_frame_refl strict c : obj_frame strict c c.
Proof. by repeat split. Qed.

Lemma obj_frame_trans strict c1 c2 c3 :
  obj_frame strict c1 c2 -> obj_frame strict c2 c3 -> obj_frame strict c1 c3.
Proof.
  intros (E1 & E2 & E3 & P1 & B1) (E1' & E2' & E3' & P2 & B2).
  split_and!; try congruence.
  - intros Hp. apply P2, P1, Hp.
  - intros Hs. rewrite (B2 Hs). apply (B1 Hs).
Qed.

Lemma frame_refl strict allowed w : frame strict allowed w w.
Proof.
  split; try done.
  - intros k c Hc. exists c. split; [done|apply obj_frame_refl].
  - by exists [].
Qed.

Lemma frame_trans strict allowed w1 w2 w3 :
  frame strict allowed w1 w2 -> frame strict allowed w2 w3 -> frame strict allowed w1 w3.
Proof.
  intros [S1 H1 F1 (e1 & T1 & A1)] [S2 H2 F2 (e2 & T2 & A2)]. split.
  - intros k c Hc. destruct (S1 _ _ Hc) as (c2 & Hc2 & O1).
    destruct (S2 _ _ Hc2) as (c3 & Hc3 & O2). exists c3. split; [done|].
    by eapply obj_frame_trans.
  - intros p. destruct (H1 p), (H2 p). split; congruence.
  - intros Hs. etrans; [apply F1, Hs|apply F2, Hs].
  - exists (e2 ++ e1)%list. split; [by rewrite T2, T1, app_assoc|]. by apply Forall_app.
Qed.

Lemma frame_weaken strict strict' (allowed allowed' : Event -> Prop) w w' :
  (strict' = true -> strict = true) ->
  (forall e, allowed e -> allowed' e) ->
  frame strict allowed w w' -> frame strict' allowed' w w'.
Proof.
  intros Hs Ha [S1 H1 F1 (e1 & T1 & A1)]. split; auto.
  - intros k c Hc. destruct (S1 _ _ Hc) as (c' & ? & (? & ? & ? & ? & ?)).
    exists c'. repeat split; auto.
  - exists e1. split; [done|]. eapply Forall_impl; eauto.
Qed.

(** The elementary changes of the world. *)
Lemma frame_intro strict (allowed : Event -> Prop) w w' evs :
  w_backups w' = w_backups w ->
  w_heap w' = w_heap w ->
  (strict = true -> w_files w ⊆ w_files w') ->
  w_trace w' = (evs ++ w_trace w)%list ->
  Forall allowed evs ->
  frame strict allowed w w'.
Proof.
  intros Hb Hh Hf Ht Ha. split; auto.
  - intros k c Hc. exists c. rewrite Hb. split; [done|apply obj_frame_refl].
  - intros p. unfold deref. by rewrite Hh.
  - by exists evs.
Qed.

Lemma frame_tick strict allowed f w : frame strict allowed w (with_tick f w).
Proof. by apply (frame_intro _ _ _ _ []). Qed.

Lemma frame_emit strict (allowed : Event -> Prop) e w :
  allowed e -> frame strict allowed w (with_trace (cons e) w).
Proof. intros He. apply (frame_intro _ _ _ _ [e]); try done. by constructor. Qed.

Lemma frame_files_grow strict allowed X w :
  frame strict allowed w (with_files (fun fs => fs ∪ X) w).
Proof. apply (frame_intro _ _ _ _ []); try done. intros _. simpl. set_solver. Qed.

Lemma frame_files_any allowed f w : frame false allowed w (with_files f w).
Proof. by apply (frame_intro _ _ _ _ []). Qed.

Lemma frame_pods strict allowed f w : frame strict allowed w (with_pods f w).
Proof. by apply (frame_intro _ _ _ _ []). Qed.

Lemma frame_cron strict allowed f g w : frame strict allowed w (with_cron f g w).
Proof. by apply (frame_intro _ _ _ _ []). Qed.

Lemma frame_scheduledJobs strict allowed f w : frame strict allowed w (with_scheduledJobs f w).
Proof. by apply (frame_intro _ _ _ _ []). Qed.

Lemma deref_insert w p q b :
  deref (with_heap (fun h => <[p := b]> h) w) q
  = if bool_decide (p = q /\ p < length (w_heap w)) then b else deref w q.
Proof.
  unfold deref. simpl. case_bool_decide as H.
  - destruct H as [-> ?]. by rewrite list_lookup_insert_eq.
  - destruct (decide (p = q)) as [->|].
    + rewrite list_insert_ge; [done|]. lia.
    + by rewrite list_lookup_insert_ne.
Qed.

Lemma frame_heap_status strict allowed p st w :
  frame strict allowed w (with_heap (fun h => <[p := set_status (deref w p) st]> h) w).
Proof.
  destruct (frame_refl strict allowed w) as [S1 H1 F1 T1]. split; try done.
  intros q. rewrite deref_insert. case_bool_decide as H; [|done]. by destruct H as [-> _].
Qed.

Lemma frame_store_status strict allowed k cur st w :
  w_backups w !! k = Some cur ->
  obj_frame strict cur (set_status cur st) ->
  frame strict allowed w (with_backups (<[k := set_status cur st]>) w).
Proof.
  intros Hcur Ho. destruct (frame_refl strict allowed w) as [S1 H1 F1 T1]. split; try done.
  intros k' c Hc. simpl. destruct (decide (k = k')) as [<-|].
  - rewrite lookup_insert_eq. exists (set_status cur st). by simplify_eq.
  - rewrite lookup_insert_ne by done. exists c. split; [done|apply obj_frame_refl].
Qed.

(** Peel the elementary changes off the final world of a [frame] goal. *)
Ltac frame_peel :=
  repeat first
    [ apply frame_refl
    | eapply frame_trans; [|apply frame_tick]
    | eapply frame_trans; [|apply frame_pods]
    | eapply frame_trans; [|apply frame_cron]
    | eapply frame_trans; [|apply frame_scheduledJobs]
    | eapply frame_trans; [|apply frame_heap_status]
    | eapply frame_trans; [|apply frame_files_grow]
    | eapply frame_trans; [|apply frame_files_any]
    | eapply frame_trans; [|apply frame_emit; simpl; by eauto] ].

Section Engine.

Variable env : Env.

Lemma phase_set_frame strict allowed k w w' :
  frame strict allowed w w' -> phase_set k w -> phase_set k w'.
Proof.
  intros [S1 _ _ _] (c & Hc & Hp). destruct (S1 _ _ Hc) as (c' & Hc' & (_ & _ & _ & Hph & _)).
  exists c'. auto.
Qed.

(** *** The status helpers *)

Lemma statusUpdate_frame strict obj w :
  (forall cur, w_backups w !! key_of obj = Some cur ->
               obj_frame strict cur (set_status cur (cb_status obj))) ->
  spec (statusUpdate env obj) w (fun _ w' => frame strict is_status w w').
Proof.
  intros Hobj. unfold statusUpdate. wp; simpl in *.
  all: try (frame_peel; fail).
  eapply frame_trans; [|apply frame_store_status; [simpl; eassumption|]].
  - frame_peel.
  - by apply Hobj.
Qed.

(** When the server is reliable and the object is stored, the status is
    written. *)
Lemma statusUpdate_ok obj w cur :
  api_reliable env ->
  w_backups w !! key_of obj = Some cur ->
  spec (statusUpdate env obj) w (fun r w' =>
    r = Ok UpdOk
    /\ w' = with_backups (<[key_of obj := set_status cur (cb_status obj)]>)
              (with_trace (cons (EvStatusUpdate (cb_namespace obj) (cb_name obj) (cb_status obj)))
                 (with_tick S w))).
Proof.
  intros Hrel Hcur. unfold statusUpdate. wp; simpl in *.
  all: destruct (Hrel (w_tick w)) as [_ Hu]; unfold key_of in *; simplify_eq; try done.
  all: congruence.
Qed.

Lemma updatePhase_from_frame rounds i backup phase message w :
  phase <> "" ->
  spec (updatePhase_from env rounds i backup phase message) w
       (fun _ w' => frame true is_status w w').
Proof.
  intros Hphase. revert i w. induction rounds as [|rounds IH]; intros i w; simpl.
  - wp. apply frame_refl.
  - unfold getBackup. wp; simpl in *; simplify_eq.
    all: try (frame_peel; fail).
    wp_call (statusUpdate_frame true).
    { intros cur. unfold key_of. simpl. intros Hcur.
      repeat (case_match; simplify_eq/=). by repeat split. }
    intros r w1 H1.
    assert (frame true is_status w w1) as H01.
    { eapply frame_trans; [|exact H1]. frame_peel. }
    destruct r as [u|e]; [|exact H01].
    wp; try done.
    + eapply frame_trans; [exact H01|]. frame_peel.
    + wp_call IH. intros r w2 H2. assert (frame true is_status w w2) by by eapply frame_trans.
      by destruct r.
Qed.

Lemma updatePhase_frame backup phase message w :
  phase <> "" ->
  spec (updatePhase env backup phase message) w (fun _ w' => frame true is_status w w').
Proof. apply updatePhase_from_frame. Qed.

Lemma updatePhase_ok backup phase message w cur :
  api_reliable env ->
  w_backups w !! key_of (deref w backup) = Some cur ->
  spec (updatePhase env backup phase message) w (fun r w' =>
    r = Ok tt /\ w' = after_updatePhase w backup cur phase message).
Proof.
  intros Hrel Hcur. unfold updatePhase, maxRetries. cbn [updatePhase_from]. unfold getBackup.
  destruct (Hrel (w_tick w)) as [Hg _].
  unfold key_of in *. wp; simpl in *; rewrite ?Hcur in *; simplify_eq.
  wp_call (statusUpdate_ok _ _ cur); [done|simpl; done|].
  intros r w1 (-> & ->). wp. done.
Qed.

Lemma recordCheckpointFile_from_frame rounds i backup containerName checkpointPath w :
  spec (recordCheckpointFile_from env rounds i backup containerName checkpointPath) w
       (fun _ w' => frame true is_status w w').
Proof.
  revert i w. induction rounds as [|rounds IH]; intros i w; cbn [recordCheckpointFile_from].
  - wp. apply frame_refl.
  - unfold getBackup, now. wp; simpl in *; simplify_eq.
    all: try (frame_peel; fail).
    wp_call (statusUpdate_frame true).
    { intros cur. unfold key_of. simpl. intros Hcur.
      repeat (case_match; simplify_eq/=). by repeat split. }
    intros r w1 H1.
    assert (frame true is_status w w1) as H01.
    { eapply frame_trans; [|exact H1]. frame_peel. }
    destruct r as [u|e]; [|exact H01].
    wp; try done.
    + eapply frame_trans; [exact H01|]. frame_peel.
    + wp_call IH. intros r w2 H2. assert (frame true is_status w w2) by by eapply frame_trans.
      by destruct r.
Qed.

Lemma recordCheckpointFile_frame backup containerName checkpointPath w :
  spec (recordCheckpointFile env backup containerName checkpointPath) w
       (fun _ w' => frame true is_status w w').
Proof. apply recordCheckpointFile_from_frame. Qed.

Lemma recordBuiltImage_from_frame rounds i backup containerName imageName pushed w :
  spec (recordBuiltImage_from env rounds i backup containerName imageName pushed) w
       (fun _ w' => frame false is_status w w').
Proof.
  revert i w. induction rounds as [|rounds IH]; intros i w; cbn [recordBuiltImage_from].
  - wp. apply frame_refl.
  - unfold getBackup, now. wp; simpl in *; simplify_eq.
    all: try (frame_peel; fail).
    wp_call (statusUpdate_frame false).
    { intros cur. unfold key_of. simpl. intros Hcur.
      repeat (case_match; simplify_eq/=). by repeat split. }
    intros r w1 H1.
    assert (frame false is_status w w1) as H01.
    { eapply frame_trans; [|exact H1]. frame_peel. }
    destruct r as [u|e]; [|exact H01].
    wp; try done.
    + eapply frame_trans; [exact H01|]. frame_peel.
    + wp_call IH. intros r w2 H2. assert (frame false is_status w w2) by by eapply frame_trans.
      by destruct r.
Qed.

Lemma recordBuiltImage_frame backup containerName imageName pushed w :
  spec (recordBuiltImage env backup containerName imageName pushed) w
       (fun _ w' => frame false is_status w w').
Proof. apply recordBuiltImage_from_frame. Qed.

(** *** The node agent, the builder and the disk *)

Lemma CreateCheckpoint_frame namespace podName containerName w :
  spec (CreateCheckpoint env namespace podName containerName) w
       (fun _ w' => frame true (fun e => e = EvKubelet namespace podName containerName) w w').
Proof. unfold CreateCheckpoint. wp; frame_peel. Qed.

Lemma findCheckpointFile_frame namespace podName containerName expectedPath w :
  spec (findCheckpointFile env namespace podName containerName expectedPath) w
       (fun _ w' => frame true (fun _ => False) w w').
Proof. unfold findCheckpointFile. wp; frame_peel. Qed.

Lemma buildCheckpointImage_frame checkpointPath imageName baseImage containerName w :
  spec (buildCheckpointImage env checkpointPath imageName baseImage containerName) w
       (fun _ w' => frame true (fun e => exists path, e = EvBuild path imageName baseImage) w w').
Proof. unfold buildCheckpointImage. wp; frame_peel. Qed.

Lemma PushImage_frame rc imageName w :
  spec (PushImage env rc imageName) w
       (fun _ w' => frame true (fun e => (exists r, e = EvLogin r)
                                         \/ exists d, e = EvPush imageName d) w w').
Proof. unfold PushImage, login. wp; frame_peel. Qed.

Lemma deleteCheckpointFile_frame checkpointPath w :
  spec (deleteCheckpointFile env checkpointPath) w
       (fun _ w' => frame false (fun e => e = EvRemove checkpointPath) w w').
Proof. unfold deleteCheckpointFile. wp; frame_peel. Qed.

Lemma now_frame strict allowed w :
  spec (now env) w (fun r w' => frame strict allowed w w' /\ exists t, r = Ok (env_now env t)).
Proof. unfold now. wp. split; [frame_peel|eauto]. Qed.

(** *** The capture of one container *)

Lemma frame_step s (A : Event -> Prop) s_op (A_op : Event -> Prop) w0 w w' :
  frame s A w0 w -> frame s_op A_op w w' ->
  (s = true -> s_op = true) -> (forall e, A_op e -> A e) ->
  frame s A w0 w'.
Proof.
  intros H0 Hop Hs Ha. eapply frame_trans; [exact H0|]. by eapply frame_weaken.
Qed.

Lemma spec_and {A} (m : M A) w (Q1 Q2 : Res A -> World -> Prop) :
  spec m w Q1 -> spec m w Q2 -> spec m w (fun r w' => Q1 r w' /\ Q2 r w').
Proof. unfold spec. auto. Qed.

Lemma spec_imp {A} (m : M A) w (P : Prop) (Q : Res A -> World -> Prop) :
  (P -> spec m w Q) -> spec m w (fun r w' => P -> Q r w').
Proof. unfold spec. auto. Qed.

(** What [updatePhase] does, in one statement. *)
Lemma updatePhase_spec backup phase message w :
  phase <> "" ->
  spec (updatePhase env backup phase message) w (fun r w' =>
    frame true is_status w w'
    /\ (api_reliable env -> forall cur, w_backups w !! key_of (deref w backup) = Some cur ->
        r = Ok tt /\ w' = after_updatePhase w backup cur phase message)).
Proof.
  intros Hphase. apply spec_and; [by apply updatePhase_frame|].
  unfold spec. intros Hrel cur Hcur. by apply (updatePhase_ok backup phase message w cur).
Qed.

Lemma phase_set_after_updatePhase w backup cur phase message :
  phase <> "" ->
  phase_set (key_of (deref w backup)) (after_updatePhase w backup cur phase message).
Proof.
  intros Hphase. exists (set_status cur (set_phase (cb_status cur) phase message)).
  split; [|done]. unfold after_updatePhase. simpl. by rewrite lookup_insert_eq.
Qed.

Ltac phase_ne := by compute.

Lemma acc_step s (A : Event -> Prop) G k s_op (A_op : Event -> Prop) w0 w w' :
  acc s A G k w0 w -> frame s_op A_op w w' ->
  (s = true -> s_op = true) -> (forall e, A_op e -> A e) ->
  acc s A G k w0 w'.
Proof.
  intros [H0 P0] Hop Hs Ha. split; [by eapply frame_step|].
  intros HG. eapply phase_set_frame; [exact Hop|auto].
Qed.

Lemma acc_relax (A : Event -> Prop) G k w0 w : acc true A G k w0 w -> acc false A G k w0 w.
Proof. intros [H0 P0]. split; [|done]. eapply frame_weaken; [| |exact H0]; auto. Qed.

Lemma spec_bind_post {A B} (m : M A) (f : A -> M B) w (Q1 : Res A -> World -> Prop) Q :
  spec m w Q1 ->
  (forall r w', Q1 r w' -> match r with Ok a => spec (f a) w' Q | Err e => Q (Err e) w' end) ->
  spec (m ≫= f) w Q.
Proof. intros H1 H2. apply spec_bind. by eapply spec_mono. Qed.

Ltac advance H F :=
  apply (acc_step _ _ _ _ _ _ _ _ _ H) in F;
  [clear H; rename F into H|by auto|try (by intros []); try (by intros ? ->)].

Lemma createCheckpointIfMissing_spec backup b container checkpointPath w :
  spec (createCheckpointIfMissing env backup b container checkpointPath) w (fun r w' =>
    frame true (allowedC env b container) w w'
    /\ (forall e, r <> Err (pushFailed ++ e))
    /\ (api_reliable env -> checkpointPath = "" ->
        is_Some (w_backups w !! key_of (deref w backup)) ->
        phase_set (key_of (deref w backup)) w')).
Proof.
  unfold createCheckpointIfMissing. wp.
  2:{ split_and!; [apply frame_refl|done|]. intros _ ?. by case_bool_decide. }
  wp_call updatePhase_spec; [phase_ne|]. intros r1 w1 [F1 O1].
  assert (acc true (allowedC env b container)
            (api_reliable env /\ is_Some (w_backups w !! key_of (deref w backup)))
            (key_of (deref w backup)) w w1) as H.
  { split; [eapply frame_weaken; [| |exact F1]; [done|by intros []]|].
    intros [Hrel [cur Hcur]]. destruct (O1 Hrel cur Hcur) as [_ ->].
    apply phase_set_after_updatePhase. phase_ne. }
  clear O1 F1. wp.
  wp_call CreateCheckpoint_frame. intros r2 w2 F2. advance H F2.
  destruct r2 as [path|e]; wp.
  - wp_call recordCheckpointFile_frame. intros r3 w3 F3. advance H F3.
    wp. wp_call updatePhase_frame; [phase_ne|]. intros r4 w4 F4. advance H F4.
    wp. destruct H as [H P]. split_and!; [done|done|]. auto.
  - wp_call updatePhase_frame; [phase_ne|]. intros r3 w3 F3. advance H F3.
    wp. destruct H as [H P]. split_and!; [done| |by auto].
    intros e' He. unfold pushFailed in He. by simplify_eq/=.
Qed.

Lemma determineImageName_spec b container w :
  spec (determineImageName env b container) w (fun r w' =>
    frame true (fun _ => False) w w' /\ exists img, r = Ok img /\ image_ok env b container img).
Proof.
  unfold determineImageName, now, image_ok. wp.
  - split; [frame_peel|]. eauto.
  - split; [frame_peel|]. eauto.
Qed.

Ltac fadvance H F :=
  apply (frame_step _ _ _ _ _ _ _ H) in F;
  [clear H; rename F into H|by auto|try (by intros []); try (by intros ? ->)].

Lemma buildAndPush_spec backup b pod container checkpointPath w :
  spec (buildAndPush env backup b pod container checkpointPath) w (fun r w' =>
    frame false (allowedC env b container) w w' /\ push_failure env b container backup w r w').
Proof.
  unfold buildAndPush.
  assert (forall s w', frame true (allowedC env b container) w w' ->
            (forall e, s <> pushFailed ++ e) ->
            frame false (allowedC env b container) w w'
            /\ push_failure env b container backup w (Err s) w') as Hexit.
  { intros s w' H Hs. split; [eapply frame_weaken; [| |exact H]; auto|].
    intros e [= ->]. by destruct (Hs e). }
  assert (forall w', frame false (allowedC env b container) w w' ->
            frame false (allowedC env b container) w w'
            /\ push_failure env b container backup w (Ok tt) w') as Hdone.
  { intros w' H. split; [done|]. by intros e. }
  pose proof (frame_refl true (allowedC env b container) w) as H.
  apply spec_bind, spec_gets.
  (* Step 1.5 *)
  eapply (spec_bind_post _ _ _
            (fun r w1 => frame true (allowedC env b container) w w1
                         /\ forall e, r <> Err (pushFailed ++ e))).
  { destruct (negb _); wp.
    - wp_call findCheckpointFile_frame. intros r1 w1 F1. fadvance H F1.
      destruct r1; wp; (split; [done|]); intros e' He; unfold pushFailed in He; by simplify_eq/=.
    - by split. }
  clear H. intros r1 w1 [H Hne]. destruct r1 as [path|s].
  2:{ apply Hexit; [done|]. intros e ->. by destruct (Hne e). }
  cbv beta zeta. wp.
  { apply Hexit; [done|]. intros e' He. unfold pushFailed in He. by simplify_eq/=. }
  (* Step 3 *)
  wp_call determineImageName_spec. intros r2 w2 [F2 (img & -> & Himg)]. fadvance H F2.
  wp. wp_call updatePhase_frame; [phase_ne|]. intros r3 w3 F3. fadvance H F3.
  (* Step 4 *)
  wp. wp_call buildCheckpointImage_frame. intros r4 w4 F4.
  apply (frame_step _ _ _ _ _ _ _ H) in F4; [|done|by intros ? [? ->]].
  clear H; rename F4 into H.
  destruct r4 as [[]|e]; wp.
  2:{ wp_call updatePhase_frame; [phase_ne|]. intros r5 w5 F5. fadvance H F5. wp.
      apply Hexit; [done|]. intros e' He. unfold pushFailed in He. by simplify_eq/=. }
  wp_call updatePhase_frame; [phase_ne|]. intros r5 w5 F5. fadvance H F5.
  apply spec_bind, spec_gets.
  (* Step 5 *)
  eapply (spec_bind_post _ _ _
            (fun r w6 => match r with
                         | Ok _ => frame true (allowedC env b container) w w6
                         | Err s => frame false (allowedC env b container) w w6
                                    /\ push_failure env b container backup w (Err s) w6
                         end)).
  { destruct (sp_registry (cb_spec b)) as [registry|] eqn:Hreg; cbv beta iota; [|by wp].
    destruct (w_registryClient (id w5)) as [registryClient|]; cbv beta iota; [|by wp].
    wp. wp_call updatePhase_frame; [phase_ne|]. intros r6 w6 F6. fadvance H F6.
    wp. wp_call PushImage_frame. intros r7 w7 F7.
    apply (frame_step _ _ _ _ _ _ _ H) in F7; [|done|].
    2:{ intros ? [[? ->]|[? ->]]; simpl; [congruence|]. split; [congruence|done]. }
    clear H; rename F7 into H. destruct r7 as [[]|e]; wp.
    - wp_call updatePhase_frame; [phase_ne|]. intros r8 w8 F8. fadvance H F8. by wp.
    - wp_call updatePhase_spec; [phase_ne|]. intros r8 w8 [F8 O8].
      pose proof H as H7. fadvance H F8. wp.
      split; [eapply frame_weaken; [| |exact H]; auto|].
      intros e' He. unfold pushFailed in He. simplify_eq/=.
      split_and!; [done|congruence|]. intros Hrel c0 Hc0.
      destruct H7 as [S7 K7 _ _]. destruct (S7 _ _ Hc0) as (c7 & Hc7 & _).
      destruct (K7 backup) as [Hk7 _]. rewrite <- Hk7 in Hc7.
      destruct (O8 Hrel c7 Hc7) as [_ ->]. rewrite <- Hk7.
      eexists. unfold after_updatePhase. simpl. rewrite lookup_insert_eq. by split_and!. }
  clear H. intros r6 w6 H. destruct r6 as [pushed|s]; [|done].
  (* Step 6 *)
  apply (frame_weaken true false _ (allowedC env b container)) in H; [|done|done].
  wp. wp_call recordBuiltImage_frame. intros r7 w7 F7. fadvance H F7.
  (* Step 7 *)
  wp; [|by apply Hdone].
  wp_call deleteCheckpointFile_frame. intros r8 w8 F8. fadvance H F8.
  wp. by apply Hdone.
Qed.

Lemma checkpointContainer_spec backup pod container w :
  spec (checkpointContainer env backup pod container) w (fun r w' =>
    frame false (allowedC env (deref w backup) container) w w'
    /\ push_failure env (deref w backup) container backup w r w'
    /\ (api_reliable env ->
        getCheckpointFilePath (deref w backup) (c_name container) = None ->
        is_Some (w_backups w !! key_of (deref w backup)) ->
        phase_set (key_of (deref w backup)) w')).
Proof.
  unfold checkpointContainer. wp.
  2:{ split_and!; [apply frame_refl|by intros e|].
      intros _ Hnone. unfold resumeCheck in *. by rewrite Hnone in *. }
  wp_call createCheckpointIfMissing_spec. intros r1 w1 (F1 & N1 & P1).
  assert (api_reliable env ->
          getCheckpointFilePath (deref w backup) (c_name container) = None ->
          is_Some (w_backups w !! key_of (deref w backup)) ->
          phase_set (key_of (deref w backup)) w1) as P1'.
  { intros Hrel Hnone Hst. apply P1; [done| |done].
    unfold resumeCheck in *. rewrite Hnone in *. by simplify_eq. }
  clear P1. destruct r1 as [path|e].
  2:{ split_and!; [eapply frame_weaken; [| |exact F1]; auto| |done].
      intros e' He. exfalso. apply (N1 e'). by injection He as ->. }
  wp_call buildAndPush_spec. intros r2 w2 [F2 PF2].
  destruct (fr_heap _ _ _ _ F1 backup) as [Hk _].
  split_and!.
  - eapply frame_trans; [eapply frame_weaken; [| |exact F1]; auto|exact F2].
  - intros e He. destruct (PF2 e He) as (F2' & Hreg & Hfail).
    split_and!; [by eapply frame_trans|done|].
    intros Hrel c0 Hc0. destruct (fr_store _ _ _ _ F1 _ _ Hc0) as (c1 & Hc1 & _).
    rewrite <- Hk. apply (Hfail Hrel c1). by rewrite Hk.
  - intros Hrel Hnone Hst. eapply phase_set_frame; [exact F2|]. by apply P1'.
Qed.

Lemma allowedC_is_capture b container e : allowedC env b container e -> is_capture e.
Proof. by destruct e. Qed.

Lemma checkpointContainers_spec backup pod containers w :
  spec (checkpointContainers env backup pod containers) w (fun r w' =>
    frame false is_capture w w'
    /\ (api_reliable env ->
        st_checkpointFiles (cb_status (deref w backup)) = [] ->
        is_Some (w_backups w !! key_of (deref w backup)) ->
        containers <> [] \/ r <> Ok tt ->
        phase_set (key_of (deref w backup)) w')).
Proof.
  revert w. induction containers as [|container rest IH]; intros w; cbn [checkpointContainers].
  { wp. split; [apply frame_refl|]. by intros _ _ _ [|]. }
  apply spec_bind. wp_call checkpointContainer_spec. intros r1 w1 (F1 & _ & P1).
  apply (frame_weaken _ false _ is_capture) in F1; [|done|apply allowedC_is_capture].
  assert (api_reliable env ->
          st_checkpointFiles (cb_status (deref w backup)) = [] ->
          is_Some (w_backups w !! key_of (deref w backup)) ->
          phase_set (key_of (deref w backup)) w1) as P1'.
  { intros Hrel Hfiles Hst. apply P1; [done| |done].
    unfold getCheckpointFilePath. by rewrite Hfiles. }
  destruct r1 as [[]|e]; [|by auto].
  wp_call IH. intros r2 w2 [F2 _]. split; [by eapply frame_trans|].
  intros Hrel Hfiles Hst _. eapply phase_set_frame; [exact F2|]. by apply P1'.
Qed.

Lemma deletePod_frame pod w :
  spec (deletePod env pod) w (fun _ w' => frame false no_update w w').
Proof. unfold deletePod. wp; frame_peel. Qed.

Lemma removeScheduledJob_frame strict allowed key w :
  spec (removeScheduledJob key) w (fun _ w' => frame strict allowed w w').
Proof. unfold removeScheduledJob. wp; frame_peel. Qed.

Lemma is_status_no_update e : is_status e -> no_update e.
Proof. by destruct e. Qed.

Lemma is_capture_no_update e : is_capture e -> no_update e.
Proof. by destruct e. Qed.

Lemma completeCheckpoint_spec backup pod w :
  spec (completeCheckpoint env backup pod) w (fun r w' =>
    frame false no_update w w'
    /\ (api_reliable env -> is_Some (w_backups w !! key_of (deref w backup)) ->
        phase_set (key_of (deref w backup)) w')).
Proof.
  unfold completeCheckpoint, now. wp.
  match goal with |- spec _ ?w1 _ => set (w1' := w1) end.
  assert (frame false no_update w w1') as H by (subst w1'; frame_peel).
  assert (key_of (deref w1' backup) = key_of (deref w backup)) as Hk
    by apply (fr_heap _ _ _ _ H).
  wp_call updatePhase_spec; [phase_ne|]. intros r2 w2 [F2 O2].
  assert (acc false no_update
            (api_reliable env /\ is_Some (w_backups w !! key_of (deref w backup)))
            (key_of (deref w backup)) w w2) as Hacc.
  { split; [eapply frame_step; [exact H|exact F2|done|apply is_status_no_update]|].
    intros [Hrel [cur Hcur]]. destruct (O2 Hrel cur) as [_ ->]; [by rewrite Hk|].
    rewrite <- Hk. apply phase_set_after_updatePhase. phase_ne. }
  clear H O2 F2.
  assert (forall w', acc false no_update
            (api_reliable env /\ is_Some (w_backups w !! key_of (deref w backup)))
            (key_of (deref w backup)) w w' ->
          frame false no_update w w'
          /\ (api_reliable env -> is_Some (w_backups w !! key_of (deref w backup)) ->
              phase_set (key_of (deref w backup)) w')) as Hend.
  { intros w' [? ?]. split; auto. }
  destruct r2 as [[]|e]; [|by apply Hend].
  wp; [|by apply Hend].
  wp_call deletePod_frame. intros r3 w3 F3. advance Hacc F3.
  destruct r3 as [[]|e]; wp.
  - wp_call (removeScheduledJob_frame false no_update). intros r4 w4 F4. advance Hacc F4.
    destruct r4 as [removed|e]; [|by apply Hend].
    wp_call updatePhase_frame; [phase_ne|]. intros r5 w5 F5.
    apply (acc_step _ _ _ _ _ _ _ _ _ Hacc) in F5; [|done|apply is_status_no_update].
    by apply Hend.
  - wp_call updatePhase_frame; [phase_ne|]. intros r5 w5 F5.
    apply (acc_step _ _ _ _ _ _ _ _ _ Hacc) in F5; [|done|apply is_status_no_update].
    wp. by apply Hend.
Qed.

(** *** The pipeline as a whole *)

Lemma performCheckpoint_spec backup w :
  spec (performCheckpoint env backup) w (fun r w' =>
    frame false no_update w w'
    /\ (api_reliable env ->
        st_phase (cb_status (deref w backup)) = "" ->
        st_checkpointFiles (cb_status (deref w backup)) = [] ->
        is_Some (w_backups w !! key_of (deref w backup)) ->
        pod_running w (deref w backup) ->
        phase_set (key_of (deref w backup)) w')).
Proof.
  unfold performCheckpoint, getPod. wp; simpl in *.
  all: lazymatch goal with
       | |- spec _ _ _ => idtac
       | |- _ =>
           split; [frame_peel|]; intros Hrel Hp _ _ (pod' & Hpod & Hrun);
           try (rewrite Hp in *);
           try (destruct (Hrel (w_tick w)); congruence);
           try (rewrite Hpod in *; simplify_eq);
           try (repeat match goal with
                       | H : bool_decide _ = true |- _ => apply bool_decide_eq_true in H
                       end; by simpl in * );
           repeat match goal with H : bool_decide _ = _ |- _ => by compute in H end
       end.
  assert (frame false no_update w (with_tick S w)) as H by frame_peel.
  assert (key_of (deref (with_tick S w) backup) = key_of (deref w backup)) as Hk by done.
  wp_call checkpointContainers_spec. intros r1 w1 [F1 P1].
  apply (frame_step _ _ _ _ _ _ _ H) in F1; [|done|apply is_capture_no_update].
  clear H. destruct r1 as [[]|e].
  - wp_call completeCheckpoint_spec. intros r2 w2 [F2 P2]. split; [by eapply frame_trans|].
    intros Hrel _ _ Hst _. destruct (fr_heap _ _ _ _ F1 backup) as [Hk1 _]. rewrite <- Hk1.
    apply P2; [done|]. rewrite Hk1. destruct Hst as [c Hc].
    destruct (fr_store _ _ _ _ F1 _ _ Hc) as (c1 & -> & _). done.
  - split; [done|]. intros Hrel _ Hfiles Hst _.
    rewrite <- Hk. apply P1; try done. by right.
Qed.

End Engine.

(** ** Reconciliation *)

Lemma others_update ns name fs tr : others (EvUpdate ns name fs :: tr) = others tr.
Proof. done. Qed.

Lemma deref_same w w' p : w_heap w' = w_heap w -> deref w' p = deref w p.
Proof. unfold deref. by intros ->. Qed.

Lemma deref_alloc w b : deref (with_heap (fun h => (h ++ [b])%list) w) (length (w_heap w)) = b.
Proof. unfold deref. simpl. by rewrite lookup_app_r, Nat.sub_diag. Qed.

Lemma deref_valid w p : deref w p <> emptyBackup -> p < length (w_heap w).
Proof.
  unfold deref. intros H. apply lookup_lt_is_Some. destruct (w_heap w !! p); [eauto|done].
Qed.

Lemma still_refl w : still w w.
Proof. split; try done. intros k c' Hc. by exists c'. Qed.

Lemma still_trans w1 w2 w3 : still w1 w2 -> still w2 w3 -> still w1 w3.
Proof.
  intros [P1 F1 O1 S1] [P2 F2 O2 S2]. split; try congruence.
  intros k c3 Hc3. destruct (S2 _ _ Hc3) as (c2 & Hc2 & ? & ?).
  destruct (S1 _ _ Hc2) as (c1 & Hc1 & ? & ?). exists c1. split_and!; congruence.
Qed.

Lemma still_same w w' :
  w_backups w' = w_backups w -> w_pods w' = w_pods w -> w_files w' = w_files w ->
  others (w_trace w') = others (w_trace w) ->
  still w w'.
Proof.
  intros Hb Hp Hf Ht. split; try done. intros k c' Hc'. exists c'. by rewrite <- Hb.
Qed.

Lemma quiet_refl n w : quiet n w w.
Proof. split; auto using still_refl. Qed.

Lemma quiet_trans n w1 w2 w3 : quiet n w1 w2 -> quiet n w2 w3 -> quiet n w1 w3.
Proof.
  intros [S1 H1 L1 C1] [S2 H2 L2 C2]. split.
  - by eapply still_trans.
  - intros q Hq. by rewrite H2, H1.
  - lia.
  - intros id e He. destruct (C2 _ _ He) as [He2|[? ?]]; [|by auto].
    destruct (C1 _ _ He2) as [|[? ?]]; [by auto|]. right. split; [done|lia].
Qed.

(** The elementary changes of the world. *)
Lemma quiet_same n w w' :
  w_backups w' = w_backups w -> w_pods w' = w_pods w -> w_files w' = w_files w ->
  others (w_trace w') = others (w_trace w) ->
  w_heap w' = w_heap w -> w_cron w' = w_cron w ->
  quiet n w w'.
Proof.
  intros Hb Hp Hf Ht Hh Hc. split; [by apply still_same| | |].
  - intros q _. by apply deref_same.
  - by rewrite Hh.
  - intros id e. rewrite Hc. auto.
Qed.

Lemma quiet_tick n f w : quiet n w (with_tick f w).
Proof. by apply quiet_same. Qed.

Lemma quiet_update_event n ns name fs w : quiet n w (with_trace (cons (EvUpdate ns name fs)) w).
Proof. by apply quiet_same. Qed.

Lemma quiet_kubeletClient n c w : quiet n w (with_kubeletClient c w).
Proof. by apply quiet_same. Qed.

Lemma quiet_registryClient n c w : quiet n w (with_registryClient c w).
Proof. by apply quiet_same. Qed.

Lemma quiet_scheduledJobs n f w : quiet n w (with_scheduledJobs f w).
Proof. by apply quiet_same. Qed.

Lemma quiet_heap_store n p c w : n <= p -> quiet n w (with_heap (fun h => <[p := c]> h) w).
Proof.
  intros Hp. split; [by apply still_same| | |by auto].
  - intros q Hq. rewrite deref_insert. case_bool_decide; [lia|done].
  - simpl. by rewrite length_insert.
Qed.

Lemma quiet_alloc n b w :
  n <= length (w_heap w) -> quiet n w (with_heap (fun h => (h ++ [b])%list) w).
Proof.
  intros Hn. split; [by apply still_same| | |by auto].
  - intros q Hq. unfold deref. simpl. rewrite lookup_app_l; [done|lia].
  - simpl. rewrite length_app. lia.
Qed.

Lemma quiet_cron_delete n id f w : quiet n w (with_cron (delete id) f w).
Proof.
  split; [by apply still_same|done|done|].
  intros id' e. simpl. intros He%lookup_delete_Some. left. tauto.
Qed.

Lemma quiet_cron_insert n id schedule f w :
  n < length (w_heap w) ->
  quiet n w (with_cron (<[id := mkCronEntry schedule n]>) f w).
Proof.
  intros Hn. split; [by apply still_same|done|done|].
  intros id' e. simpl. intros [[_ <-]|[_ He]]%lookup_insert_Some; auto.
Qed.

Lemma quiet_backups_insert n k c c0 w :
  w_backups w !! k = Some c0 -> cb_status c = cb_status c0 -> cb_spec c = cb_spec c0 ->
  quiet n w (with_backups (<[k := c]>) w).
Proof.
  intros Hc0 Hst Hsp. split; [split; try done|done|done|by auto].
  intros k' c'. simpl. intros [[<- <-]|[_ He]]%lookup_insert_Some; eauto.
Qed.

Lemma quiet_backups_delete n k w : quiet n w (with_backups (delete k) w).
Proof.
  split; [split; try done|done|done|by auto].
  intros k' c'. simpl. intros [_ He]%lookup_delete_Some. eauto.
Qed.

(** Peel the elementary changes off the final world of a [quiet] goal. *)
Ltac quiet_peel :=
  repeat first
    [ apply quiet_refl
    | eassumption
    | eapply quiet_trans; [|apply quiet_tick]
    | eapply quiet_trans; [|apply quiet_update_event]
    | eapply quiet_trans; [|apply quiet_kubeletClient]
    | eapply quiet_trans; [|apply quiet_registryClient]
    | eapply quiet_trans; [|apply quiet_scheduledJobs]
    | eapply quiet_trans; [|apply quiet_cron_delete]
    | eapply quiet_trans; [|apply quiet_cron_insert; simpl; congruence]
    | eapply quiet_trans; [|apply quiet_backups_delete]
    | eapply quiet_trans; [|apply quiet_heap_store; simpl; rewrite ?length_app; simpl; lia]
    | eapply quiet_trans; [|apply quiet_alloc; simpl; lia] ].

Section Reconciliation.

Variable env : Env.

Lemma initializeClients_shape backup w :
  spec (initializeClients env backup) w (fun _ w' =>
    exists kc rc t, w' = with_tick (fun _ => t) (with_registryClient rc (with_kubeletClient kc w))).
Proof.
  unfold initializeClients, NewKubeletClient, NewRegistryClient, getSecret. wp.
  all: lazymatch goal with
       | |- exists kc rc t, ?W = _ =>
           exists (w_kubeletClient W), (w_registryClient W), (w_tick W);
           by destruct w
       end.
Qed.

(** *** [Update] *)

Lemma deref_insert_eq w p b :
  p < length (w_heap w) -> deref (with_heap (fun h => <[p := b]> h) w) p = b.
Proof. intros Hp. rewrite deref_insert. by rewrite bool_decide_eq_true_2. Qed.

Lemma update_spec n p ns name b w :
  n <= p -> synced w p ns name b ->
  spec (update env p) w (fun r w' =>
    quiet n w w' /\ same_sched w w' /\ named w' p ns name b
    /\ (r = Ok UpdOk ->
        cb_deletionTimestamp b = None \/ cb_finalizers (deref w p) <> [] ->
        synced w' p ns name b
        /\ exists c', w_backups w' !! (ns, name) = Some c'
                      /\ cb_finalizers c' = cb_finalizers (deref w p)
                      /\ cb_deletionTimestamp c' = cb_deletionTimestamp b)
    /\ (api_reliable env -> r = Ok UpdOk)).
Proof.
  intros Hn (Hp & Hk & Hsp & Hst & Hdel & c & Hc & Hcs & Hcst & Hcd).
  unfold key_of in Hk. injection Hk as Hns Hname. subst ns name.
  unfold update. wp; simpl in *; simplify_eq.
  - split_and!.
    + quiet_peel.
    + done.
    + split_and!; [simpl; by rewrite length_insert|by rewrite deref_insert_eq..].
    + intros _ Hor. apply bool_decide_eq_true in Heqb0 as [Hd Hf].
      destruct Hor; congruence.
    + done.
  - split_and!.
    + eapply quiet_trans; [|apply quiet_heap_store; lia].
      eapply quiet_trans; [|eapply quiet_backups_insert; [simpl; exact Hc|simpl; congruence..]].
      quiet_peel.
    + done.
    + split_and!; [simpl; by rewrite length_insert|by rewrite deref_insert_eq..].
    + intros _ _. split.
      * split_and!; rewrite ?deref_insert_eq by done; try done.
        -- simpl. by rewrite length_insert.
        -- eexists. simpl. rewrite lookup_insert_eq. by split_and!.
      * eexists. simpl. rewrite lookup_insert_eq. by split_and!.
    + done.
  - split_and!; [quiet_peel|done|done|done|].
    intros Hrel. destruct (Hrel (w_tick w)). congruence.
  - split_and!; [quiet_peel|done|done|done|].
    intros Hrel. destruct (Hrel (w_tick w)). congruence.
Qed.

(** *** The finalizer *)

Lemma synced_store w p ns name b c :
  synced w p ns name b ->
  key_of c = key_of (deref w p) -> cb_spec c = cb_spec (deref w p) ->
  cb_status c = cb_status (deref w p) ->
  cb_deletionTimestamp c = cb_deletionTimestamp (deref w p) ->
  synced (with_heap (fun h => <[p := c]> h) w) p ns name b.
Proof.
  intros (Hp & Hk & Hsp & Hst & Hdel & Hc) Ek Es Et Ed.
  split_and!; rewrite ?deref_insert_eq by done; try congruence; try done.
  simpl. by rewrite length_insert.
Qed.

Lemma ensureFinalizer_spec n p ns name b w :
  n <= p -> synced w p ns name b ->
  spec (ensureFinalizer env p) w (fun r w' =>
    quiet n w w' /\ same_sched w w' /\ named w' p ns name b
    /\ (r = Ok tt -> synced w' p ns name b)
    /\ (r = Ok tt ->
        (forall c, w_backups w !! (ns, name) = Some c ->
                   cb_finalizers c = cb_finalizers (deref w p)) ->
        exists c', w_backups w' !! (ns, name) = Some c'
                   /\ ContainsFinalizer c' CheckpointBackupFinalizer = true
                   /\ cb_deletionTimestamp c' = cb_deletionTimestamp b)
    /\ (ContainsFinalizer (deref w p) CheckpointBackupFinalizer = true -> r = Ok tt /\ w' = w)
    /\ (api_reliable env -> r = Ok tt)).
Proof.
  intros Hn Hs. unfold ensureFinalizer. wp.
  2:{ apply negb_false_iff in Heqb0.
      pose proof Hs as (? & ? & ? & ? & ? & c & Hc & ? & ? & ?).
      split_and!; try done; [apply quiet_refl|].
      intros _ Hfin. exists c. split_and!; try done.
      unfold ContainsFinalizer in *. by rewrite (Hfin c Hc). }
  apply negb_true_iff in Heqb0.
  set (w0 := with_heap _ w).
  assert (quiet n w w0) as Q0 by (subst w0; quiet_peel).
  assert (synced w0 p ns name b) as S0.
  { apply synced_store; [done|unfold AddFinalizer; by rewrite Heqb0..]. }
  assert (cb_finalizers (deref w0 p) <> []) as F0.
  { subst w0. rewrite deref_insert_eq by apply Hs. unfold AddFinalizer. rewrite Heqb0. simpl.
    by destruct (cb_finalizers (deref w p)). }
  wp_call (update_spec n p ns name b); [done|done|].
  intros r w1 (Q1 & Sch & Nm & Sy & Rel).
  assert (quiet n w w1) as Q by by eapply quiet_trans.
  assert (ContainsFinalizer (deref w0 p) CheckpointBackupFinalizer = true) as Hin.
  { subst w0. rewrite deref_insert_eq by apply Hs. unfold AddFinalizer. rewrite Heqb0.
    unfold ContainsFinalizer. simpl. apply bool_decide_eq_true.
    apply elem_of_app. right. by apply list_elem_of_singleton. }
  destruct r as [[| |]|]; wp; split_and!; try done.
  all: try (intros Hrel; by specialize (Rel Hrel)).
  all: try (intros Hf; rewrite Hf in Heqb0; discriminate).
  - intros _. by apply Sy; auto.
  - intros _ _. destruct (Sy eq_refl (or_intror F0)) as [_ (c' & Hc' & Hf & Hd)].
    exists c'. split_and!; try done. unfold ContainsFinalizer in *. by rewrite Hf.
Qed.

(** *** The scheduler *)

Lemma removeScheduledJob_quiet n key w :
  spec (removeScheduledJob key) w (fun r w' =>
    quiet n w w' /\ w_heap w' = w_heap w /\ w_backups w' = w_backups w
    /\ w_trace w' = w_trace w /\ exists removed, r = Ok removed).
Proof. unfold removeScheduledJob. wp; (split_and!; [quiet_peel|done..|eauto]). Qed.

Lemma synced_same w w' p ns name b :
  w_heap w' = w_heap w -> w_backups w' = w_backups w ->
  synced w p ns name b -> synced w' p ns name b.
Proof. unfold synced. intros Hh Hb. by rewrite (deref_same w w' p Hh), Hh, Hb. Qed.

Lemma synced_named w p ns name b : synced w p ns name b -> named w p ns name b.
Proof. intros (? & ? & ? & ? & ?). by split_and!. Qed.

(** *** Deletion *)

Lemma reconcileDelete_spec n p ns name b w :
  n <= p -> synced w p ns name b ->
  spec (reconcileDelete env p) w (fun _ w' => quiet n w w' /\ named w' p ns name b).
Proof.
  intros Hn Hs. unfold reconcileDelete. wp.
  wp_call (removeScheduledJob_quiet n). intros r w1 (Q1 & Hh & Hb & _ & removed & ->).
  apply (synced_same w w1) in Hs; [|done..].
  wp. set (w2 := with_heap _ w1).
  assert (quiet n w w2) as Q2 by (subst w2; quiet_peel).
  assert (synced w2 p ns name b) as S2 by by apply synced_store.
  wp_call (update_spec n p ns name b); [done|done|].
  intros r w3 (Q3 & _ & Nm & _).
  assert (quiet n w w3) as Q by by eapply quiet_trans.
  destruct r as [[| |]|]; by wp.
Qed.

(** *** The node check *)

Lemma isPodOnThisNode_shape p w :
  spec (isPodOnThisNode env p) w (fun r w' =>
    w' = with_tick S w
    /\ (r = Ok true ->
        exists pod, w_pods w !! (pr_namespace (sp_podRef (cb_spec (deref w p))),
                                 pr_name (sp_podRef (cb_spec (deref w p)))) = Some pod
                    /\ pod_nodeName pod = env_nodeName env)
    /\ (api_reliable env ->
        forall pod, w_pods w !! (pr_namespace (sp_podRef (cb_spec (deref w p))),
                                 pr_name (sp_podRef (cb_spec (deref w p)))) = Some pod ->
                    pod_nodeName pod = env_nodeName env -> r = Ok true)).
Proof.
  unfold isPodOnThisNode, getPod. wp; simpl in *.
  all: repeat case_match; simplify_eq.
  all: split_and!; try done.
  all: try (intros Hrel; destruct (Hrel (w_tick w)); congruence).
  - intros [= Hn%bool_decide_eq_true]. eauto.
  - intros _ pod Hpod Hn. simplify_eq. simpl. by rewrite bool_decide_eq_true_2.
Qed.

(** *** The guard of the pipeline *)

Lemma performCheckpoint_guarded p w :
  guarded (st_phase (cb_status (deref w p))) -> performCheckpoint env p w = (Ok tt, w).
Proof.
  intros Hg. unfold performCheckpoint, mbind, StateErr_bind, load, gets. simpl.
  by rewrite bool_decide_eq_true_2.
Qed.

Lemma reconcileNormal_quiescent p ns name b w :
  synced w p ns name b -> quiescent b ->
  spec (reconcileNormal env p) w (fun _ w' =>
    quiet p w w' /\ w_trace w' = w_trace w /\ w_backups w' = w_backups w
    /\ w_heap w' = w_heap w).
Proof.
  intros (Hp & Hk & Hsp & Hst & Hdel & Hc) Hq. unfold reconcileNormal.
  apply spec_bind, spec_load. rewrite Hsp, Hst. wp.
  - split_and!; [apply quiet_refl|done..].
  - exfalso. apply bool_decide_eq_true in Heqb0. apply bool_decide_eq_false in Heqb1.
    destruct Hq as [[Hg|[Hg|Hg]]|[_ Hne]]; try done.
    all: rewrite Hg in Heqb1; by apply Heqb1.
  - wp_call (removeScheduledJob_quiet p). intros r w1 (Q1 & Hh & Hb & Ht & removed & ->).
    unfold AddFunc. wp.
    all: try (split_and!; [quiet_peel|done..]).
    all: apply bool_decide_eq_false in Heqb0.
    all: assert (guarded (st_phase (cb_status b))) as Hg by (destruct Hq as [|[? _]]; done).
    all: match goal with
         | |- spec (performCheckpoint _ _) ?W _ =>
             unfold spec; rewrite (performCheckpoint_guarded p W)
         end.
    all: try (simpl; split_and!; [quiet_peel|done..]).
    rewrite <- Hst in Hg. unfold deref in *. simpl. by rewrite Hh.
Qed.

(** *** The start of [Reconcile] *)

Lemma initializeClients_ready p w :
  spec (initializeClients env p) w (fun r w' =>
    clients_ready env w (deref w p) -> r = Ok tt).
Proof.
  unfold initializeClients, NewKubeletClient. wp; unfold deref in *; simpl in *; try done.
  all: intros [[[? ?]|[? ?]] [?|[? ?]]]; congruence.
Qed.

(** From the object read to the dispatch: the object is put in memory at a
    fresh pointer, the clients are made and the finalizer is added. *)
Lemma prepare_spec {A} ns name b (rest : nat -> M A) w (Q : Res A -> World -> Prop) :
  w_backups w !! (ns, name) = Some b ->
  (forall e w',
     quiet (length (w_heap w)) w w' -> named w' (length (w_heap w)) ns name b ->
     (ContainsFinalizer b CheckpointBackupFinalizer = true ->
      w_trace w' = w_trace w /\ w_backups w' = w_backups w) ->
     (api_reliable env -> clients_ready env w b -> False) ->
     Q (Err e) w') ->
  (forall w',
     quiet (length (w_heap w)) w w' -> synced w' (length (w_heap w)) ns name b ->
     same_sched w w' ->
     (ContainsFinalizer b CheckpointBackupFinalizer = true ->
      w_trace w' = w_trace w /\ w_backups w' = w_backups w) ->
     (exists c', w_backups w' !! (ns, name) = Some c'
                 /\ ContainsFinalizer c' CheckpointBackupFinalizer = true
                 /\ cb_deletionTimestamp c' = cb_deletionTimestamp b) ->
     spec (rest (length (w_heap w))) w' Q) ->
  spec (alloc (backupAt ns name b) ≫= fun checkpointBackup =>
        initializeClients env checkpointBackup ≫= fun _ =>
        ensureFinalizer env checkpointBackup ≫= fun _ => rest checkpointBackup) w Q.
Proof.
  intros Hb Herr Hok. apply spec_bind, spec_alloc.
  set (n := length (w_heap w)) in *. set (w1 := with_heap _ w).
  assert (deref w1 n = backupAt ns name b) as Hd by apply deref_alloc.
  assert (n < length (w_heap w1)) as Hn.
  { subst w1. simpl. rewrite length_app. simpl. lia. }
  assert (synced w1 n ns name b) as S1.
  { split_and!; rewrite ?Hd; try done. by exists b. }
  assert (quiet n w w1) as Q1 by (subst w1; quiet_peel).
  apply spec_bind. eapply spec_mono.
  { apply spec_and; [apply initializeClients_shape|apply initializeClients_ready]. }
  intros r w2 [(kc & rc & t & ->) Hready]. rewrite Hd in Hready.
  set (w2 := with_tick _ _).
  assert (synced w2 n ns name b) as S2 by by apply (synced_same w1).
  assert (quiet n w w2) as Q2 by (subst w2; quiet_peel).
  destruct r as [[]|e].
  2:{ apply Herr; [done|by apply synced_named|done|].
      intros _ Hcl. by specialize (Hready Hcl). }
  apply spec_bind. wp_call (ensureFinalizer_spec n n ns name b); [done|done|].
  intros r w3 (Q3 & Sch & Nm & Sy & Fin & Same & Rel).
  assert (quiet n w w3) as Q03 by by eapply quiet_trans.
  assert (ContainsFinalizer b CheckpointBackupFinalizer = true ->
          w_trace w3 = w_trace w /\ w_backups w3 = w_backups w) as Hsame.
  { intros Hf. destruct Same as [_ ->]; [|done].
    replace (deref w2 n) with (backupAt ns name b) by (symmetry; apply Hd). done. }
  destruct r as [[]|e].
  - apply Hok; auto. apply Fin; [done|].
    intros c Hc. assert (c = b) as -> by (simpl in Hc; congruence).
    change (deref w2 n) with (deref w1 n). by rewrite Hd.
  - apply Herr; try done. intros Hrel _. by specialize (Rel Hrel).
Qed.

(** *** Reconciles that capture nothing *)

Lemma Reconcile_quiet ns name w :
  (forall b, w_backups w !! (ns, name) = Some b -> not_local env w b \/ quiescent b) ->
  spec (Reconcile env ns name) w (fun _ w' =>
    quiet (length (w_heap w)) w w'
    /\ (forall b, w_backups w !! (ns, name) = Some b ->
        ContainsFinalizer b CheckpointBackupFinalizer = true ->
        cb_deletionTimestamp b = None ->
        w_trace w' = w_trace w /\ w_backups w' = w_backups w)
    /\ (forall b, w_backups w !! (ns, name) = Some b ->
        length (w_heap w) < length (w_heap w') -> named w' (length (w_heap w)) ns name b)
    /\ (w_backups w !! (ns, name) = None -> w_heap w' = w_heap w)).
Proof.
  intros Hskip. unfold Reconcile, getBackup.
  apply spec_bind, spec_bind, spec_tick.
  destruct (env_get env (w_tick w)) as [e|].
  { wp. split_and!; [quiet_peel|done| |done]. simpl. lia. }
  apply spec_bind, spec_gets, spec_ret. simpl.
  destruct (w_backups w !! (ns, name)) as [b|] eqn:Hb.
  2:{ apply spec_bind. wp_call (removeScheduledJob_quiet (length (w_heap w))).
      intros r w1 (Q1 & Hh & _ & _ & removed & ->). wp.
      split_and!; [eapply quiet_trans; [|exact Q1]; quiet_peel|done|done|by rewrite Hh]. }
  specialize (Hskip b eq_refl).
  set (n := length (w_heap w)).
  assert (quiet n w (with_tick S w)) as Q0 by quiet_peel.
  apply (prepare_spec ns name b); [done| |]; simpl; fold n.
  { intros e w' Q1 Nm Hsame _. split_and!.
    - by eapply quiet_trans.
    - intros b' ? Hf _. simplify_eq. by apply Hsame.
    - intros b' ? _. by simplify_eq.
    - done. }
  intros w1 Q1 S1 Sch Hsame _.
  assert (quiet n w w1) as Q01 by by eapply quiet_trans.
  pose proof S1 as (Hp & Hk & Hsp & Hst & Hdel & Hc).
  apply spec_bind, spec_load. cbv beta. rewrite Hdel, Hst.
  destruct (cb_deletionTimestamp b) as [ts|] eqn:Hdt; simpl.
  { wp_call (reconcileDelete_spec n n ns name b); [done|done|].
    intros r w2 [Q2 Nm]. split_and!; [by eapply quiet_trans| | |done].
    - intros b' ? _ ?. by simplify_eq.
    - intros b' ? _. by simplify_eq. }
  assert (forall w2, quiet n w1 w2 -> w_trace w2 = w_trace w1 -> w_backups w2 = w_backups w1 ->
            w_heap w2 = w_heap w1 ->
            quiet n w w2
            /\ (forall b0, Some b = Some b0 ->
                ContainsFinalizer b0 CheckpointBackupFinalizer = true ->
                cb_deletionTimestamp b0 = None ->
                w_trace w2 = w_trace w /\ w_backups w2 = w_backups w)
            /\ (forall b0, Some b = Some b0 ->
                n < length (w_heap w2) -> named w2 n ns name b0)
            /\ (Some b = None -> w_heap w2 = w_heap w)) as Hend.
  { intros w2 Q2 Ht Hbk Hh. split_and!.
    - by eapply quiet_trans.
    - intros b' ? Hf _. simplify_eq. rewrite Ht, Hbk. by apply Hsame.
    - intros b' ? _. simplify_eq. apply synced_named. by apply (synced_same w1).
    - done. }
  wp.
  { apply Hend; try done. apply quiet_refl. }
  wp_call isPodOnThisNode_shape. intros r w2 (-> & Hloc & _).
  destruct r as [[|]|e]; simpl.
  - destruct Hskip as [Hnl|Hq].
    + exfalso. destruct (Hloc eq_refl) as (pod & Hpod & Hnode).
      unfold not_local in Hnl. rewrite Hsp in Hpod.
      rewrite (s_pods _ _ (q_still _ _ _ Q01)) in Hpod. rewrite Hpod in Hnl. done.
    + wp_call (reconcileNormal_quiescent n ns name b); [by apply (synced_same w1)|done|].
      intros r w3 (Q3 & Ht & Hbk & Hh). apply Hend; try done.
      eapply quiet_trans; [|exact Q3]. quiet_peel.
  - wp. apply (Hend (with_tick S w1)); try done. quiet_peel.
  - apply (Hend (with_tick S w1)); try done. quiet_peel.
Qed.

(** One step on a settled request captures nothing and leaves it settled. *)
Lemma step_settled ns name w w' :
  settled ns name w -> step env ns name w w' -> still w w' /\ settled ns name w'.
Proof.
  intros (Hst & Hval & Hg) Hstep. destruct Hstep as [w|w entryID entry He Hk].
  - pose proof (Reconcile_quiet ns name w) as H. unfold spec in H.
    destruct H as (Q & _ & Nm & Hnone).
    { intros b Hb. right. left. by apply Hst. }
    set (w' := (Reconcile env ns name w).2) in *.
    split; [apply Q|]. split_and!.
    + intros c' Hc'. destruct (s_store _ _ (q_still _ _ _ Q) _ _ Hc') as (c & Hc & -> & _).
      by apply Hst.
    + intros id e Hid. destruct (q_cron _ _ _ Q _ _ Hid) as [Hold|[-> ?]]; [|done].
      pose proof (q_len _ _ _ Q). specialize (Hval _ _ Hold). lia.
    + intros id e Hid Hkey. destruct (q_cron _ _ _ Q _ _ Hid) as [Hold|[Hn Hlt]].
      * rewrite (q_heap _ _ _ Q) in * by by eapply Hval. by eapply Hg.
      * rewrite Hn in *. destruct (w_backups w !! (ns, name)) as [b|] eqn:Hb.
        -- destruct (Nm b eq_refl Hlt) as (_ & _ & ->). by apply Hst.
        -- rewrite Hnone in Hlt by done. lia.
  - assert ((runEntry env entryID w).2 = w) as ->; [|by split; [apply still_refl|]].
    unfold runEntry, mbind, StateErr_bind, gets, try. simpl. rewrite He.
    rewrite performCheckpoint_guarded; [done|]. by eapply Hg.
Qed.

(** C2. A request whose phase is [Completed], [CompletedPodDeleted] or
    [CompletedWithError] is never processed again: from a world where the
    request is stored with such a phase and the closures of the scheduler
    hold it with such a phase, any sequence of reconciles of the request and
    of firings of entries that captured it issues no call but [Update]s of
    the object, leaves pods and files alone, leaves every stored object with
    the status and the spec it had, and ends in a world of the same kind.
    [Failed] is not among these phases. *)
Theorem guarded_request_never_reprocessed ns name w w' :
  settled ns name w -> rtc (step env ns name) w w' ->
  still w w' /\ settled ns name w'.
Proof.
  intros Hs Hsteps. induction Hsteps as [w|w1 w2 w3 H12 _ IH].
  - split; [apply still_refl|done].
  - destruct (step_settled ns name w1 w2 Hs H12) as [S12 Hs2].
    destruct (IH Hs2) as [S23 Hs3]. split; [by eapply still_trans|done].
Qed.

(** C1. When the pod of a request is not on the node of this engine, or is
    not stored, a reconcile of the request captures nothing and writes no
    status: it issues no call but [Update]s of the object, leaves pods and
    files alone, and leaves every stored object with the status and the spec
    it had.  The [Update] that adds the finalizer comes before the node
    check; when the object carries the finalizer and is not being deleted,
    the reconcile issues no call at all and the store is what it was. *)
Theorem nonlocal_reconcile_writes_no_status ns name b w :
  w_backups w !! (ns, name) = Some b ->
  not_local env w b ->
  still w (Reconcile env ns name w).2
  /\ (ContainsFinalizer b CheckpointBackupFinalizer = true ->
      cb_deletionTimestamp b = None ->
      w_trace (Reconcile env ns name w).2 = w_trace w
      /\ w_backups (Reconcile env ns name w).2 = w_backups w).
Proof.
  intros Hb Hnl. pose proof (Reconcile_quiet ns name w) as H. unfold spec in H.
  destruct H as (Q & Hsame & _).
  { intros b' Hb'. left. by simplify_eq. }
  split; [apply Q|]. intros Hf Hd. by apply (Hsame b).
Qed.

(** *** The call to the node agent *)

(** [performCheckpoint] on a request it has to capture, whose pod is
    running: the containers one after the other, then the end of the
    pipeline. *)
Lemma performCheckpoint_run backup pod w :
  env_get env (w_tick w) = None ->
  ~ guarded (st_phase (cb_status (deref w backup))) ->
  ~ in_progress (st_phase (cb_status (deref w backup))) ->
  w_pods w !! (pr_namespace (sp_podRef (cb_spec (deref w backup))),
               pr_name (sp_podRef (cb_spec (deref w backup)))) = Some pod ->
  pod_phase pod = PodRunning ->
  let b := deref w backup in
  let pod' := podAt (pr_namespace (sp_podRef (cb_spec b))) (pr_name (sp_podRef (cb_spec b))) pod in
  performCheckpoint env backup w
  = (checkpointContainers env backup pod' (containersToProcess b pod');;
     completeCheckpoint env backup pod') (with_tick S w).
Proof.
  intros Hget Hg Hp Hpod Hrun. cbv zeta.
  unfold performCheckpoint at 1. unfold getPod, load, gets, tick.
  unfold mbind at 1 2 3 4. unfold StateErr_bind. simpl.
  rewrite (bool_decide_eq_false_2 _ Hg), (bool_decide_eq_false_2 _ Hp). simpl.
  rewrite Hget. simpl. rewrite Hpod. simpl.
  rewrite bool_decide_eq_false_2 by (intros Hne; by apply Hne). done.
Qed.

Lemma asks_agent_before s (A : Event -> Prop) b containerName w w1 w2 :
  frame s A w w1 -> asks_agent b containerName w1 w2 -> asks_agent b containerName w w2.
Proof.
  intros F (evs & Htr & Hin). destruct (fr_trace _ _ _ _ F) as (evs0 & Htr0 & _).
  exists (evs ++ evs0)%list. split; [by rewrite Htr, Htr0, app_assoc|].
  apply elem_of_app. by left.
Qed.

Lemma asks_agent_after s (A : Event -> Prop) b containerName w w1 w2 :
  asks_agent b containerName w w1 -> frame s A w1 w2 -> asks_agent b containerName w w2.
Proof.
  intros (evs & Htr & Hin) F. destruct (fr_trace _ _ _ _ F) as (evs1 & Htr1 & _).
  exists (evs1 ++ evs)%list. split; [by rewrite Htr1, Htr, app_assoc|].
  apply elem_of_app. by right.
Qed.

Lemma CreateCheckpoint_asks_agent b containerName w :
  spec (CreateCheckpoint env (pr_namespace (sp_podRef (cb_spec b)))
          (pr_name (sp_podRef (cb_spec b))) containerName) w
       (fun _ w' => asks_agent b containerName w w').
Proof.
  unfold CreateCheckpoint. wp.
  all: eexists [_]; split; [done|]; apply list_elem_of_here.
Qed.

(** A container without a recorded checkpoint file is asked of the node
    agent, whatever comes of it. *)
Lemma checkpointContainer_asks_agent backup pod container w :
  getCheckpointFilePath (deref w backup) (c_name container) = None ->
  spec (checkpointContainer env backup pod container) w
       (fun _ w' => asks_agent (deref w backup) (c_name container) w w').
Proof.
  intros Hnone. unfold checkpointContainer. apply spec_bind, spec_load, spec_bind, spec_gets.
  unfold resumeCheck. rewrite Hnone. cbv iota beta.
  unfold createCheckpointIfMissing. rewrite bool_decide_eq_true_2 by done. cbv iota.
  wp. wp_call updatePhase_frame; [by compute|]. intros r1 w1 F1.
  wp. wp_call CreateCheckpoint_asks_agent. intros r2 w2 A2.
  apply (asks_agent_before _ _ _ _ _ _ _ F1) in A2.
  destruct r2 as [checkpointPath|e]; wp.
  - wp_call recordCheckpointFile_frame. intros r3 w3 F3.
    apply (fun A => asks_agent_after _ _ _ _ _ _ _ A F3) in A2.
    wp. wp_call updatePhase_frame; [by compute|]. intros r4 w4 F4.
    apply (fun A => asks_agent_after _ _ _ _ _ _ _ A F4) in A2.
    wp. wp_call buildAndPush_spec. intros r5 w5 [F5 _].
    apply (fun A => asks_agent_after _ _ _ _ _ _ _ A F5) in A2. by destruct r5.
  - wp_call updatePhase_frame; [by compute|]. intros r3 w3 F3.
    apply (fun A => asks_agent_after _ _ _ _ _ _ _ A F3) in A2. by wp.
Qed.

(** [performCheckpoint] on a request it has to capture, whose pod is
    running: the first container of its list, when no checkpoint file is
    recorded for it, is asked of the node agent. *)
Lemma performCheckpoint_asks_agent backup pod container rest w :
  env_get env (w_tick w) = None ->
  ~ guarded (st_phase (cb_status (deref w backup))) ->
  ~ in_progress (st_phase (cb_status (deref w backup))) ->
  w_pods w !! (pr_namespace (sp_podRef (cb_spec (deref w backup))),
               pr_name (sp_podRef (cb_spec (deref w backup)))) = Some pod ->
  pod_phase pod = PodRunning ->
  containersToProcess (deref w backup)
    (podAt (pr_namespace (sp_podRef (cb_spec (deref w backup))))
       (pr_name (sp_podRef (cb_spec (deref w backup)))) pod) = container :: rest ->
  getCheckpointFilePath (deref w backup) (c_name container) = None ->
  spec (performCheckpoint env backup) w
       (fun _ w' => asks_agent (deref w backup) (c_name container) w w').
Proof.
  intros Hget Hg Hp Hpod Hrun Hlist Hnone.
  pose proof (performCheckpoint_run backup pod w Hget Hg Hp Hpod Hrun) as E.
  cbv zeta in E. unfold spec. rewrite E, Hlist. clear E.
  set (pod' := podAt _ _ pod). set (w0 := with_tick S w).
  change (spec (checkpointContainers env backup pod' (container :: rest);;
                completeCheckpoint env backup pod') w0
            (fun _ w' => asks_agent (deref w0 backup) (c_name container) w0 w')).
  cbn [checkpointContainers].
  apply spec_bind, spec_bind. wp_call checkpointContainer_asks_agent; [done|].
  intros r1 w1 A1. destruct r1 as [[]|e]; [|done].
  wp_call checkpointContainers_spec. intros r2 w2 [F2 _].
  apply (fun A => asks_agent_after _ _ _ _ _ _ _ A F2) in A1.
  destruct r2 as [[]|e]; [|done].
  wp_call completeCheckpoint_spec. intros r3 w3 [F3 _].
  by apply (fun A => asks_agent_after _ _ _ _ _ _ _ A F3) in A1.
Qed.

(** *** The first reconcile of an immediate request *)

Lemma others_app tr1 tr2 : others (tr1 ++ tr2) = (others tr1 ++ others tr2)%list.
Proof. apply List.filter_app. Qed.

Lemma containersToProcess_spec b b' pod :
  cb_spec b' = cb_spec b -> containersToProcess b' pod = containersToProcess b pod.
Proof. unfold containersToProcess. by intros ->. Qed.

Lemma Reconcile_first ns name b w :
  api_reliable env -> clients_ready env w b ->
  w_backups w !! (ns, name) = Some b ->
  sp_schedule (cb_spec b) = "immediately" ->
  st_phase (cb_status b) = "" -> st_checkpointFiles (cb_status b) = [] ->
  cb_deletionTimestamp b = None ->
  pod_here env w b ->
  spec (Reconcile env ns name) w (fun _ w' =>
    at_rest ns name w'
    /\ forall pod container rest,
         w_pods w !! (pr_namespace (sp_podRef (cb_spec b)), pr_name (sp_podRef (cb_spec b)))
         = Some pod ->
         containersToProcess b
           (podAt (pr_namespace (sp_podRef (cb_spec b))) (pr_name (sp_podRef (cb_spec b))) pod)
         = container :: rest ->
         captures b (c_name container) w w').
Proof.
  intros Hrel Hcl Hb Himm Hph Hfiles Hdel (pod & Hpod & Hrun & Hnode).
  unfold Reconcile, getBackup.
  apply spec_bind, spec_bind, spec_tick.
  destruct (Hrel (w_tick w)) as [-> _].
  apply spec_bind, spec_gets, spec_ret. simpl. rewrite Hb.
  apply (prepare_spec ns name b); [done| |]; simpl.
  { intros e w' _ _ _ Hno. by destruct Hno. }
  intros w1 Q1 S1 Sch Hsame (c & Hc & Hfin & Hcd).
  pose proof S1 as (Hp & Hk & Hsp & Hst & Hd & c0 & Hc0 & Hcs & Hcst & _).
  assert (c0 = c) as -> by congruence.
  apply spec_bind, spec_load. cbv beta. rewrite Hd, Hst, Hdel, Hph. simpl.
  apply spec_bind. wp_call isPodOnThisNode_shape. intros r w2 (-> & _ & Hloc).
  assert (w_pods w1 = w_pods w) as Hpods by apply (s_pods _ _ (q_still _ _ _ Q1)).
  rewrite (Hloc Hrel pod); [|by rewrite Hsp, Hpods|done]. simpl.
  set (w2 := with_tick S w1).
  assert (deref w2 (length (w_heap w)) = deref w1 (length (w_heap w))) as Hd2 by done.
  unfold reconcileNormal. apply spec_bind, spec_load. cbv beta.
  rewrite Hd2, Hsp, Hst, Himm, Hph. simpl.
  assert (spec (performCheckpoint env (length (w_heap w))) w2 (fun _ w3 =>
            forall container rest,
              containersToProcess b
                (podAt (pr_namespace (sp_podRef (cb_spec b)))
                   (pr_name (sp_podRef (cb_spec b))) pod) = container :: rest ->
              asks_agent b (c_name container) w2 w3)) as Hasks.
  { unfold spec. intros container rest Hlist.
    pose proof (performCheckpoint_asks_agent (length (w_heap w)) pod container rest w2) as H.
    unfold spec, asks_agent in *. rewrite Hd2, Hsp in H. apply H.
    - by destruct (Hrel (w_tick w2)).
    - rewrite Hst, Hph. intros [?|[?|?]]; done.
    - rewrite Hst, Hph. intros [?|[?|[?|[?|[?|?]]]]]; done.
    - change (w_pods w2) with (w_pods w1). by rewrite Hpods.
    - done.
    - rewrite <- Hlist. by apply containersToProcess_spec.
    - unfold getCheckpointFilePath. by rewrite Hst, Hfiles. }
  apply spec_bind. eapply spec_mono; [apply spec_and; [apply performCheckpoint_spec|exact Hasks]|].
  intros r3 w3 [[F P] A].
  assert (at_rest ns name w3) as Hend.
  { destruct (fr_store _ _ _ _ F (ns, name) c Hc) as (c3 & Hc3 & Hs3 & Hf3 & Hd3 & _).
    exists c3. split_and!; [done|congruence| |by unfold ContainsFinalizer in *; rewrite Hf3|congruence].
    assert (phase_set (ns, name) w3) as (c3' & Hc3' & Hne); [|by simplify_eq].
    rewrite <- Hk, <- Hd2. apply P; rewrite ?Hd2, ?Hst, ?Hk; try done.
    all: first [by exists c|exists pod; rewrite Hsp; split; [simpl; by rewrite Hpods|done]]. }
  assert (forall pod0 container rest,
            w_pods w !! (pr_namespace (sp_podRef (cb_spec b)), pr_name (sp_podRef (cb_spec b)))
            = Some pod0 ->
            containersToProcess b
              (podAt (pr_namespace (sp_podRef (cb_spec b)))
                 (pr_name (sp_podRef (cb_spec b))) pod0) = container :: rest ->
            captures b (c_name container) w w3) as Hcap.
  { intros pod0 container rest Hpod0 Hlist. assert (pod0 = pod) as -> by congruence.
    destruct (A container rest Hlist) as (evs & Htr & Hin).
    exists (others evs). split.
    - rewrite Htr, others_app. f_equal. change (w_trace w2) with (w_trace w1).
      apply (s_others _ _ (q_still _ _ _ Q1)).
    - unfold others. apply list_elem_of_In, List.filter_In. split; [by apply list_elem_of_In|done]. }
  destruct r3 as [[]|e]; [by wp|done].
Qed.

(** Reconciles of an immediate request that is at rest change nothing. *)
Lemma Reconcile_at_rest ns name w :
  at_rest ns name w ->
  w_trace (Reconcile env ns name w).2 = w_trace w
  /\ w_backups (Reconcile env ns name w).2 = w_backups w
  /\ w_pods (Reconcile env ns name w).2 = w_pods w
  /\ w_files (Reconcile env ns name w).2 = w_files w.
Proof.
  intros (c & Hc & Himm & Hne & Hfin & Hdel).
  pose proof (Reconcile_quiet ns name w) as H. unfold spec in H.
  destruct H as (Q & Hsame & _).
  { intros b Hb. right. right. by simplify_eq. }
  destruct (Hsame c Hc Hfin Hdel) as [Ht Hb]. apply q_still in Q.
  split_and!; [done|done|apply (s_pods _ _ Q)|apply (s_files _ _ Q)].
Qed.

Lemma Reconcile_again ns name w m :
  at_rest ns name w ->
  at_rest ns name (Nat.iter m (fun w => (Reconcile env ns name w).2) w)
  /\ w_trace (Nat.iter m (fun w => (Reconcile env ns name w).2) w) = w_trace w
  /\ w_backups (Nat.iter m (fun w => (Reconcile env ns name w).2) w) = w_backups w
  /\ w_pods (Nat.iter m (fun w => (Reconcile env ns name w).2) w) = w_pods w
  /\ w_files (Nat.iter m (fun w => (Reconcile env ns name w).2) w) = w_files w.
Proof.
  intros Hrest. induction m as [|m (IH & Ht & Hb & Hp & Hf)]; [done|].
  simpl. set (wm := Nat.iter m _ w) in *.
  destruct (Reconcile_at_rest ns name wm IH) as (Ht' & Hb' & Hp' & Hf').
  split_and!; try congruence.
  unfold at_rest in *. by rewrite Hb'.
Qed.

(** C3. A fresh immediate request is captured once.  With a reliable API
    server, clients at hand, the pod of the request running on this node and
    no checkpoint file recorded, the first reconcile of a request whose phase
    is unset runs the pipeline: it asks the node agent for a checkpoint of
    the first container the request names or, when the request names none and
    has no registry, of the first container of the pod, and it leaves the
    stored phase set.  From then on, however many times the request is
    reconciled, nothing happens: no call is issued, and the store, the pods
    and the files stay what they were. *)
Theorem immediately_fires_once ns name b w m :
  api_reliable env -> clients_ready env w b ->
  w_backups w !! (ns, name) = Some b ->
  sp_schedule (cb_spec b) = "immediately" ->
  st_phase (cb_status b) = "" -> st_checkpointFiles (cb_status b) = [] ->
  cb_deletionTimestamp b = None ->
  pod_here env w b ->
  let w1 := (Reconcile env ns name w).2 in
  let wm := Nat.iter m (fun w => (Reconcile env ns name w).2) w1 in
  phase_set (ns, name) w1
  /\ (forall container rest,
        sp_containers (cb_spec b) = container :: rest ->
        captures b (c_name container) w w1)
  /\ (forall pod podContainer rest,
        w_pods w !! (pr_namespace (sp_podRef (cb_spec b)), pr_name (sp_podRef (cb_spec b)))
        = Some pod ->
        sp_containers (cb_spec b) = [] -> sp_registry (cb_spec b) = None ->
        pod_containers pod = podContainer :: rest ->
        captures b (pc_name podContainer) w w1)
  /\ w_trace wm = w_trace w1 /\ w_backups wm = w_backups w1
  /\ w_pods wm = w_pods w1 /\ w_files wm = w_files w1.
Proof.
  intros Hrel Hcl Hb Himm Hph Hfiles Hdel Hpod.
  pose proof (Reconcile_first ns name b w Hrel Hcl Hb Himm Hph Hfiles Hdel Hpod) as H.
  unfold spec in H. destruct H as [Hrest Hcap]. split; [|split; [|split]].
  - destruct Hrest as (c & Hc & _ & Hne & _). by exists c.
  - intros container rest Hlist. destruct Hpod as (pod & Hpod & _).
    apply (Hcap pod container rest Hpod).
    unfold containersToProcess. by rewrite Hlist.
  - intros pod podContainer rest Hpod' Hnone Hreg Hlist.
    apply (Hcap pod (mkContainer (pc_name podContainer) "")
             (map (fun c => mkContainer (pc_name c) "") rest) Hpod').
    unfold containersToProcess. rewrite Hnone, Hreg. simpl. by rewrite Hlist.
  - by apply Reconcile_again.
Qed.

(** *** The capture of a container *)


(** C6. The name of the image of a container is the image the request
    supplies only when a registry is configured and that image is not empty;
    in every other case, in particular for a supplied image without a
    registry, it is [localhost/checkpoint-{pod}-{container}:{timestamp}] for
    a time read from the clock.  The calls the capture of the container
    issues follow: an image is built and pushed under such a name only, and
    without a registry there is no login and no push. *)
Theorem image_name_rule backup pod container w :
  (exists img, (determineImageName env (deref w backup) container w).1 = Ok img
     /\ (sp_registry (cb_spec (deref w backup)) <> None -> c_image container <> "" ->
         img = c_image container)
     /\ (sp_registry (cb_spec (deref w backup)) = None \/ c_image container = "" ->
         exists t, img = "localhost/checkpoint-" ++ pr_name (sp_podRef (cb_spec (deref w backup)))
                         ++ "-" ++ c_name container ++ ":" ++ formatTimestamp (env_now env t)))
  /\ exists evs,
       w_trace (checkpointContainer env backup pod container w).2 = (evs ++ w_trace w)%list
       /\ (forall path img base, EvBuild path img base ∈ evs ->
           image_ok env (deref w backup) container img)
       /\ (forall img destination, EvPush img destination ∈ evs ->
           image_ok env (deref w backup) container img)
       /\ (sp_registry (cb_spec (deref w backup)) = None ->
           forall ev, ev ∈ evs ->
           match ev with EvLogin _ | EvPush _ _ => False | _ => True end).
Proof.
  split.
  - pose proof (determineImageName_spec env (deref w backup) container w) as H.
    unfold spec in H. destruct H as (_ & img & Himg & Hok). exists img. split; [done|].
    unfold image_ok in Hok. split.
    + intros Hreg Hne. destruct (sp_registry _); [|done]. simpl in Hok.
      by rewrite bool_decide_eq_false_2 in Hok.
    + intros [Hreg|He].
      * by rewrite Hreg in Hok.
      * rewrite He in Hok. rewrite bool_decide_eq_true_2 in Hok by done.
        by rewrite orb_true_r in Hok.
  - pose proof (checkpointContainer_spec env backup pod container w) as H. unfold spec in H.
    destruct H as (F & _). destruct (fr_trace _ _ _ _ F) as (evs & Hevs & Hall).
    exists evs. rewrite Forall_forall in Hall. split_and!; [done|..].
    + intros path img base Hin. apply (Hall _ Hin).
    + intros img d Hin. apply (Hall _ Hin).
    + intros Hreg ev Hin. specialize (Hall _ Hin). destruct ev; try done; simpl in Hall; tauto.
Qed.

(** *** The end of the pipeline *)

Lemma after_updatePhase_facts w p cur phase message :
  p < length (w_heap w) ->
  let w' := after_updatePhase w p cur phase message in
  deref w' p = set_status (deref w p) (set_phase (cb_status (deref w p)) phase message)
  /\ w_backups w' = <[key_of (deref w p) := set_status cur (set_phase (cb_status cur) phase message)]>
                      (w_backups w)
  /\ w_tick w' = S (S (w_tick w))
  /\ w_pods w' = w_pods w /\ w_cron w' = w_cron w /\ w_scheduledJobs w' = w_scheduledJobs w
  /\ length (w_heap w') = length (w_heap w).
Proof.
  intros Hp. unfold after_updatePhase. split_and!; try done.
  - by rewrite deref_insert_eq.
  - simpl. by rewrite length_insert.
Qed.

Lemma completeCheckpoint_stop backup pod w cur :
  api_reliable env ->
  shouldStopPod (deref w backup) = true ->
  w_backups w !! key_of (deref w backup) = Some cur ->
  spec (completeCheckpoint env backup pod) w (fun r w' =>
    let b := deref w backup in
    match env_delete env (3 + w_tick w) with
    | None =>
        r = Ok tt
        /\ w_pods w' !! (pod_namespace pod, pod_name pod) = None
        /\ w_scheduledJobs w' !! namespacedName (cb_namespace b) (cb_name b) = None
        /\ (forall entryID,
              w_scheduledJobs w !! namespacedName (cb_namespace b) (cb_name b) = Some entryID ->
              w_cron w' !! entryID = None)
        /\ exists c', w_backups w' !! key_of b = Some c'
             /\ st_phase (cb_status c') = PhaseCompletedPodDeleted
             /\ st_checkpointFiles (cb_status c') = st_checkpointFiles (cb_status cur)
             /\ st_builtImages (cb_status c') = st_builtImages (cb_status cur)
    | Some e =>
        r = Err e
        /\ w_pods w' = w_pods w
        /\ w_cron w' = w_cron w /\ w_scheduledJobs w' = w_scheduledJobs w
        /\ exists c', w_backups w' !! key_of b = Some c'
             /\ st_phase (cb_status c') = PhaseCompletedWithError
             /\ st_message (cb_status c') = "Checkpoint completed but failed to delete pod: " ++ e
             /\ st_checkpointFiles (cb_status c') = st_checkpointFiles (cb_status cur)
             /\ st_builtImages (cb_status c') = st_builtImages (cb_status cur)
    end).
Proof.
  intros Hrel Hstop Hcur.
  assert (backup < length (w_heap w)) as Hv.
  { apply deref_valid. intros E. by rewrite E in Hstop. }
  unfold completeCheckpoint, now. wp.
  set (w1 := with_heap _ _).
  assert (deref w1 backup
          = set_status (deref w backup)
              (set_lastCheckpointTime (cb_status (deref w backup)) (Some (env_now env (w_tick w)))))
    as Hd1 by (subst w1; by rewrite deref_insert_eq).
  assert (backup < length (w_heap w1)) as Hv1 by (subst w1; simpl; by rewrite length_insert).
  wp_call (updatePhase_ok env backup _ _ w1 cur); [done|by rewrite Hd1|].
  intros r w2 (-> & ->).
  destruct (after_updatePhase_facts w1 backup cur PhaseCompleted
              "All containers checkpointed successfully" Hv1)
    as (Hd2 & Hb2 & Ht2 & Hp2 & Hc2 & Hj2 & Hl2).
  set (w2 := after_updatePhase _ _ _ _ _) in *.
  set (cur2 := set_status cur _) in Hb2.
  change (3 + w_tick w) with (S (S (w_tick w1))). rewrite <- Ht2.
  apply spec_bind, spec_load. rewrite Hd2, Hd1.
  change (shouldStopPod _) with (shouldStopPod (deref w backup)). rewrite Hstop.
  cbn [set_status cb_namespace cb_name].
  assert (key_of (deref w1 backup) = key_of (deref w backup)) as Hk1 by by rewrite Hd1.
  assert (key_of (deref w2 backup) = key_of (deref w backup)) as Hk2 by by rewrite Hd2, Hd1.
  assert (w_backups w2 !! key_of (deref w backup) = Some cur2) as Hst2.
  { rewrite Hb2, Hk1. apply lookup_insert_eq. }
  assert (backup < length (w_heap w2)) as Hv2 by by rewrite Hl2.
  unfold deletePod. wp.
  - set (w3 := with_trace _ _).
    wp_call (updatePhase_ok env backup _ _ w3 cur2);
      [done|change (deref w3 backup) with (deref w2 backup); by rewrite Hk2|].
    intros r w4 (-> & ->). wp.
    destruct (after_updatePhase_facts w3 backup cur2 PhaseCompletedWithError
                ("Checkpoint completed but failed to delete pod: " ++ s) Hv2)
      as (_ & Hb4 & _ & Hp4 & Hc4 & Hj4 & _).
    split_and!; [done|by rewrite Hp4|by rewrite Hc4|by rewrite Hj4|].
    eexists. rewrite Hb4. change (deref w3 backup) with (deref w2 backup). rewrite Hk2.
    rewrite lookup_insert_eq. by split_and!.
  - set (w3 := with_pods _ _).
    assert (w_scheduledJobs w3 = w_scheduledJobs w) as Hj3 by exact Hj2.
    assert (forall w4, w_heap w4 = w_heap w2 -> w_backups w4 = w_backups w2 ->
              w_pods w4 = w_pods w3 ->
              w_scheduledJobs w4 !! namespacedName (cb_namespace (deref w backup))
                                      (cb_name (deref w backup)) = None ->
              (forall entryID,
                 w_scheduledJobs w !! namespacedName (cb_namespace (deref w backup))
                                        (cb_name (deref w backup)) = Some entryID ->
                 w_cron w4 !! entryID = None) ->
              spec (updatePhase env backup PhaseCompletedPodDeleted
                      "Checkpoint completed and pod deleted successfully") w4
                (fun r0 w'0 =>
                   r0 = Ok ()
                   /\ w_pods w'0 !! (pod_namespace pod, pod_name pod) = None
                   /\ w_scheduledJobs w'0 !! namespacedName (cb_namespace (deref w backup))
                                               (cb_name (deref w backup)) = None
                   /\ (forall entryID,
                         w_scheduledJobs w !! namespacedName (cb_namespace (deref w backup))
                                                (cb_name (deref w backup)) = Some entryID ->
                         w_cron w'0 !! entryID = None)
                   /\ exists c', w_backups w'0 !! key_of (deref w backup) = Some c'
                        /\ st_phase (cb_status c') = PhaseCompletedPodDeleted
                        /\ st_checkpointFiles (cb_status c') = st_checkpointFiles (cb_status cur)
                        /\ st_builtImages (cb_status c') = st_builtImages (cb_status cur))) as Hend.
    { intros w4 Hh4 Hb4 Hp4 Hj4 Hc4.
      assert (deref w4 backup = deref w2 backup) as Hd4 by by apply deref_same.
      wp_call (updatePhase_ok env backup _ _ w4 cur2); [done|by rewrite Hd4, Hk2, Hb4|].
      intros r w5 (-> & ->).
      destruct (after_updatePhase_facts w4 backup cur2 PhaseCompletedPodDeleted
                  "Checkpoint completed and pod deleted successfully")
        as (_ & Hb5 & _ & Hp5 & Hc5 & Hj5 & _); [by rewrite Hh4|].
      split_and!; [done| | | |].
      - rewrite Hp5, Hp4. subst w3. simpl. apply lookup_delete_eq.
      - by rewrite Hj5.
      - intros entryID Hid. rewrite Hc5. by apply Hc4.
      - eexists. rewrite Hb5, Hd4, Hk2, lookup_insert_eq. by split_and!. }
    unfold removeScheduledJob. wp.
    all: match goal with H : w_scheduledJobs (id ?W) !! _ = _ |- _ =>
           change (id W) with W in H; rewrite Hj3 in H end.
    + apply Hend; try done.
      * simpl. apply lookup_delete_eq.
      * intros entryID Hid. simpl. simplify_eq. apply lookup_delete_eq.
    + apply Hend; try done.
      intros entryID Hid. simplify_eq.
Qed.

(** C4. A request that asks to stop the pod, with a reliable API server and
    the pod running, when every container goes through the pipeline.  If the
    deletion of the pod succeeds, the pod is gone, the request has no entry
    in the scheduler any more, and the stored phase is
    [CompletedPodDeleted]; if it fails, [performCheckpoint] ends in that
    error, the stored phase is [CompletedWithError] with the error in the
    message, and pods and scheduler are what they were after the last
    container.  Either way the files and images recorded for the containers
    are kept. *)
Theorem stopPod_outcome backup pod cur w :
  api_reliable env ->
  shouldStopPod (deref w backup) = true ->
  ~ guarded (st_phase (cb_status (deref w backup))) ->
  ~ in_progress (st_phase (cb_status (deref w backup))) ->
  w_pods w !! (pr_namespace (sp_podRef (cb_spec (deref w backup))),
               pr_name (sp_podRef (cb_spec (deref w backup)))) = Some pod ->
  pod_phase pod = PodRunning ->
  w_backups w !! key_of (deref w backup) = Some cur ->
  let b := deref w backup in
  let podKey := (pr_namespace (sp_podRef (cb_spec b)), pr_name (sp_podRef (cb_spec b))) in
  let pod' := podAt podKey.1 podKey.2 pod in
  let captured := checkpointContainers env backup pod' (containersToProcess b pod')
                    (with_tick S w) in
  let out := performCheckpoint env backup w in
  captured.1 = Ok tt ->
  exists recorded,
    w_backups captured.2 !! key_of b = Some recorded
    /\ match env_delete env (3 + w_tick captured.2) with
       | None =>
           out.1 = Ok tt
           /\ w_pods out.2 !! podKey = None
           /\ w_scheduledJobs out.2 !! namespacedName (cb_namespace b) (cb_name b) = None
           /\ (forall entryID,
                 w_scheduledJobs captured.2 !! namespacedName (cb_namespace b) (cb_name b)
                 = Some entryID ->
                 w_cron out.2 !! entryID = None)
           /\ exists c', w_backups out.2 !! key_of b = Some c'
                /\ st_phase (cb_status c') = PhaseCompletedPodDeleted
                /\ st_checkpointFiles (cb_status c') = st_checkpointFiles (cb_status recorded)
                /\ st_builtImages (cb_status c') = st_builtImages (cb_status recorded)
       | Some e =>
           out.1 = Err e
           /\ w_pods out.2 = w_pods captured.2
           /\ w_cron out.2 = w_cron captured.2
           /\ w_scheduledJobs out.2 = w_scheduledJobs captured.2
           /\ exists c', w_backups out.2 !! key_of b = Some c'
                /\ st_phase (cb_status c') = PhaseCompletedWithError
                /\ st_message (cb_status c')
                   = "Checkpoint completed but failed to delete pod: " ++ e
                /\ st_checkpointFiles (cb_status c') = st_checkpointFiles (cb_status recorded)
                /\ st_builtImages (cb_status c') = st_builtImages (cb_status recorded)
       end.
Proof.
  intros Hrel Hstop Hg Hp Hpod Hrun Hcur. cbv zeta. intros Hok.
  destruct (Hrel (w_tick w)) as [Hget _].
  pose proof (performCheckpoint_run backup pod w Hget Hg Hp Hpod Hrun) as Hperf.
  cbv zeta in Hperf.
  set (b := deref w backup) in *.
  set (pod' := podAt _ _ pod) in *.
  pose proof (checkpointContainers_spec env backup pod' (containersToProcess b pod')
                (with_tick S w)) as H.
  unfold spec in H. destruct H as [F _].
  set (captured := checkpointContainers env backup pod' _ _) in *.
  destruct (fr_heap _ _ _ _ F backup) as [Hk Hs].
  change (deref (with_tick S w) backup) with b in Hk, Hs.
  destruct (fr_store _ _ _ _ F _ _ Hcur) as (recorded & Hrec & _).
  exists recorded. split; [done|].
  assert (shouldStopPod (deref captured.2 backup) = true) as Hstop1.
  { unfold shouldStopPod in *. by rewrite Hs. }
  pose proof (completeCheckpoint_stop backup pod' captured.2 recorded Hrel Hstop1) as H.
  unfold spec in H. rewrite Hk in H. specialize (H Hrec). cbv zeta in H.
  assert (cb_namespace (deref captured.2 backup) = cb_namespace b
          /\ cb_name (deref captured.2 backup) = cb_name b) as [Hns Hname].
  { unfold key_of in Hk. by simplify_eq. }
  rewrite Hns, Hname in H.
  assert (performCheckpoint env backup w = completeCheckpoint env backup pod' captured.2)
    as ->; [|exact H].
  rewrite Hperf. unfold mbind, StateErr_bind. fold captured.
  destruct captured as [r1 w1]. simpl in *. by subst r1.
Qed.

End Reconciliation.

End CEFacts.

(** * Instances

    The statements above at the objects of [Scenario]. *)

Section Instances.

Import CE CEProps CEFacts.

(** C1 as the specification states it fails: the pod of the request is on
    [node-b], and the reconcile on [node-a] stores the finalizer with an
    [Update] of the object. *)
Lemma nonlocal_reconcile_adds_finalizer :
  let b := Scenario.request "immediately" None None [] "" in
  let w := Scenario.world_of b (Scenario.pod_on "node-b") in
  let w' := (Reconcile Scenario.node "t" "cb1" w).2 in
  not_local Scenario.node w b
  /\ cb_finalizers b = [] /\ w_trace w = []
  /\ w_trace w' = [EvUpdate "t" "cb1" [CheckpointBackupFinalizer]]
  /\ cb_finalizers <$> w_backups w' !! ("t", "cb1") = Some [CheckpointBackupFinalizer].
Proof. split_and!; vm_compute; try reflexivity. intros [=]. Qed.

Lemma nonlocal_reconcile_writes_no_status_witness :
  let b := Scenario.request "immediately" None None [CheckpointBackupFinalizer] "" in
  let w := Scenario.world_of b (Scenario.pod_on "node-b") in
  w_backups w !! ("t", "cb1") = Some b
  /\ not_local Scenario.node w b
  /\ still w (Reconcile Scenario.node "t" "cb1" w).2
  /\ (ContainsFinalizer b CheckpointBackupFinalizer = true ->
      cb_deletionTimestamp b = None ->
      w_trace (Reconcile Scenario.node "t" "cb1" w).2 = w_trace w
      /\ w_backups (Reconcile Scenario.node "t" "cb1" w).2 = w_backups w).
Proof.
  cbv zeta.
  assert (w_backups (Scenario.world_of (Scenario.request "immediately" None None
                                          [CheckpointBackupFinalizer] "")
                       (Scenario.pod_on "node-b")) !! ("t", "cb1")
          = Some (Scenario.request "immediately" None None [CheckpointBackupFinalizer] ""))
    as H1 by (vm_compute; reflexivity).
  assert (not_local Scenario.node
            (Scenario.world_of (Scenario.request "immediately" None None
                                  [CheckpointBackupFinalizer] "")
               (Scenario.pod_on "node-b"))
            (Scenario.request "immediately" None None [CheckpointBackupFinalizer] ""))
    as H2 by (vm_compute; intros [=]).
  split; [exact H1|]. split; [exact H2|].
  exact (nonlocal_reconcile_writes_no_status Scenario.node "t" "cb1" _ _ H1 H2).
Defined.

(** C2 as the specification states it fails for [Failed]: a scheduled
    request in phase [Failed] goes through the pipeline again at a reconcile,
    and once more when its entry fires. *)
Lemma failed_request_is_reprocessed :
  let env := Scenario.node_with (Some "exit status 125") None None in
  let b := Scenario.request "*/5 * * * *" None None [CheckpointBackupFinalizer] PhaseFailed in
  let w := Scenario.world_of b (Scenario.pod_on "node-a") in
  let w1 := (Reconcile env "t" "cb1" w).2 in
  let w2 := (runEntry env 0 w1).2 in
  st_phase (cb_status b) = PhaseFailed
  /\ w_trace w = []
  /\ length (List.filter is_kubelet (w_trace w1)) = 1
  /\ length (List.filter is_build (w_trace w1)) = 1
  /\ st_message ∘ cb_status <$> w_backups w1 !! ("t", "cb1")
     = Some "Failed to build image: exit status 125"
  /\ w_cron w1 !! 0 = Some (mkCronEntry "*/5 * * * *" 0)
  /\ length (List.filter is_build (w_trace w2)) = 2
  /\ length (others (w_trace w2)) = 10.
Proof. split_and!; vm_compute; reflexivity. Qed.

Lemma guarded_request_never_reprocessed_witness :
  let b := Scenario.request "*/5 * * * *" None None [CheckpointBackupFinalizer] PhaseCompleted in
  let w := Scenario.world_of b (Scenario.pod_on "node-a") in
  let w1 := (Reconcile Scenario.node "t" "cb1" w).2 in
  let w2 := (runEntry Scenario.node 0 w1).2 in
  settled "t" "cb1" w /\ rtc (step Scenario.node "t" "cb1") w w2
  /\ still w w2 /\ settled "t" "cb1" w2.
Proof.
  cbv zeta.
  set (w := Scenario.world_of _ _).
  assert (settled "t" "cb1" w) as H1.
  { split_and!.
    - intros c Hc. vm_compute in Hc. injection Hc as <-. by left.
    - intros id e He. vm_compute in He. discriminate.
    - intros id e He. vm_compute in He. discriminate. }
  assert (rtc (step Scenario.node "t" "cb1") w
            (runEntry Scenario.node 0 (Reconcile Scenario.node "t" "cb1" w).2).2) as H2.
  { eapply rtc_l; [apply step_reconcile|]. eapply rtc_l; [|apply rtc_refl].
    apply (step_cron _ _ _ _ 0 (mkCronEntry "*/5 * * * *" 0)); vm_compute; reflexivity. }
  split; [exact H1|]. split; [exact H2|].
  exact (guarded_request_never_reprocessed Scenario.node "t" "cb1" _ _ H1 H2).
Defined.

(** C3 as the specification states it fails on immediate requests whose
    phase is unset.  When the API server refuses every update, the first
    reconcile goes through the pipeline and leaves the phase unset, and the
    second reconcile goes through the pipeline again.  When the pod runs on
    another node, when it is not running, or when no client of the node agent
    or of the registry can be made, no reconcile asks for a checkpoint and
    the phase stays unset.  When a checkpoint file is recorded, the pipeline resumes at the
    image, and where it fails before its first write of a phase, every
    reconcile runs it again. *)
Lemma refused_writes_capture_twice :
  let env := Situations.failing_from 0 None in
  let b := Scenario.request "immediately" None None [CheckpointBackupFinalizer] "" in
  let w := Scenario.world_of b (Scenario.pod_on "node-a") in
  let w1 := (Reconcile env "t" "cb1" w).2 in
  let w2 := (Reconcile env "t" "cb1" w1).2 in
  let twice env w := (Reconcile env "t" "cb1" (Reconcile env "t" "cb1" w).2).2 in
  let elsewhere := twice Scenario.node (Scenario.world_of b (Scenario.pod_on "node-b")) in
  let pending := twice Scenario.node (Scenario.world_of b Situations.pending_pod) in
  let clientless := twice Situations.without_token w in
  let uncredited :=
    twice Scenario.node
      (Scenario.world_of
         (Scenario.request "immediately" None (Some (mkRegistry "https://reg.example" None))
            [CheckpointBackupFinalizer] "")
         (Scenario.pod_on "node-a")) in
  let resumed := Reconcile Scenario.node "t" "cb1" Situations.resuming in
  sp_schedule (cb_spec b) = "immediately" /\ st_phase (cb_status b) = ""
  /\ w_trace w = []
  /\ List.filter is_kubelet (w_trace w1) = [EvKubelet "t" "app-0" "web"]
  /\ length (List.filter is_build (w_trace w1)) = 1
  /\ st_phase ∘ cb_status <$> w_backups w1 !! ("t", "cb1") = Some ""
  /\ List.filter is_kubelet (w_trace w2)
     = [EvKubelet "t" "app-0" "web"; EvKubelet "t" "app-0" "web"]
  /\ length (List.filter is_build (w_trace w2)) = 2
  /\ w_trace elsewhere = []
  /\ st_phase ∘ cb_status <$> w_backups elsewhere !! ("t", "cb1") = Some ""
  /\ w_trace pending = []
  /\ st_phase ∘ cb_status <$> w_backups pending !! ("t", "cb1") = Some ""
  /\ w_trace clientless = []
  /\ st_phase ∘ cb_status <$> w_backups clientless !! ("t", "cb1") = Some ""
  /\ w_trace uncredited = []
  /\ st_phase ∘ cb_status <$> w_backups uncredited !! ("t", "cb1") = Some ""
  /\ resumed.1 = Err "could not find base image for container sidecar"
  /\ (Reconcile Scenario.node "t" "cb1" resumed.2).1
     = Err "could not find base image for container sidecar"
  /\ st_phase ∘ cb_status <$> w_backups (Reconcile Scenario.node "t" "cb1" resumed.2).2
                               !! ("t", "cb1") = Some "".
Proof. split_and!; vm_compute; reflexivity. Qed.

Lemma immediately_fires_once_witness :
  let b := Scenario.request "immediately" None None [] "" in
  let w := Scenario.world_of b (Scenario.pod_on "node-a") in
  let w1 := (Reconcile Scenario.node "t" "cb1" w).2 in
  let wm := Nat.iter 3 (fun w => (Reconcile Scenario.node "t" "cb1" w).2) w1 in
  api_reliable Scenario.node /\ clients_ready Scenario.node w b
  /\ w_backups w !! ("t", "cb1") = Some b
  /\ sp_schedule (cb_spec b) = "immediately"
  /\ st_phase (cb_status b) = "" /\ st_checkpointFiles (cb_status b) = []
  /\ cb_deletionTimestamp b = None
  /\ pod_here Scenario.node w b
  /\ phase_set ("t", "cb1") w1
  /\ captures b "web" w w1
  /\ List.filter is_kubelet (w_trace wm) = [EvKubelet "t" "app-0" "web"]
  /\ w_trace wm = w_trace w1 /\ w_backups wm = w_backups w1
  /\ w_pods wm = w_pods w1 /\ w_files wm = w_files w1.
Proof.
  cbv zeta.
  set (b := Scenario.request _ _ _ _ _). set (w := Scenario.world_of _ _).
  assert (api_reliable Scenario.node) as H1 by (intros t; split; reflexivity).
  assert (clients_ready Scenario.node w b) as H2.
  { split; [right; by eexists|by left]. }
  assert (w_backups w !! ("t", "cb1") = Some b) as H3 by (vm_compute; reflexivity).
  assert (pod_here Scenario.node w b) as H4.
  { exists (Scenario.pod_on "node-a"). split_and!; vm_compute; reflexivity. }
  assert (List.filter is_kubelet
            (w_trace (Nat.iter 3 (fun w => (Reconcile Scenario.node "t" "cb1" w).2)
                        (Reconcile Scenario.node "t" "cb1" w).2))
          = [EvKubelet "t" "app-0" "web"]) as H6 by (vm_compute; reflexivity).
  pose proof (immediately_fires_once Scenario.node "t" "cb1" b w 3 H1 H2 H3 eq_refl eq_refl
                eq_refl eq_refl H4) as (H5 & Hcap & _ & H7).
  split; [exact H1|]. split; [exact H2|]. split; [exact H3|].
  split; [reflexivity|]. split; [reflexivity|]. split; [reflexivity|]. split; [reflexivity|].
  split; [exact H4|]. split; [exact H5|].
  split; [exact (Hcap (mkContainer "web" "reg.example/ckpt/web:abc") [] eq_refl)|].
  split; [exact H6|]. exact H7.
Defined.

(** C4 as the specification states it fails when a phase cannot be
    stored.  Every container went through the pipeline and the API server
    refuses the write of [Completed]: [performCheckpoint] returns that error
    before it reaches the deletion of the pod; the pod stays and the stored
    phase is the last that was accepted.  And when the deletion of the pod
    fails and the write of [CompletedWithError] is refused, the refusal is
    only logged and the stored phase stays [Completed]. *)
Lemma refused_completion_keeps_pod :
  let env := Situations.failing_from 21 None in
  let b := Scenario.request "immediately" (Some true) None [] "" in
  let pod := Scenario.pod_on "node-a" in
  let w := Scenario.memory_of b pod None in
  let captured := checkpointContainers env 0 pod (containersToProcess b pod) (with_tick S w) in
  let out := performCheckpoint env 0 w in
  let env' := Situations.failing_with 22 None (Some "forbidden") in
  let captured' := checkpointContainers env' 0 pod (containersToProcess b pod) (with_tick S w) in
  let out' := performCheckpoint env' 0 w in
  shouldStopPod (deref w 0) = true
  /\ captured.1 = Ok tt /\ w_tick captured.2 = 19
  /\ env_update env 20 = UpdOk /\ env_delete env 22 = None
  /\ out.1 = Err "failed to update backup status: refused"
  /\ w_pods out.2 !! ("t", "app-0") = Some pod
  /\ List.filter (fun e => match e with EvDeletePod _ _ => true | _ => false end)
       (w_trace out.2) = []
  /\ st_phase ∘ cb_status <$> w_backups out.2 !! ("t", "cb1") = Some PhaseImageBuilt
  /\ captured'.1 = Ok tt
  /\ env_delete env' 22 = Some "forbidden"
  /\ out'.1 = Err "forbidden"
  /\ st_phase ∘ cb_status <$> w_backups out'.2 !! ("t", "cb1") = Some PhaseCompleted.
Proof. split_and!; vm_compute; reflexivity. Qed.

Lemma stopPod_outcome_witness :
  let b := Scenario.request "immediately" (Some true) None [] "" in
  let pod := Scenario.pod_on "node-a" in
  let w := Scenario.memory_of b pod None in
  let captured := checkpointContainers Scenario.node 0 pod (containersToProcess b pod)
                    (with_tick S w) in
  let out := performCheckpoint Scenario.node 0 w in
  api_reliable Scenario.node
  /\ shouldStopPod (deref w 0) = true
  /\ ~ guarded (st_phase (cb_status (deref w 0)))
  /\ ~ in_progress (st_phase (cb_status (deref w 0)))
  /\ w_pods w !! ("t", "app-0") = Some pod
  /\ pod_phase pod = PodRunning
  /\ w_backups w !! key_of (deref w 0) = Some b
  /\ captured.1 = Ok tt
  /\ out.1 = Ok tt
  /\ w_pods out.2 !! ("t", "app-0") = None
  /\ w_scheduledJobs out.2 !! "t/cb1" = None
  /\ st_phase ∘ cb_status <$> w_backups out.2 !! ("t", "cb1") = Some PhaseCompletedPodDeleted.
Proof.
  cbv zeta.
  set (b := Scenario.request _ _ _ _ _). set (pod := Scenario.pod_on _).
  set (w := Scenario.memory_of _ _ _).
  assert (api_reliable Scenario.node) as H1 by (intros t; split; reflexivity).
  assert (shouldStopPod (deref w 0) = true) as H2 by reflexivity.
  assert (~ guarded (st_phase (cb_status (deref w 0)))) as H3.
  { intros [H|[H|H]]; vm_compute in H; discriminate. }
  assert (~ in_progress (st_phase (cb_status (deref w 0)))) as H4.
  { intros [H|[H|[H|[H|[H|H]]]]]; vm_compute in H; discriminate. }
  assert (w_pods w !! (pr_namespace (sp_podRef (cb_spec (deref w 0))),
                       pr_name (sp_podRef (cb_spec (deref w 0)))) = Some pod) as H5
    by (vm_compute; reflexivity).
  assert (w_backups w !! key_of (deref w 0) = Some b) as H6 by (vm_compute; reflexivity).
  assert ((checkpointContainers Scenario.node 0 pod (containersToProcess b pod)
             (with_tick S w)).1 = Ok tt) as H7 by (vm_compute; reflexivity).
  pose proof (stopPod_outcome Scenario.node 0 pod b w H1 H2 H3 H4 H5 eq_refl H6) as H.
  cbv zeta in H. specialize (H H7). destruct H as (recorded & _ & H).
  change (env_delete Scenario.node _) with (@None string) in H. cbv iota in H.
  destruct H as (Hr & Hp & Hj & _ & c' & Hc' & Hph & _).
  split; [exact H1|]. split; [exact H2|]. split; [exact H3|]. split; [exact H4|].
  split; [exact H5|]. split; [reflexivity|]. split; [exact H6|]. split; [exact H7|].
  split; [exact Hr|]. split; [exact Hp|]. split; [exact Hj|].
  change (key_of (deref w 0)) with ("t", "cb1") in Hc'.
  rewrite Hc'. simpl. by rewrite Hph.
Defined.



(** C6 as the specification states it fails without a registry: the request
    supplies an image for the container [web], and the image is named after
    the pod and the container all the same. *)
Lemma supplied_image_ignored_without_registry :
  let b := Scenario.request "immediately" None None [] "" in
  let container := mkContainer "web" "reg.example/ckpt/web:abc" in
  let w := Scenario.memory_of b (Scenario.pod_on "node-a") None in
  sp_registry (cb_spec b) = None
  /\ c_image container = "reg.example/ckpt/web:abc"
  /\ (determineImageName Scenario.node b container w).1
     = Ok "localhost/checkpoint-app-0-web:20250104-143000"
  /\ List.filter is_build (w_trace (checkpointContainer Scenario.node 0 (Scenario.pod_on "node-a")
                                      container w).2)
     = [EvBuild "/var/lib/kubelet/checkpoints/checkpoint-web.tar"
          "localhost/checkpoint-app-0-web:20250104-143000" "nginx:1.25"].
Proof. split_and!; vm_compute; reflexivity. Qed.

(** The stand-alone server at the pod of the Job: its one patch replaces the
    image of [web] by a different one. *)
Lemma WebhookServer_never_patches_equal_image_witness :
  let cl := Scenario.restores_cluster
              [Scenario.restore_item "r1" "restore-xyz-r2d2" "reg.example/ckpt/web:abc"] in
  let request := WebhookServer.mkAdmissionRequest "Pod" "v1" "CREATE" "t" (Some Scenario.job_pod) in
  let r := WebhookServer.mkHttpRequest "application/json" (WebhookServer.BodyReview request) in
  let p := mkPatch "replace" "/spec/containers/0/image" "reg.example/ckpt/web:abc" in
  WebhookServer.h_body r = WebhookServer.BodyReview request
  /\ WebhookServer.ar_object request = Some Scenario.job_pod
  /\ WebhookServer.handleMutate cl r = WebhookServer.Review (Some [p])
  /\ p ∈ [p]
  /\ exists field containers j c,
       (field = "containers" /\ containers = pod_containers Scenario.job_pod
        \/ field = "initContainers" /\ containers = pod_initContainers Scenario.job_pod)
       /\ containers !! j = Some c
       /\ p = mkPatch "replace" ("/spec/" ++ field ++ "/" ++ pretty j ++ "/image") (p_value p)
       /\ p_value p <> pc_image c.
Proof.
  cbv zeta.
  set (cl := Scenario.restores_cluster _).
  set (request := WebhookServer.mkAdmissionRequest _ _ _ _ _).
  set (r := WebhookServer.mkHttpRequest _ _).
  set (p := mkPatch _ _ _).
  assert (WebhookServer.handleMutate cl r = WebhookServer.Review (Some [p])) as H3
    by (vm_compute; reflexivity).
  assert (p ∈ [p]) as H4 by apply list_elem_of_here.
  split; [reflexivity|]. split; [reflexivity|]. split; [exact H3|]. split; [exact H4|].
  exact (WebhookServer_never_patches_equal_image cl r request Scenario.job_pod [p] p
           eq_refl eq_refl H3 H4).
Defined.

(** Why C2 speaks of the closures: a closure that still holds the request
    with no phase goes through the pipeline when its entry fires, whatever
    phase is stored. *)
Example stale_closure_reprocesses :
  let stored := Scenario.request "*/5 * * * *" None None [CheckpointBackupFinalizer]
                  PhaseCompleted in
  let held := Scenario.request "*/5 * * * *" None None [CheckpointBackupFinalizer] "" in
  let w := mkWorld {[ ("t", "cb1") := stored ]} {[ ("t", "app-0") := Scenario.pod_on "node-a" ]}
             ∅ ∅ [held] None None {[ 0 := mkCronEntry "*/5 * * * *" 0 ]} 1
             {[ "t/cb1" := 0 ]} 0 [] in
  let w' := (runEntry Scenario.node 0 w).2 in
  length (List.filter is_kubelet (w_trace w')) = 1
  /\ st_message ∘ cb_status <$> w_backups w' !! ("t", "cb1")
     = Some "All containers checkpointed successfully"
  /\ length ∘ st_builtImages ∘ cb_status <$> w_backups w' !! ("t", "cb1") = Some 1.
Proof. split_and!; vm_compute; reflexivity. Qed.

End Instances.

(** * Every run of the engine *)

Module CEInvFacts.

Import CE.
Import CEProps.
Import CEFacts.
Import CEInv.

Section Combinators.

Context (I : World -> Prop).

Lemma preserves_ret {A} (a : A) : preserves I (mret a).
Proof. intros w Hw. by apply spec_ret. Qed.

Lemma preserves_fail {A} e : preserves I (fail e : M A).
Proof. intros w Hw. by apply spec_fail. Qed.

Lemma preserves_gets {A} (f : World -> A) : preserves I (gets f).
Proof. intros w Hw. by apply spec_gets. Qed.

Lemma preserves_load p : preserves I (load p).
Proof. apply preserves_gets. Qed.

Lemma preserves_bind {A B} (m : M A) (f : A -> M B) :
  preserves I m -> (forall a, preserves I (f a)) -> preserves I (m ≫= f).
Proof.
  intros Hm Hf w Hw. apply spec_bind. eapply spec_mono; [by apply Hm|].
  intros [a|e] w' Hw'; [by apply Hf|done].
Qed.

Lemma preserves_try {A} (m : M A) : preserves I m -> preserves I (try m).
Proof. intros Hm w Hw. apply spec_try. by apply Hm. Qed.

Lemma preserves_modify f : (forall w, I w -> I (f w)) -> preserves I (modify f).
Proof. intros Hf w Hw. apply spec_modify. by apply Hf. Qed.

End Combinators.

(** One step of a proof that a function preserves an invariant: the shape of
    the code decides. *)
Ltac pres_step :=
  lazymatch goal with
  | |- preserves _ (mret _) => apply preserves_ret
  | |- preserves _ (fail _) => apply preserves_fail
  | |- preserves _ (gets _) => apply preserves_gets
  | |- preserves _ (load _) => apply preserves_load
  | |- preserves _ (try _) => apply preserves_try
  | |- preserves _ (mbind _ _) => apply preserves_bind; [|intros ?]
  | |- preserves _ (match ?x with _ => _ end) => destruct x
  | |- preserves _ (let _ := _ in _) => cbv zeta
  end.

Create HintDb pres discriminated.

(** Use a lemma whose premises are the closure of the invariant. *)
Ltac use L := eapply L; try tc_solve.

(** A call the invariant admits. *)
Ltac permitted :=
  first [ assumption | apply allowed_status | apply allowed_kubelet | apply allowed_build
        | apply allowed_login | apply allowed_push | apply allowed_remove | apply allowed_update ].

(** Peel the elementary changes off the world of a goal [I _]. *)
Ltac steady :=
  repeat first
    [ assumption
    | apply steady_tick
    | apply steady_emit; [permitted|]
    | apply steady_heap
    | apply steady_files_add
    | apply steady_files_remove
    | apply steady_kubeletClient
    | apply steady_registryClient ].

Ltac pres := repeat (pres_step || (solve [auto with pres])).

Section Helpers.

Context (env : Env) (I : World -> Prop) (allowed : Event -> Prop)
        (good : CheckpointBackup -> CheckpointBackupStatus -> Prop).
Context `{!Steady I allowed good}.

Lemma tick_preserves : preserves I tick.
Proof. intros w Hw. apply spec_tick. by apply steady_tick. Qed.

Lemma emit_preserves e : allowed e -> preserves I (emit e).
Proof. intros He w Hw. apply spec_emit. by apply steady_emit. Qed.

Lemma store_status_preserves p (f : CheckpointBackup -> CheckpointBackupStatus) :
  preserves I (store p (fun b => set_status b (f b))).
Proof. intros w Hw. apply spec_store. by apply steady_heap. Qed.

End Helpers.

#[export] Hint Extern 0 (preserves _ tick) => use tick_preserves : pres.
#[export] Hint Extern 0 (preserves _ (emit _)) => use emit_preserves; permitted : pres.
#[export] Hint Extern 0 (preserves _ (store _ (fun b => set_status b _))) => use store_status_preserves : pres.

Section Status.

Context (env : Env) (I : World -> Prop) (allowed : Event -> Prop)
        (good : CheckpointBackup -> CheckpointBackupStatus -> Prop).
Context `{!Steady I allowed good}.

Lemma now_preserves : preserves I (now env).
Proof. unfold now. pres. Qed.

Lemma getBackup_preserves ns name : preserves I (getBackup env ns name).
Proof. unfold getBackup. pres. Qed.

Lemma getPod_preserves ns name : preserves I (getPod env ns name).
Proof. unfold getPod. pres. Qed.

Lemma getSecret_preserves ns name : preserves I (getSecret env ns name).
Proof. unfold getSecret. pres. Qed.

Lemma statusUpdate_preserves obj w :
  I w ->
  (forall cur, w_backups w !! (cb_namespace obj, cb_name obj) = Some cur ->
               good cur (cb_status obj)) ->
  spec (statusUpdate env obj) w (fun _ w' => I w').
Proof.
  intros Hw Hg. unfold statusUpdate. wp; simpl in *; [|steady..].
  apply steady_status; [done|by apply Hg|steady].
Qed.

Lemma updatePhase_from_preserves rounds i backup phase message :
  preserves I (updatePhase_from env rounds i backup phase message).
Proof.
  revert i. induction rounds as [|rounds IH]; intros i w Hw; simpl.
  - by wp.
  - unfold getBackup. wp; simpl in *; simplify_eq; try (steady; fail).
    wp_call statusUpdate_preserves; [steady| |].
    { simpl. intros cur Hcur. repeat (case_match; simplify_eq/=). apply good_phase. }
    intros r w1 Hw1. destruct r as [u|e]; [|done].
    wp; try done.
    + by apply steady_heap.
    + by apply IH.
Qed.

Lemma updatePhase_preserves backup phase message :
  preserves I (updatePhase env backup phase message).
Proof. use updatePhase_from_preserves. Qed.

Lemma recordCheckpointFile_from_preserves rounds i backup containerName checkpointPath :
  preserves I (recordCheckpointFile_from env rounds i backup containerName checkpointPath).
Proof.
  revert i. induction rounds as [|rounds IH]; intros i w Hw; cbn [recordCheckpointFile_from].
  - by wp.
  - unfold getBackup, now. wp; simpl in *; simplify_eq; try (steady; fail).
    wp_call statusUpdate_preserves; [steady| |].
    { simpl. intros cur Hcur. repeat (case_match; simplify_eq/=). by apply good_files. }
    intros r w1 Hw1. destruct r as [u|e]; [|done].
    wp; try done.
    + by apply steady_heap.
    + by apply IH.
Qed.

Lemma recordCheckpointFile_preserves backup containerName checkpointPath :
  preserves I (recordCheckpointFile env backup containerName checkpointPath).
Proof. use recordCheckpointFile_from_preserves. Qed.

Lemma recordBuiltImage_from_preserves rounds i backup containerName imageName pushed :
  preserves I (recordBuiltImage_from env rounds i backup containerName imageName pushed).
Proof.
  revert i. induction rounds as [|rounds IH]; intros i w Hw; cbn [recordBuiltImage_from].
  - by wp.
  - unfold getBackup, now. wp; simpl in *; simplify_eq; try (steady; fail).
    wp_call statusUpdate_preserves; [steady| |].
    { simpl. intros cur Hcur. repeat (case_match; simplify_eq/=). by apply good_images. }
    intros r w1 Hw1. destruct r as [u|e]; [|done].
    wp; try done.
    + by apply steady_heap.
    + by apply IH.
Qed.

Lemma recordBuiltImage_preserves backup containerName imageName pushed :
  preserves I (recordBuiltImage env backup containerName imageName pushed).
Proof. use recordBuiltImage_from_preserves. Qed.

End Status.

#[export] Hint Extern 0 (preserves _ (now _)) => use now_preserves : pres.
#[export] Hint Extern 0 (preserves _ (getBackup _ _ _)) => use getBackup_preserves : pres.
#[export] Hint Extern 0 (preserves _ (getPod _ _ _)) => use getPod_preserves : pres.
#[export] Hint Extern 0 (preserves _ (getSecret _ _ _)) => use getSecret_preserves : pres.
#[export] Hint Extern 0 (preserves _ (updatePhase _ _ _ _)) => use updatePhase_preserves : pres.
#[export] Hint Extern 0 (preserves _ (recordCheckpointFile _ _ _ _)) => use recordCheckpointFile_preserves : pres.
#[export] Hint Extern 0 (preserves _ (recordBuiltImage _ _ _ _ _)) => use recordBuiltImage_preserves : pres.

(** ** The capture pipeline *)

Section Pipeline.

Context (env : Env) (I : World -> Prop) (allowed : Event -> Prop)
        (good : CheckpointBackup -> CheckpointBackupStatus -> Prop).
Context `{!Steady I allowed good} `{!SteadyCapture I allowed}.

Lemma CreateCheckpoint_preserves `{!SteadyFiles I} namespace podName containerName :
  preserves I (CreateCheckpoint env namespace podName containerName).
Proof.
  unfold CreateCheckpoint. pres. apply preserves_modify. intros w Hw. by apply steady_files_add.
Qed.

Lemma findCheckpointFile_preserves namespace podName containerName expectedPath :
  preserves I (findCheckpointFile env namespace podName containerName expectedPath).
Proof. unfold findCheckpointFile. pres. Qed.

Lemma buildCheckpointImage_preserves checkpointPath imageName baseImage containerName :
  preserves I (buildCheckpointImage env checkpointPath imageName baseImage containerName).
Proof. unfold buildCheckpointImage. pres. Qed.

Lemma PushImage_preserves rc imageName : preserves I (PushImage env rc imageName).
Proof. unfold PushImage, login. pres. Qed.

Lemma determineImageName_preserves b container : preserves I (determineImageName env b container).
Proof. unfold determineImageName. pres. Qed.

Hint Extern 0 (preserves _ (CreateCheckpoint _ _ _ _)) => use CreateCheckpoint_preserves : pres.
Hint Extern 0 (preserves _ (findCheckpointFile _ _ _ _ _)) => use findCheckpointFile_preserves : pres.
Hint Extern 0 (preserves _ (buildCheckpointImage _ _ _ _ _)) =>
  use buildCheckpointImage_preserves : pres.
Hint Extern 0 (preserves _ (PushImage _ _ _)) => use PushImage_preserves : pres.
Hint Extern 0 (preserves _ (determineImageName _ _ _)) => use determineImageName_preserves : pres.

Lemma createCheckpointIfMissing_preserves `{!SteadyFiles I} backup b container checkpointPath :
  preserves I (createCheckpointIfMissing env backup b container checkpointPath).
Proof. unfold createCheckpointIfMissing. pres. Qed.

(** [buildAndPush] preserves what the removal of the file it was given
    preserves. *)
Lemma buildAndPush_preserves backup b pod container checkpointPath :
  preserves I (deleteCheckpointFile env (fullPath checkpointPath)) ->
  preserves I (buildAndPush env backup b pod container checkpointPath).
Proof. intros Hdel. unfold buildAndPush. pres. Qed.

Lemma checkpointContainer_preserves `{!SteadyFiles I} backup pod container :
  (forall checkpointPath, preserves I (deleteCheckpointFile env (fullPath checkpointPath))) ->
  preserves I (checkpointContainer env backup pod container).
Proof.
  intros Hdel. unfold checkpointContainer. pres.
  - use createCheckpointIfMissing_preserves.
  - use buildAndPush_preserves. apply Hdel.
Qed.

Lemma checkpointContainers_preserves `{!SteadyFiles I} backup pod containers :
  (forall checkpointPath, preserves I (deleteCheckpointFile env (fullPath checkpointPath))) ->
  preserves I (checkpointContainers env backup pod containers).
Proof.
  intros Hdel. induction containers as [|container rest IH]; simpl; [pres|].
  apply preserves_bind; [by use checkpointContainer_preserves|by intros _].
Qed.

Lemma deleteCheckpointFile_preserves `{!SteadyRemove I allowed} checkpointPath :
  preserves I (deleteCheckpointFile env checkpointPath).
Proof.
  unfold deleteCheckpointFile. pres. apply preserves_modify. intros w Hw.
  by apply steady_files_remove.
Qed.

Lemma removeScheduledJob_preserves mine `{!SteadySched I mine} key :
  preserves I (removeScheduledJob key).
Proof.
  unfold removeScheduledJob. intros w Hw. wp; [|done].
  by apply (steady_removeJob key).
Qed.

Hint Extern 0 (preserves _ (removeScheduledJob _)) =>
  eapply removeScheduledJob_preserves; tc_solve : pres.

Lemma deletePod_preserves `{!SteadyStop I} backup pod w :
  I w -> shouldStopPod (deref w backup) = true ->
  spec (deletePod env pod) w (fun _ w' => I w').
Proof.
  intros Hw Hstop. unfold deletePod. wp.
  - apply (steady_stop_emit backup); [by apply steady_tick|done].
  - apply (steady_stop_pods backup); [|done].
    apply (steady_stop_emit backup); [by apply steady_tick|done].
Qed.

(** The end of the pipeline; the pod is deleted only for an object that
    asks for it. *)
Lemma completeCheckpoint_preserves mine `{!SteadySched I mine} `{!SteadyStop I} backup pod :
  preserves I (completeCheckpoint env backup pod).
Proof.
  unfold completeCheckpoint. pres_step; [pres|]. pres_step; [pres|]. pres_step; [pres|].
  intros w Hw. apply spec_bind, spec_load.
  destruct (shouldStopPod (deref w backup)) eqn:Hstop; [|by wp].
  apply spec_bind, spec_try. wp_call (deletePod_preserves backup); [done|done|].
  intros r w1 Hw1. destruct r as [[]|e].
  - assert (preserves I (removeScheduledJob
                           (namespacedName (cb_namespace (deref w backup))
                              (cb_name (deref w backup)));;
                         updatePhase env backup PhaseCompletedPodDeleted
                           "Checkpoint completed and pod deleted successfully")) as H by pres.
    by apply H.
  - assert (preserves I (try (updatePhase env backup PhaseCompletedWithError
                                ("Checkpoint completed but failed to delete pod: " ++ e));;
                         (fail e : M unit))) as H by pres.
    by apply H.
Qed.

Lemma performCheckpoint_preserves mine `{!SteadyFiles I} `{!SteadySched I mine} `{!SteadyStop I}
    backup :
  (forall checkpointPath, preserves I (deleteCheckpointFile env (fullPath checkpointPath))) ->
  preserves I (performCheckpoint env backup).
Proof.
  intros Hdel. unfold performCheckpoint. pres.
  - by use checkpointContainers_preserves.
  - use (completeCheckpoint_preserves mine).
Qed.

Lemma runEntry_preserves mine `{!SteadyFiles I} `{!SteadySched I mine} `{!SteadyStop I}
    entryID :
  (forall checkpointPath, preserves I (deleteCheckpointFile env (fullPath checkpointPath))) ->
  preserves I (runEntry env entryID).
Proof.
  intros Hdel. unfold runEntry. pres. by use (performCheckpoint_preserves mine).
Qed.

End Pipeline.

#[export] Hint Extern 0 (preserves _ (CreateCheckpoint _ _ _ _)) =>
  use CreateCheckpoint_preserves : pres.
#[export] Hint Extern 0 (preserves _ (findCheckpointFile _ _ _ _ _)) =>
  use findCheckpointFile_preserves : pres.
#[export] Hint Extern 0 (preserves _ (buildCheckpointImage _ _ _ _ _)) =>
  use buildCheckpointImage_preserves : pres.
#[export] Hint Extern 0 (preserves _ (PushImage _ _ _)) => use PushImage_preserves : pres.
#[export] Hint Extern 0 (preserves _ (determineImageName _ _ _)) =>
  use determineImageName_preserves : pres.
#[export] Hint Extern 0 (preserves _ (createCheckpointIfMissing _ _ _ _ _)) =>
  use createCheckpointIfMissing_preserves : pres.
#[export] Hint Extern 0 (preserves _ (removeScheduledJob _)) =>
  eapply removeScheduledJob_preserves; tc_solve : pres.

(** ** Reconciliation *)

Section Reconciling.

Context (env : Env) (I : World -> Prop) (allowed : Event -> Prop)
        (good : CheckpointBackup -> CheckpointBackupStatus -> Prop) (mine : nat -> Prop).
Context `{!Steady I allowed good} `{!SteadyCapture I allowed} `{!SteadyFiles I}
        `{!SteadySched I mine} `{!SteadyStop I} `{!SteadyUpdate I allowed mine}.

Hypothesis removal :
  forall checkpointPath, preserves I (deleteCheckpointFile env (fullPath checkpointPath)).

Lemma initializeClients_preserves `{!SteadyClients I} backup :
  preserves I (initializeClients env backup).
Proof.
  unfold initializeClients, NewKubeletClient, NewRegistryClient. pres.
  all: apply preserves_modify; intros w Hw;
    first [by apply steady_kubeletClient|by apply steady_registryClient].
Qed.

Lemma isPodOnThisNode_preserves backup : preserves I (isPodOnThisNode env backup).
Proof. unfold isPodOnThisNode. pres. Qed.

Lemma update_preserves p : mine p -> preserves I (update env p).
Proof.
  intros Hp w Hw. unfold update. wp; simpl in *; try (steady; fail).
  - apply (steady_update_delete p c (with_trace _ (with_tick S w))); [done|steady|done].
  - apply (steady_update_insert p c (with_trace _ (with_tick S w))); [done|steady|done].
Qed.

Lemma ensureFinalizer_preserves p : mine p -> preserves I (ensureFinalizer env p).
Proof.
  intros Hp w Hw. unfold ensureFinalizer. apply spec_bind, spec_load.
  destruct (ContainsFinalizer (deref w p) CheckpointBackupFinalizer) eqn:Hf; simpl; [by wp|].
  apply spec_bind, spec_store. unfold AddFinalizer. rewrite Hf.
  apply spec_bind. eapply spec_mono; [apply (update_preserves p Hp); by apply steady_finalizers|].
  intros r w1 Hw1. destruct r as [[| |]|]; by wp.
Qed.

Lemma reconcileDelete_preserves p : mine p -> preserves I (reconcileDelete env p).
Proof.
  intros Hp. unfold reconcileDelete. pres_step; [pres|]. pres_step; [pres|].
  intros w Hw. apply spec_bind, spec_store. unfold RemoveFinalizer.
  apply spec_bind. eapply spec_mono; [apply (update_preserves p Hp); by apply steady_finalizers|].
  intros r w1 Hw1. destruct r as [[| |]|]; by wp.
Qed.

Lemma reconcileNormal_preserves p : mine p -> preserves I (reconcileNormal env p).
Proof.
  intros Hp w Hw. unfold reconcileNormal. apply spec_bind, spec_load. cbv zeta.
  assert (preserves I (performCheckpoint env p)) as Hperf
    by by use (performCheckpoint_preserves env I allowed good mine).
  destruct (bool_decide (sp_schedule (cb_spec (deref w p)) = "immediately")).
  { destruct (bool_decide (st_phase (cb_status (deref w p)) <> "")); [by wp|].
    apply spec_bind. eapply spec_mono; [by apply Hperf|]. intros [[]|e] w1 Hw1; by wp. }
  set (key := namespacedName (cb_namespace (deref w p)) (cb_name (deref w p))).
  assert (forall w1, I w1 -> w_scheduledJobs w1 !! key = None -> w_heap w1 = w_heap w ->
            spec (entryID ← AddFunc env (sp_schedule (cb_spec (deref w p))) p;
                  modify (with_scheduledJobs (<[key := entryID]>));;
                  (if isNil (st_lastCheckpointTime (cb_status (deref w p)))
                   then performCheckpoint env p else mret tt);;
                  mret (mkResult 3600)) w1 (fun _ w' => I w')) as Hadd.
  { intros w1 Hw1 Hnone Hheap. unfold AddFunc.
    destruct (env_cron env (sp_schedule (cb_spec (deref w p)))) as [e|]; [by wp|].
    apply spec_bind, spec_bind, spec_gets, spec_bind, spec_modify, spec_ret.
    apply spec_bind, spec_modify.
    assert (deref w1 p = deref w p) as Hd by by apply deref_same.
    pose proof (steady_addJob (sp_schedule (cb_spec (deref w p))) p w1 Hp Hw1) as Hj.
    rewrite Hd in Hj. specialize (Hj Hnone).
    apply spec_bind.
    destruct (isNil (st_lastCheckpointTime (cb_status (deref w p)))).
    - eapply spec_mono; [by apply Hperf|]. intros [[]|e] w2 Hw2; by wp.
    - by wp. }
  apply spec_bind. unfold removeScheduledJob. apply spec_bind, spec_gets. simpl.
  destruct (w_scheduledJobs w !! key) as [entryID|] eqn:Hkey.
  - apply spec_bind, spec_modify, spec_bind, spec_modify, spec_ret. apply Hadd.
    + by apply (steady_removeJob key).
    + simpl. apply lookup_delete_eq.
    + done.
  - apply spec_ret. by apply Hadd.
Qed.

(** From the object put in memory at [p] to the end of [Reconcile]. *)
Lemma dispatch_preserves p :
  mine p -> preserves I (initializeClients env p) ->
  preserves I
    (initializeClients env p;;
     ensureFinalizer env p;;
     b ← load p;
     if negb (isNil (cb_deletionTimestamp b)) then reconcileDelete env p
     else if bool_decide (st_phase (cb_status b) = PhaseCompletedPodDeleted) then mret (mkResult 0)
     else
       isOnThisNode ← isPodOnThisNode env p;
       if negb isOnThisNode then mret (mkResult 0)
       else reconcileNormal env p).
Proof.
  intros Hp Hclients.
  pose proof (ensureFinalizer_preserves p Hp).
  pose proof (reconcileDelete_preserves p Hp). pose proof isPodOnThisNode_preserves.
  pose proof (reconcileNormal_preserves p Hp). pres.
Qed.

End Reconciling.

(** [Reconcile] preserves [I] when the object it reads can be put in memory
    under an invariant [K] of the rest of the reconcile. *)
Lemma Reconcile_preserves env (I : World -> Prop) (K : nat -> World -> Prop) allowed good mineI
    ns name :
  Steady I allowed good -> SteadySched I mineI ->
  (forall w b, I w -> w_backups w !! (ns, name) = Some b ->
               K (length (w_heap w)) (with_heap (fun h => (h ++ [backupAt ns name b])%list) w)) ->
  (forall n w, K n w -> I w) ->
  (forall n, Steady (K n) allowed good) -> (forall n, SteadyCapture (K n) allowed) ->
  (forall n, SteadyFiles (K n)) -> (forall n, SteadySched (K n) (eq n)) -> (forall n, SteadyStop (K n)) ->
  (forall n, SteadyUpdate (K n) allowed (eq n)) ->
  (forall n p, preserves (K n) (initializeClients env p)) ->
  (forall n checkpointPath, preserves (K n) (deleteCheckpointFile env (fullPath checkpointPath))) ->
  preserves I (Reconcile env ns name).
Proof.
  intros HI HS Hfetch HK ? ? ? ? ? ? Hclients Hdel w Hw. unfold Reconcile, getBackup.
  assert (I (with_tick S w)) as Hw1 by apply (steady_tick (Steady := HI) _ _ Hw).
  apply spec_bind, spec_bind, spec_tick.
  destruct (env_get env (w_tick w)) as [e|]; [by wp|].
  apply spec_bind, spec_gets, spec_ret. simpl.
  destruct (w_backups w !! (ns, name)) as [b|] eqn:Hb.
  - apply spec_bind, spec_alloc. simpl.
    eapply spec_mono.
    + apply (dispatch_preserves env (K (length (w_heap w))) allowed good (eq (length (w_heap w))));
        auto.
      by apply (Hfetch (with_tick S w) b).
    + intros r w' Hw'. exact (HK _ _ Hw').
  - assert (preserves I (removeScheduledJob (namespacedName ns name);; mret (mkResult 0))) as Hgone.
    { apply preserves_bind; [|intros _; apply preserves_ret].
      apply (removeScheduledJob_preserves I mineI). }
    by apply Hgone.
Qed.

(** A run preserves what the reconciles and the firings preserve. *)
Lemma run_preserves env (I : World -> Prop) actions w :
  (forall ns name, preserves I (Reconcile env ns name)) ->
  (forall entryID, preserves I (runEntry env entryID)) ->
  I w -> I (run env actions w).
Proof.
  intros HR HF. revert w. induction actions as [|a rest IH]; intros w Hw; [done|].
  simpl. apply IH. destruct a as [ns name|entryID]; simpl.
  - by apply (HR ns name w).
  - by apply (HF entryID w).
Qed.

(** ** The stored objects: what the engine never writes *)

Lemma deref_store_same {X} (f : CheckpointBackup -> X) p c q w :
  f c = f (deref w p) -> f (deref (with_heap (fun h => <[p := c]> h) w) q) = f (deref w q).
Proof.
  intros Hf. rewrite deref_insert. case_bool_decide as H; [|done]. by destruct H as [-> _].
Qed.

Section Kept.

Variable env : Env.
Variable w0 : World.

Lemma kept_backups w w' : w_backups w' = w_backups w -> kept w0 w -> kept w0 w'.
Proof. unfold kept. by intros ->. Qed.

Lemma kept_status k cur st w :
  w_backups w !! k = Some cur -> same_time cur st -> kept w0 w ->
  kept w0 (with_backups (<[k := set_status cur st]>) w).
Proof.
  intros Hcur Hgood Hk k' c' Hc'. simpl in Hc'.
  destruct (decide (k = k')) as [<-|].
  - rewrite lookup_insert_eq in Hc'. simplify_eq.
    destruct (Hk _ _ Hcur) as (c & ? & ? & ? & ?). exists c. simpl. split_and!; try done.
    unfold same_time in Hgood. congruence.
  - rewrite lookup_insert_ne in Hc' by done. by apply Hk.
Qed.

#[local] Instance kept_steady : Steady (kept w0) any_event same_time.
Proof.
  split.
  - intros f w Hk. by apply (kept_backups w).
  - intros e w _ Hk. by apply (kept_backups w).
  - apply kept_status.
  - intros p st w Hk. by apply (kept_backups w).
  - done.
  - done.
  - done.
  - done.
Qed.

#[local] Instance kept_sched mine : SteadySched (kept w0) mine.
Proof. split; intros; by eapply (kept_backups w). Qed.

#[local] Instance kept_capture : SteadyCapture (kept w0) any_event.
Proof. by split. Qed.

#[local] Instance kept_files : SteadyFiles (kept w0).
Proof. split. intros X w Hk. by apply (kept_backups w). Qed.

#[local] Instance kept_remove : SteadyRemove (kept w0) any_event.
Proof. split; [|done..]. intros X w Hk. by apply (kept_backups w). Qed.

#[local] Instance kept_stop : SteadyStop (kept w0).
Proof. split; intros; by eapply (kept_backups w). Qed.

Lemma mirrors_same p w w' :
  w_backups w' = w_backups w -> w_heap w' = w_heap w -> mirrors p w -> mirrors p w'.
Proof. unfold mirrors. intros Hb Hh. by rewrite (deref_same w w' p Hh), Hb. Qed.

Lemma kept_mirrored_same p w w' :
  w_backups w' = w_backups w -> w_heap w' = w_heap w ->
  kept_mirrored w0 p w -> kept_mirrored w0 p w'.
Proof. intros Hb Hh [Hk Hm]. split; [by eapply kept_backups|by eapply mirrors_same]. Qed.

Lemma mirrors_heap p q c w :
  key_of c = key_of (deref w q) -> cb_spec c = cb_spec (deref w q) ->
  mirrors p w -> mirrors p (with_heap (fun h => <[q := c]> h) w).
Proof.
  intros Hk Hs Hm cur. rewrite (deref_store_same key_of), (deref_store_same cb_spec) by done.
  apply Hm.
Qed.

#[local] Instance kept_mirrored_steady p : Steady (kept_mirrored w0 p) any_event same_time.
Proof.
  split; [| | | |done..].
  - intros f w Hk. by apply (kept_mirrored_same p w).
  - intros e w _ Hk. by apply (kept_mirrored_same p w).
  - intros k cur st w Hcur Hgood [Hk Hm]. split; [by apply kept_status|].
    intros cur'. simpl. change (deref (with_backups _ w) p) with (deref w p).
    destruct (decide (k = key_of (deref w p))) as [->|].
    + rewrite lookup_insert_eq. intros [= <-]. simpl. by apply Hm.
    + rewrite lookup_insert_ne by done. apply Hm.
  - intros q st w [Hk Hm]. split; [by eapply (kept_backups w)|]. by apply mirrors_heap.
Qed.

#[local] Instance kept_mirrored_capture p : SteadyCapture (kept_mirrored w0 p) any_event.
Proof. by split. Qed.

#[local] Instance kept_mirrored_files p : SteadyFiles (kept_mirrored w0 p).
Proof. split. intros X w Hk. by apply (kept_mirrored_same p w). Qed.

#[local] Instance kept_mirrored_remove p : SteadyRemove (kept_mirrored w0 p) any_event.
Proof. split; [|done..]. intros X w Hk. by apply (kept_mirrored_same p w). Qed.

#[local] Instance kept_mirrored_stop p : SteadyStop (kept_mirrored w0 p).
Proof. split; intros; by eapply (kept_mirrored_same p w). Qed.

#[local] Instance kept_mirrored_sched p mine : SteadySched (kept_mirrored w0 p) mine.
Proof. split; intros; by eapply (kept_mirrored_same p w). Qed.

#[local] Instance kept_mirrored_clients p : SteadyClients (kept_mirrored w0 p).
Proof. split; intros; by eapply (kept_mirrored_same p w). Qed.

#[local] Instance kept_mirrored_update p : SteadyUpdate (kept_mirrored w0 p) any_event (eq p).
Proof.
  split; [done| | |].
  - intros ? fs w <- [Hk Hm]. split; [by eapply (kept_backups w)|]. by apply mirrors_heap.
  - intros ? cur w <- [Hk Hm] Hcur. split.
    + intros k' c' Hc'. simpl in Hc'. destruct (decide (key_of (deref w p) = k')) as [<-|].
      * rewrite lookup_insert_eq in Hc'. simplify_eq.
        destruct (Hk _ _ Hcur) as (c & ? & ? & ? & ?). exists c. simpl. split_and!; try done.
        rewrite (Hm _ Hcur). done.
      * rewrite lookup_insert_ne in Hc' by done. by apply Hk.
    + apply mirrors_heap; [done..|]. intros cur'. simpl.
      change (deref (with_backups _ w) p) with (deref w p).
      rewrite lookup_insert_eq. by intros [= <-].
  - intros ? cur w <- [Hk Hm] Hcur. split.
    + intros k' c' Hc'. simpl in Hc'. apply lookup_delete_Some in Hc' as [_ Hc']. by apply Hk.
    + apply mirrors_heap; [done..|]. intros cur'. simpl.
      change (deref (with_backups _ w) p) with (deref w p).
      by rewrite lookup_delete_eq.
Qed.

Lemma kept_Reconcile ns name : preserves (kept w0) (Reconcile env ns name).
Proof.
  apply (Reconcile_preserves env (kept w0) (kept_mirrored w0) any_event same_time no_pointer);
    try tc_solve.
  - intros w b Hk Hb. split; [by eapply (kept_backups w)|].
    intros cur. rewrite deref_alloc.
    change (w_backups w !! (ns, name) = Some cur -> cb_spec b = cb_spec cur).
    rewrite Hb. by intros [= <-].
  - by intros n w [Hk _].
  - intros n q. use initializeClients_preserves.
  - intros n path. use deleteCheckpointFile_preserves.
Qed.

Lemma kept_runEntry entryID : preserves (kept w0) (runEntry env entryID).
Proof.
  use (runEntry_preserves env (kept w0) any_event same_time no_pointer).
  intros path. use deleteCheckpointFile_preserves.
Qed.

End Kept.

(** Whatever the environment answers, a run of the engine creates no
    object, and leaves every object that is stored at its end with the spec,
    the deletion timestamp and the [lastCheckpointTime] it had at the
    beginning.  In particular the time that [performCheckpoint] puts in the
    object in memory never reaches the API server: [updatePhase] writes the
    phase and the message over the status it has just read. *)
Theorem engine_never_stores_lastCheckpointTime env actions w :
  kept w (run env actions w).
Proof.
  apply run_preserves.
  - intros ns name. apply kept_Reconcile.
  - intros entryID. apply kept_runEntry.
  - intros k c Hc. exists c. by split_and!.
Qed.

(** ** The pods: nothing is deleted that nobody asked to stop *)

Section PodsSafe.

Variable env : Env.
Variable w0 : World.

Lemma pods_safe_same w w' :
  w_backups w' = w_backups w -> w_heap w' = w_heap w -> w_pods w' = w_pods w ->
  w_trace w' = w_trace w -> pods_safe w0 w -> pods_safe w0 w'.
Proof.
  unfold pods_safe, never_stops, no_deletion. intros Hb Hh Hp Ht.
  setoid_rewrite (deref_same w w' _ Hh). by rewrite Hb, Hp, Ht.
Qed.

Lemma pods_safe_heap p c w :
  cb_spec c = cb_spec (deref w p) ->
  pods_safe w0 w -> pods_safe w0 (with_heap (fun h => <[p := c]> h) w).
Proof.
  intros Hs [[Hst Hh] Hd]. split; [split|done]; [done|].
  intros q. unfold shouldStopPod. rewrite (deref_store_same cb_spec) by done. apply Hh.
Qed.

#[local] Instance pods_safe_steady : Steady (pods_safe w0) not_deletion any_status.
Proof.
  split.
  - intros f w Hk. by apply (pods_safe_same w).
  - intros e w He [Hn [Hp (evs & Ht & Hall)]]. split; [done|]. split; [done|].
    exists (e :: evs). simpl. rewrite Ht. split; [done|]. by constructor.
  - intros k cur st w Hcur _ [[Hst Hh] Hd]. split; [split|done]; [|done].
    intros k' c'. simpl. destruct (decide (k = k')) as [<-|].
    + rewrite lookup_insert_eq. intros [= <-]. exact (Hst k cur Hcur).
    + rewrite lookup_insert_ne by done. apply Hst.
  - intros p st w. by apply pods_safe_heap.
  - by intros ns name st [].
  - done.
  - done.
  - done.
Qed.

#[local] Instance pods_safe_capture : SteadyCapture (pods_safe w0) not_deletion.
Proof. split; by intros; intros []. Qed.

#[local] Instance pods_safe_files : SteadyFiles (pods_safe w0).
Proof. split. intros X w Hk. by apply (pods_safe_same w). Qed.

#[local] Instance pods_safe_remove : SteadyRemove (pods_safe w0) not_deletion.
Proof.
  split; [|by intros; intros []]. intros X w Hk. by apply (pods_safe_same w).
Qed.

#[local] Instance pods_safe_stop : SteadyStop (pods_safe w0).
Proof.
  split.
  - intros p ns name w [[_ Hh] _] Hstop. by rewrite Hh in Hstop.
  - intros p k w [[_ Hh] _] Hstop. by rewrite Hh in Hstop.
Qed.

#[local] Instance pods_safe_sched mine : SteadySched (pods_safe w0) mine.
Proof. split; intros; by eapply (pods_safe_same w). Qed.

#[local] Instance pods_safe_clients : SteadyClients (pods_safe w0).
Proof. split; intros; by eapply (pods_safe_same w). Qed.

#[local] Instance pods_safe_update mine : SteadyUpdate (pods_safe w0) not_deletion mine.
Proof.
  split.
  - by intros ns name fs [].
  - intros p fs w _. by apply pods_safe_heap.
  - intros p cur w _ Hs Hcur. apply pods_safe_heap; [done|].
    destruct Hs as [[Hst Hh] Hd]. split; [split|done]; [|done].
    intros k' c'. simpl. destruct (decide (key_of (deref w p) = k')) as [<-|].
    + rewrite lookup_insert_eq. intros [= <-]. apply (Hh p).
    + rewrite lookup_insert_ne by done. apply Hst.
  - intros p cur w _ Hs Hcur. apply pods_safe_heap; [done|].
    destruct Hs as [[Hst Hh] Hd]. split; [split|done]; [|done].
    intros k' c'. simpl. intros [_ Hc']%lookup_delete_Some. by eapply Hst.
Qed.

Lemma pods_safe_Reconcile ns name : preserves (pods_safe w0) (Reconcile env ns name).
Proof.
  apply (Reconcile_preserves env (pods_safe w0) (fun _ => pods_safe w0) not_deletion any_status
           no_pointer); try tc_solve.
  - intros w b [[Hst Hh] Hd] Hb. split; [split|done]; [done|].
    intros p. unfold deref. simpl. destruct (decide (p < length (w_heap w))) as [Hp|Hp].
    + rewrite lookup_app_l by done. apply Hh.
    + rewrite lookup_app_r by lia. destruct (p - length (w_heap w)) as [|n]; simpl.
      * apply (Hst _ _ Hb).
      * done.
  - done.
  - intros n q. use initializeClients_preserves.
  - intros n path. use deleteCheckpointFile_preserves.
Qed.

Lemma pods_safe_runEntry entryID : preserves (pods_safe w0) (runEntry env entryID).
Proof.
  use (runEntry_preserves env (pods_safe w0) not_deletion any_status no_pointer).
  intros path. use deleteCheckpointFile_preserves.
Qed.

End PodsSafe.

(** When no request, stored or held in memory by a reconcile or by a
    closure of the scheduler, asks for its pod to be stopped, a run of the
    engine deletes no pod, whatever the environment answers: the pods stay
    what they were, no deletion is asked of the API server, and at the end
    of the run it is still so that no request asks for it. *)
Theorem no_pod_deleted_unless_asked env actions w :
  never_stops w ->
  never_stops (run env actions w) /\ no_deletion w (run env actions w).
Proof.
  intros Hn. apply (run_preserves env (pods_safe w)).
  - intros ns name. apply pods_safe_Reconcile.
  - intros entryID. apply pods_safe_runEntry.
  - split; [done|]. split; [done|]. by exists [].
Qed.

(** ** The scheduler: no entry is lost, none is left behind *)

Section Scheduler.

Variable env : Env.

Lemma sched_ok_same w w' :
  w_heap w' = w_heap w -> w_cron w' = w_cron w -> w_cronNext w' = w_cronNext w ->
  w_scheduledJobs w' = w_scheduledJobs w -> sched_ok w -> sched_ok w'.
Proof.
  unfold sched_ok. intros Hh Hc Hn Hj.
  setoid_rewrite (deref_same w w' _ Hh). by rewrite Hh, Hc, Hn, Hj.
Qed.

Lemma sched_ok_heap p c w :
  key_of c = key_of (deref w p) ->
  sched_ok w -> sched_ok (with_heap (fun h => <[p := c]> h) w).
Proof.
  intros Hk (H1 & H2 & H3 & H4). split_and!; try done.
  intros key entryID Hj. destruct (H1 _ _ Hj) as (entry & He & Hv & Hn).
  exists entry. simpl. rewrite length_insert. split_and!; try done.
  unfold key_of in Hk. injection Hk as Hns Hname.
  by rewrite (deref_store_same cb_namespace), (deref_store_same cb_name).
Qed.

Lemma sched_ok_alloc b w :
  sched_ok w -> sched_ok (with_heap (fun h => (h ++ [b])%list) w).
Proof.
  intros (H1 & H2 & H3 & H4). split_and!; try done.
  intros key entryID Hj. destruct (H1 _ _ Hj) as (entry & He & Hv & Hn).
  exists entry. simpl. rewrite length_app. split_and!; [done|lia|].
  unfold deref in *. simpl. by rewrite lookup_app_l.
Qed.

Lemma sched_ok_removeJob key entryID w :
  sched_ok w -> w_scheduledJobs w !! key = Some entryID ->
  sched_ok (with_scheduledJobs (delete key) (with_cron (delete entryID) id w)).
Proof.
  intros (H1 & H2 & H3 & H4) Hkey. split_and!; simpl.
  - intros key' id' [Hne Hj]%lookup_delete_Some.
    destruct (H1 _ _ Hj) as (entry & He & Hv & Hn). exists entry. split_and!; try done.
    rewrite lookup_delete_ne; [done|]. intros ->. apply Hne. by eapply H3.
  - intros id' entry [Hne He]%lookup_delete_Some.
    destruct (H2 _ _ He) as (key' & Hk'). exists key'.
    rewrite lookup_delete_ne; [done|]. intros ->. rewrite Hkey in Hk'. by simplify_eq.
  - intros k1 k2 id' [_ Hj1]%lookup_delete_Some [_ Hj2]%lookup_delete_Some. by eapply H3.
  - intros id' entry [_ He]%lookup_delete_Some. by eapply H4.
Qed.

Lemma sched_ok_addJob schedule p w :
  sched_ok w -> p < length (w_heap w) ->
  w_scheduledJobs w !! namespacedName (cb_namespace (deref w p)) (cb_name (deref w p)) = None ->
  sched_ok (with_scheduledJobs
              (<[namespacedName (cb_namespace (deref w p)) (cb_name (deref w p)) := w_cronNext w]>)
              (with_cron (<[w_cronNext w := mkCronEntry schedule p]>) S w)).
Proof.
  intros (H1 & H2 & H3 & H4) Hp Hnone.
  set (key := namespacedName _ _) in *.
  assert (forall key' id', w_scheduledJobs w !! key' = Some id' -> id' < w_cronNext w) as Hlt.
  { intros key' id' Hj. destruct (H1 _ _ Hj) as (entry & He & _). by eapply H4. }
  split_and!; simpl.
  - intros key' id' Hj. destruct (decide (key = key')) as [<-|Hne].
    + rewrite lookup_insert_eq in Hj. injection Hj as <-.
      exists (mkCronEntry schedule p). rewrite lookup_insert_eq. by split_and!.
    + rewrite lookup_insert_ne in Hj by done.
      destruct (H1 _ _ Hj) as (entry & He & Hv & Hn). exists entry. split_and!; try done.
      rewrite lookup_insert_ne; [done|]. specialize (Hlt _ _ Hj). lia.
  - intros id' entry He. destruct (decide (w_cronNext w = id')) as [<-|Hne].
    + exists key. by rewrite lookup_insert_eq.
    + rewrite lookup_insert_ne in He by done. destruct (H2 _ _ He) as (key' & Hk').
      exists key'. rewrite lookup_insert_ne; [done|]. intros <-. by rewrite Hnone in Hk'.
  - intros k1 k2 id' Hj1 Hj2.
    destruct (decide (key = k1)) as [<-|N1], (decide (key = k2)) as [<-|N2]; try done.
    + rewrite lookup_insert_eq in Hj1. rewrite lookup_insert_ne in Hj2 by done.
      injection Hj1 as <-. specialize (Hlt _ _ Hj2). lia.
    + rewrite lookup_insert_eq in Hj2. rewrite lookup_insert_ne in Hj1 by done.
      injection Hj2 as <-. specialize (Hlt _ _ Hj1). lia.
    + rewrite lookup_insert_ne in Hj1, Hj2 by done. by eapply H3.
  - intros id' entry He. destruct (decide (w_cronNext w = id')) as [<-|Hne]; [lia|].
    rewrite lookup_insert_ne in He by done. specialize (H4 _ _ He). lia.
Qed.

#[local] Instance sched_ok_steady : Steady sched_ok any_event any_status.
Proof. split; try done. intros p st w. by apply sched_ok_heap. Qed.

#[local] Instance sched_ok_capture : SteadyCapture sched_ok any_event.
Proof. by split. Qed.

#[local] Instance sched_ok_files : SteadyFiles sched_ok.
Proof. by split. Qed.

#[local] Instance sched_ok_remove : SteadyRemove sched_ok any_event.
Proof. by split. Qed.

#[local] Instance sched_ok_stop : SteadyStop sched_ok.
Proof. by split. Qed.

#[local] Instance sched_ok_sched : SteadySched sched_ok no_pointer.
Proof. split; [intros; by apply sched_ok_removeJob|by intros ? ? ? []]. Qed.

Lemma sched_live_same p w w' :
  w_heap w' = w_heap w -> w_cron w' = w_cron w -> w_cronNext w' = w_cronNext w ->
  w_scheduledJobs w' = w_scheduledJobs w -> sched_live p w -> sched_live p w'.
Proof. intros Hh ? ? ? [Hs Hp]. split; [by eapply sched_ok_same|by rewrite Hh]. Qed.

Lemma sched_live_heap p q c w :
  key_of c = key_of (deref w q) ->
  sched_live p w -> sched_live p (with_heap (fun h => <[q := c]> h) w).
Proof. intros Hk [Hs Hp]. split; [by apply sched_ok_heap|]. simpl. by rewrite length_insert. Qed.

#[local] Instance sched_live_steady p : Steady (sched_live p) any_event any_status.
Proof. split; try done. intros q st w. by apply sched_live_heap. Qed.

#[local] Instance sched_live_capture p : SteadyCapture (sched_live p) any_event.
Proof. by split. Qed.

#[local] Instance sched_live_files p : SteadyFiles (sched_live p).
Proof. by split. Qed.

#[local] Instance sched_live_remove p : SteadyRemove (sched_live p) any_event.
Proof. by split. Qed.

#[local] Instance sched_live_stop p : SteadyStop (sched_live p).
Proof. by split. Qed.

#[local] Instance sched_live_clients p : SteadyClients (sched_live p).
Proof. by split. Qed.

#[local] Instance sched_live_sched p : SteadySched (sched_live p) (eq p).
Proof.
  split.
  - intros key entryID w [Hs Hp] Hkey. split; [by apply sched_ok_removeJob|done].
  - intros schedule ? w <- [Hs Hp] Hnone. split; [by apply sched_ok_addJob|done].
Qed.

#[local] Instance sched_live_update p : SteadyUpdate (sched_live p) any_event (eq p).
Proof.
  split; try done.
  - intros q fs w _. by apply sched_live_heap.
  - intros q cur w _ Hs _. apply sched_live_heap; [done|]. by apply (sched_live_same p w).
  - intros q cur w _ Hs _. apply sched_live_heap; [done|]. by apply (sched_live_same p w).
Qed.

Lemma sched_ok_Reconcile ns name : preserves sched_ok (Reconcile env ns name).
Proof.
  apply (Reconcile_preserves env sched_ok sched_live any_event any_status no_pointer);
    try tc_solve.
  - intros w b Hs Hb. split; [by apply sched_ok_alloc|]. simpl. rewrite length_app. simpl. lia.
  - by intros n w [Hs _].
  - intros n q. use initializeClients_preserves.
  - intros n path. use deleteCheckpointFile_preserves.
Qed.

Lemma sched_ok_runEntry entryID : preserves sched_ok (runEntry env entryID).
Proof.
  use (runEntry_preserves env sched_ok any_event any_status no_pointer).
  intros path. use deleteCheckpointFile_preserves.
Qed.

End Scheduler.

(** The scheduler and the table of scheduled jobs stay in step through every
    run of the engine, whatever the environment answers: the job of a key is
    an entry of the scheduler whose closure holds the request of that key,
    and the scheduler has no entry that is not the job of exactly one key.
    So a request has at most one job, and no entry outlives the table. *)
Theorem scheduler_stays_in_step env actions w :
  sched_ok w -> sched_ok (run env actions w).
Proof.
  apply run_preserves.
  - intros ns name. apply sched_ok_Reconcile.
  - intros entryID. apply sched_ok_runEntry.
Qed.

(** ** The clients: made once *)

Section Clients.

Variable env : Env.
Variable w0 : World.

Lemma clients_kept_same w w' :
  w_kubeletClient w' = w_kubeletClient w -> w_registryClient w' = w_registryClient w ->
  clients_kept w0 w -> clients_kept w0 w'.
Proof. unfold clients_kept. by intros -> ->. Qed.

#[local] Instance clients_kept_steady : Steady (clients_kept w0) any_event any_status.
Proof. by split. Qed.

#[local] Instance clients_kept_capture : SteadyCapture (clients_kept w0) any_event.
Proof. by split. Qed.

#[local] Instance clients_kept_files : SteadyFiles (clients_kept w0).
Proof. by split. Qed.

#[local] Instance clients_kept_remove : SteadyRemove (clients_kept w0) any_event.
Proof. by split. Qed.

#[local] Instance clients_kept_stop : SteadyStop (clients_kept w0).
Proof. by split. Qed.

#[local] Instance clients_kept_sched mine : SteadySched (clients_kept w0) mine.
Proof. by split. Qed.

#[local] Instance clients_kept_update mine : SteadyUpdate (clients_kept w0) any_event mine.
Proof. by split. Qed.

(** [initializeClients] makes a client only where there is none. *)
Lemma initializeClients_keeps backup : preserves (clients_kept w0) (initializeClients env backup).
Proof.
  intros w [Hk Hr]. unfold initializeClients, NewKubeletClient, NewRegistryClient, getSecret.
  wp; simpl in *.
  all: split; intros c' Hc'; simpl; try (by apply Hk); try (by apply Hr).
  all: try (specialize (Hk _ Hc')); try (specialize (Hr _ Hc')); congruence.
Qed.

Lemma clients_kept_Reconcile ns name : preserves (clients_kept w0) (Reconcile env ns name).
Proof.
  apply (Reconcile_preserves env (clients_kept w0) (fun _ => clients_kept w0) any_event any_status
           no_pointer); try tc_solve; try done.
  - intros n q. apply initializeClients_keeps.
  - intros n path. use deleteCheckpointFile_preserves.
Qed.

Lemma clients_kept_runEntry entryID : preserves (clients_kept w0) (runEntry env entryID).
Proof.
  use (runEntry_preserves env (clients_kept w0) any_event any_status no_pointer).
  intros path. use deleteCheckpointFile_preserves.
Qed.

End Clients.

(** The clients of the reconciler are made once: a kubelet client or a
    registry client that is there stays the client through every run of the
    engine, whatever the requests reconciled afterwards say about their
    registry. *)
Theorem clients_are_made_once env actions w :
  clients_kept w (run env actions w).
Proof.
  apply run_preserves.
  - intros ns name. apply clients_kept_Reconcile.
  - intros entryID. apply clients_kept_runEntry.
  - by split.
Qed.

(** ** The disk: the file the search finds stays *)

#[export] Instance disk_is_steady files trace : Steady (disk_is files trace) not_removal any_status.
Proof.
  split; try done.
  - intros e w He [Hf (evs & Ht & Hall)]. split; [done|].
    exists (e :: evs). simpl. rewrite Ht. split; [done|]. by constructor.
  - by intros ns name st [].
Qed.

#[export] Instance disk_is_capture files trace : SteadyCapture (disk_is files trace) not_removal.
Proof. split; by intros; intros []. Qed.

(** Nothing is removed when the file is not there. *)
Lemma deleteCheckpointFile_absent env files trace checkpointPath :
  (checkpointPath ∉ files) -> checkpointPath <> CheckpointBasePath ->
  preserves (disk_is files trace) (deleteCheckpointFile env checkpointPath).
Proof.
  intros Hnot Hne w Hw. unfold deleteCheckpointFile. apply spec_bind, spec_gets. simpl.
  assert (onDisk w checkpointPath = false) as ->; [|by wp].
  destruct Hw as [Hf _]. unfold onDisk. rewrite Hf.
  by rewrite !bool_decide_eq_false_2.
Qed.

Lemma buildAndPush_absent env files trace backup b pod container checkpointPath :
  (fullPath checkpointPath ∉ files) -> fullPath checkpointPath <> CheckpointBasePath ->
  preserves (disk_is files trace) (buildAndPush env backup b pod container checkpointPath).
Proof. intros Hnot Hne. use buildAndPush_preserves. by apply deleteCheckpointFile_absent. Qed.

Lemma onDisk_false w path :
  onDisk w path = false -> (path ∉ w_files w) /\ path <> CheckpointBasePath.
Proof.
  unfold onDisk. intros [H1 H2]%orb_false_iff.
  by apply bool_decide_eq_false in H1, H2.
Qed.

(** When the path that [CreateCheckpoint] hands back is not the path of a
    file of the node, so that the file is looked for by [findCheckpointFile],
    the capture of the container removes nothing: the files the node agent
    wrote are all there at the end, whether the image was built or not.
    Step 7 removes the path computed before the search. *)
Theorem unlocated_checkpoint_stays_on_disk env backup pod container relativePath written w :
  getCheckpointFilePath (deref w backup) (c_name container) = None ->
  (forall t, env_kubelet env t = KPath relativePath written) ->
  onDisk (with_files (fun fs => fs ∪ list_to_set written) w) (fullPath relativePath) = false ->
  spec (checkpointContainer env backup pod container) w (fun _ w' =>
    disk_is (w_files w ∪ list_to_set written) (w_trace w) w').
Proof.
  intros Hnone Hk [Hnot Hne]%onDisk_false. simpl in Hnot.
  unfold checkpointContainer. apply spec_bind, spec_load, spec_bind, spec_gets.
  unfold resumeCheck. rewrite Hnone. cbv iota.
  apply spec_bind. unfold createCheckpointIfMissing. rewrite bool_decide_eq_true_2 by done.
  apply spec_bind, spec_try.
  assert (disk_is (w_files w) (w_trace w) w) as H0 by (split; [done|by exists []]).
  eapply spec_mono; [by use (updatePhase_preserves env (disk_is (w_files w) (w_trace w)))|].
  intros r1 w1 H1. cbv beta iota. apply spec_bind, spec_try.
  unfold CreateCheckpoint. apply spec_bind, spec_tick, spec_bind, spec_emit. rewrite Hk.
  apply spec_bind, spec_modify, spec_ret. cbv beta iota.
  set (w2 := with_files _ _).
  assert (disk_is (w_files w ∪ list_to_set written) (w_trace w) w2) as H2.
  { destruct H1 as [Hf (evs & Ht & Hall)]. split; [subst w2; simpl; by rewrite Hf|].
    exists (EvKubelet (pr_namespace (sp_podRef (cb_spec (deref w backup))))
              (pr_name (sp_podRef (cb_spec (deref w backup)))) (c_name container) :: evs).
    subst w2. simpl. rewrite Ht. split; [done|]. constructor; [by intros []|done]. }
  clearbody w2. clear H0 H1 w1 r1.
  apply spec_bind, spec_try.
  eapply spec_mono; [by use (recordCheckpointFile_preserves env (disk_is (w_files w ∪ list_to_set written) (w_trace w)))|].
  intros r3 w3 H3. cbv beta iota. apply spec_bind, spec_try.
  eapply spec_mono; [by use (updatePhase_preserves env (disk_is (w_files w ∪ list_to_set written) (w_trace w)))|].
  intros r4 w4 H4. cbv beta iota. apply spec_ret.
  by apply buildAndPush_absent.
Qed.

(** ** Invariants of the stored objects alone *)

Section StoreOnly.

Variable env : Env.
Variable I : World -> Prop.
Variable good : CheckpointBackup -> CheckpointBackupStatus -> Prop.

Hypothesis I_same : forall w w', w_backups w' = w_backups w -> I w -> I w'.
Hypothesis I_insert : forall k cur c w,
  w_backups w !! k = Some cur -> good cur (cb_status c) -> I w ->
  I (with_backups (<[k := c]>) w).
Hypothesis I_delete : forall k w, I w -> I (with_backups (delete k) w).
Hypothesis good_same : forall cur, good cur (cb_status cur).
Hypothesis good_set_phase : forall cur phase message,
  good cur (set_phase (cb_status cur) phase message).
Hypothesis good_add_file : forall cur containerName checkpointPath t,
  file_recorded (st_checkpointFiles (cb_status cur)) containerName checkpointPath = false ->
  good cur (set_checkpointFiles (cb_status cur)
              (st_checkpointFiles (cb_status cur)
               ++ [mkCheckpointFile containerName checkpointPath t])).
Hypothesis good_add_image : forall cur containerName imageName t pushed,
  image_recorded (st_builtImages (cb_status cur)) containerName imageName = false ->
  good cur (set_builtImages (cb_status cur)
              (st_builtImages (cb_status cur)
               ++ [mkBuiltImage containerName imageName t pushed])).

#[local] Instance store_only_steady : Steady I any_event good.
Proof.
  split; try done.
  - intros f w Hw. by apply (I_same w).
  - intros e w _ Hw. by apply (I_same w).
  - intros k cur st w Hcur Hgood Hw. by apply (I_insert k cur).
  - intros p st w Hw. by apply (I_same w).
Qed.

#[local] Instance store_only_sched mine : SteadySched I mine.
Proof. split; intros; by eapply (I_same w). Qed.

#[local] Instance store_only_capture : SteadyCapture I any_event.
Proof. by split. Qed.

#[local] Instance store_only_files : SteadyFiles I.
Proof. split. intros X w Hw. by apply (I_same w). Qed.

#[local] Instance store_only_remove : SteadyRemove I any_event.
Proof. split; [|done..]. intros X w Hw. by apply (I_same w). Qed.

#[local] Instance store_only_stop : SteadyStop I.
Proof. split; intros; by eapply (I_same w). Qed.

#[local] Instance store_only_clients : SteadyClients I.
Proof. split; intros; by eapply (I_same w). Qed.

#[local] Instance store_only_update mine : SteadyUpdate I any_event mine.
Proof.
  split; [done| | |].
  - intros p fs w _ Hw. by apply (I_same w).
  - intros p cur w _ Hw Hcur.
    apply (I_same (with_backups (<[key_of (deref w p) := updated (deref w p) cur]>) w)); [done|].
    apply (I_insert _ cur); [done|exact (good_same cur)|done].
  - intros p cur w _ Hw Hcur.
    apply (I_same (with_backups (delete (key_of (deref w p))) w)); [done|]. by apply I_delete.
Qed.

Lemma store_only_Reconcile ns name : preserves I (Reconcile env ns name).
Proof.
  apply (Reconcile_preserves env I (fun _ => I) any_event good no_pointer); try tc_solve.
  - intros w b Hw _. by apply (I_same w).
  - done.
  - intros n q. use initializeClients_preserves.
  - intros n path. use deleteCheckpointFile_preserves.
Qed.

Lemma store_only_runEntry entryID : preserves I (runEntry env entryID).
Proof.
  use (runEntry_preserves env I any_event good no_pointer).
  intros path. use deleteCheckpointFile_preserves.
Qed.

Lemma store_only_run actions w : I w -> I (run env actions w).
Proof.
  apply run_preserves; [apply store_only_Reconcile|apply store_only_runEntry].
Qed.

End StoreOnly.

(** ** What the status records *)

Lemma findCheckpointFilePath_app files more containerName path :
  findCheckpointFilePath files containerName = Some path ->
  findCheckpointFilePath (files ++ more) containerName = Some path.
Proof.
  induction files as [|checkpointFile rest IH]; [done|]. simpl. by case_bool_decide.
Qed.

Lemma file_recorded_key files containerName checkpointPath :
  file_recorded files containerName checkpointPath = false ->
  (containerName, checkpointPath) ∉ map file_key files.
Proof.
  intros Hno Hin. apply list_elem_of_fmap in Hin as (checkpointFile & Hkey & Hin).
  assert (file_recorded files containerName checkpointPath = true) as Hyes; [|congruence].
  apply existsb_exists. exists checkpointFile. split; [by apply list_elem_of_In|].
  apply bool_decide_eq_true. unfold file_key in Hkey. by simplify_eq.
Qed.

Lemma image_recorded_key images containerName imageName :
  image_recorded images containerName imageName = false ->
  (containerName, imageName) ∉ map image_key images.
Proof.
  intros Hno Hin. apply list_elem_of_fmap in Hin as (builtImage & Hkey & Hin).
  assert (image_recorded images containerName imageName = true) as Hyes; [|congruence].
  apply existsb_exists. exists builtImage. split; [by apply list_elem_of_In|].
  apply bool_decide_eq_true. unfold image_key in Hkey. by simplify_eq.
Qed.

Lemma NoDup_snoc {A} (l : list A) (x : A) : NoDup l -> x ∉ l -> NoDup (l ++ [x]).
Proof.
  intros Hl Hx. apply NoDup_app. split; [done|]. split; [|apply NoDup_singleton].
  intros y Hy Hy'. apply list_elem_of_singleton in Hy'. by subst.
Qed.

Lemma records_kept_run env actions w : records_kept w (run env actions w).
Proof.
  apply (store_only_run env (records_kept w) grows).
  - unfold records_kept. by intros w1 w2 ->.
  - intros k cur c w1 Hcur [Hf Hi] Hk k' c' Hc'. simpl in Hc'.
    destruct (decide (k = k')) as [<-|].
    + rewrite lookup_insert_eq in Hc'. simplify_eq.
      destruct (Hk _ _ Hcur) as (c0 & ? & ? & ?). exists c0.
      split_and!; [done|by etrans|by etrans].
    + rewrite lookup_insert_ne in Hc' by done. by apply Hk.
  - intros k w1 Hk k' c' Hc'. simpl in Hc'. apply lookup_delete_Some in Hc' as [_ Hc'].
    by apply Hk.
  - by intros cur.
  - by intros cur phase message.
  - intros cur containerName checkpointPath t _. split; [by apply prefix_app_r|done].
  - intros cur containerName imageName t pushed _. split; [done|by apply prefix_app_r].
  - intros k c Hc. by exists c.
Qed.

(** Whatever the environment answers, a run of the engine never drops or
    rewrites what a status records: every object that is stored at its end
    was stored at the beginning, and its status lists the checkpoint files
    and the built images it listed then, in the same order, before any other.
    So the path that [getCheckpointFilePath] gives for a container is the
    first that was recorded for it: a later checkpoint of the same
    container does not change it. *)
Theorem recorded_entries_are_never_dropped env actions w :
  records_kept w (run env actions w) /\ paths_kept w (run env actions w).
Proof.
  split; [apply records_kept_run|].
  intros k c c' containerName path Hc Hc' Hpath.
  destruct (records_kept_run env actions w k c' Hc') as (c0 & Hc0 & [more Hfiles] & _).
  simplify_eq. unfold getCheckpointFilePath. rewrite Hfiles.
  by apply findCheckpointFilePath_app.
Qed.

(** The status of a stored object never lists the same file of a container,
    or the same image of a container, twice: if that holds of every stored
    object, it holds after any run of the engine, whatever the environment
    answers. *)
Theorem records_stay_distinct env actions w :
  records_distinct w -> records_distinct (run env actions w).
Proof.
  apply (store_only_run env records_distinct stays_distinct).
  - unfold records_distinct. by intros w1 w2 ->.
  - intros k cur c w1 Hcur Hgood Hd k' c' Hc'. simpl in Hc'.
    destruct (decide (k = k')) as [<-|].
    + rewrite lookup_insert_eq in Hc'. simplify_eq. apply Hgood. by eapply Hd.
    + rewrite lookup_insert_ne in Hc' by done. by eapply Hd.
  - intros k w1 Hd k' c' Hc'. simpl in Hc'. apply lookup_delete_Some in Hc' as [_ Hc'].
    by eapply Hd.
  - by intros cur Hd.
  - by intros cur phase message Hd.
  - intros cur containerName checkpointPath t Hno [Hf Hi]. split; [|done]. simpl.
    rewrite map_app. apply NoDup_snoc; [done|]. by apply file_recorded_key.
  - intros cur containerName imageName t pushed Hno [Hf Hi]. split; [done|]. simpl.
    rewrite map_app. apply NoDup_snoc; [done|]. by apply image_recorded_key.
Qed.

End CEInvFacts.

(** * The checkpoint engine, case by case *)

Module CECases.

Import CE.
Import CEProps.
Import CEFacts.
Import CEInv.
Import CEInvFacts.

(** ** Requests that are left alone *)

Section Halted.

Variable env : Env.

Lemma performCheckpoint_halted p w :
  halted (st_phase (cb_status (deref w p))) -> performCheckpoint env p w = (Ok tt, w).
Proof.
  intros [Hg|Hp]; [by apply performCheckpoint_guarded|].
  unfold performCheckpoint, mbind, StateErr_bind, load, gets. simpl.
  destruct (bool_decide _); [done|]. by rewrite bool_decide_eq_true_2 by exact Hp.
Qed.

Lemma reconcileNormal_dormant p ns name b w :
  synced w p ns name b -> dormant b ->
  spec (reconcileNormal env p) w (fun _ w' =>
    quiet p w w' /\ w_trace w' = w_trace w /\ w_backups w' = w_backups w
    /\ w_heap w' = w_heap w).
Proof.
  intros (Hp & Hk & Hsp & Hst & Hdel & Hc) Hq. unfold reconcileNormal.
  apply spec_bind, spec_load. rewrite Hsp, Hst. wp.
  - split_and!; [apply quiet_refl|done..].
  - exfalso. apply bool_decide_eq_true in Heqb0. apply bool_decide_eq_false in Heqb1.
    destruct Hq as [Hh|[_ Hne]]; [|done].
    apply Heqb1. intros Hempty. rewrite Hempty in Hh.
    destruct Hh as [[H|[H|H]]|[H|[H|[H|[H|[H|H]]]]]]; discriminate H.
  - wp_call (removeScheduledJob_quiet p). intros r w1 (Q1 & Hh & Hb & Ht & removed & ->).
    unfold AddFunc. wp.
    all: try (split_and!; [quiet_peel|done..]).
    all: apply bool_decide_eq_false in Heqb0.
    all: assert (halted (st_phase (cb_status b))) as Hg by (destruct Hq as [|[? _]]; done).
    all: match goal with
         | |- spec (performCheckpoint _ _) ?W _ =>
             unfold spec; rewrite (performCheckpoint_halted p W)
         end.
    all: try (simpl; split_and!; [quiet_peel|done..]).
    rewrite <- Hst in Hg. unfold deref in *. simpl. by rewrite Hh.
Qed.

Lemma Reconcile_dormant ns name w :
  (forall b, w_backups w !! (ns, name) = Some b -> not_local env w b \/ dormant b) ->
  spec (Reconcile env ns name) w (fun _ w' =>
    quiet (length (w_heap w)) w w'
    /\ (forall b, w_backups w !! (ns, name) = Some b ->
        ContainsFinalizer b CheckpointBackupFinalizer = true ->
        cb_deletionTimestamp b = None ->
        w_trace w' = w_trace w /\ w_backups w' = w_backups w)
    /\ (forall b, w_backups w !! (ns, name) = Some b ->
        length (w_heap w) < length (w_heap w') -> named w' (length (w_heap w)) ns name b)
    /\ (w_backups w !! (ns, name) = None -> w_heap w' = w_heap w)).
Proof.
  intros Hskip. unfold Reconcile, getBackup.
  apply spec_bind, spec_bind, spec_tick.
  destruct (env_get env (w_tick w)) as [e|].
  { wp. split_and!; [quiet_peel|done| |done]. simpl. lia. }
  apply spec_bind, spec_gets, spec_ret. simpl.
  destruct (w_backups w !! (ns, name)) as [b|] eqn:Hb.
  2:{ apply spec_bind. wp_call (removeScheduledJob_quiet (length (w_heap w))).
      intros r w1 (Q1 & Hh & _ & _ & removed & ->). wp.
      split_and!; [eapply quiet_trans; [|exact Q1]; quiet_peel|done|done|by rewrite Hh]. }
  specialize (Hskip b eq_refl).
  set (n := length (w_heap w)).
  assert (quiet n w (with_tick S w)) as Q0 by quiet_peel.
  apply (prepare_spec env ns name b); [done| |]; simpl; fold n.
  { intros e w' Q1 Nm Hsame _. split_and!.
    - by eapply quiet_trans.
    - intros b' ? Hf _. simplify_eq. by apply Hsame.
    - intros b' ? _. by simplify_eq.
    - done. }
  intros w1 Q1 S1 Sch Hsame _.
  assert (quiet n w w1) as Q01 by by eapply quiet_trans.
  pose proof S1 as (Hp & Hk & Hsp & Hst & Hdel & Hc).
  apply spec_bind, spec_load. cbv beta. rewrite Hdel, Hst.
  destruct (cb_deletionTimestamp b) as [ts|] eqn:Hdt; simpl.
  { wp_call (reconcileDelete_spec env n n ns name b); [done|done|].
    intros r w2 [Q2 Nm]. split_and!; [by eapply quiet_trans| | |done].
    - intros b' ? _ ?. by simplify_eq.
    - intros b' ? _. by simplify_eq. }
  assert (forall w2, quiet n w1 w2 -> w_trace w2 = w_trace w1 -> w_backups w2 = w_backups w1 ->
            w_heap w2 = w_heap w1 ->
            quiet n w w2
            /\ (forall b0, Some b = Some b0 ->
                ContainsFinalizer b0 CheckpointBackupFinalizer = true ->
                cb_deletionTimestamp b0 = None ->
                w_trace w2 = w_trace w /\ w_backups w2 = w_backups w)
            /\ (forall b0, Some b = Some b0 ->
                n < length (w_heap w2) -> named w2 n ns name b0)
            /\ (Some b = None -> w_heap w2 = w_heap w)) as Hend.
  { intros w2 Q2 Ht Hbk Hh. split_and!.
    - by eapply quiet_trans.
    - intros b' ? Hf _. simplify_eq. rewrite Ht, Hbk. by apply Hsame.
    - intros b' ? _. simplify_eq. apply synced_named. by apply (synced_same w1).
    - done. }
  wp.
  { apply Hend; try done. apply quiet_refl. }
  wp_call isPodOnThisNode_shape. intros r w2 (-> & Hloc & _).
  destruct r as [[|]|e]; simpl.
  - destruct Hskip as [Hnl|Hq].
    + exfalso. destruct (Hloc eq_refl) as (pod & Hpod & Hnode).
      unfold not_local in Hnl. rewrite Hsp in Hpod.
      rewrite (s_pods _ _ (q_still _ _ _ Q01)) in Hpod. rewrite Hpod in Hnl. done.
    + wp_call (reconcileNormal_dormant n ns name b); [by apply (synced_same w1)|done|].
      intros r w3 (Q3 & Ht & Hbk & Hh). apply Hend; try done.
      eapply quiet_trans; [|exact Q3]. quiet_peel.
  - wp. apply (Hend (with_tick S w1)); try done. quiet_peel.
  - apply (Hend (with_tick S w1)); try done. quiet_peel.
Qed.

(** One step on a stranded request captures nothing and leaves it stranded. *)
Lemma step_stranded ns name w w' :
  stranded ns name w -> step env ns name w w' -> still w w' /\ stranded ns name w'.
Proof.
  intros (Hst & Hval & Hg) Hstep. destruct Hstep as [w|w entryID entry He Hk].
  - pose proof (Reconcile_dormant ns name w) as H. unfold spec in H.
    destruct H as (Q & _ & Nm & Hnone).
    { intros b Hb. right. left. by apply Hst. }
    set (w' := (Reconcile env ns name w).2) in *.
    split; [apply Q|]. split_and!.
    + intros c' Hc'. destruct (s_store _ _ (q_still _ _ _ Q) _ _ Hc') as (c & Hc & -> & _).
      by apply Hst.
    + intros id e Hid. destruct (q_cron _ _ _ Q _ _ Hid) as [Hold|[-> ?]]; [|done].
      pose proof (q_len _ _ _ Q). specialize (Hval _ _ Hold). lia.
    + intros id e Hid Hkey. destruct (q_cron _ _ _ Q _ _ Hid) as [Hold|[Hn Hlt]].
      * rewrite (q_heap _ _ _ Q) in * by by eapply Hval. by eapply Hg.
      * rewrite Hn in *. destruct (w_backups w !! (ns, name)) as [b|] eqn:Hb.
        -- destruct (Nm b eq_refl Hlt) as (_ & _ & ->). by apply Hst.
        -- rewrite Hnone in Hlt by done. lia.
  - assert ((runEntry env entryID w).2 = w) as ->; [|by split; [apply still_refl|]].
    unfold runEntry, mbind, StateErr_bind, gets, try. simpl. rewrite He.
    rewrite performCheckpoint_halted; [done|]. by eapply Hg.
Qed.


(** A request that is stored with a phase of a capture under way
    ([Checkpointing] to [ImagePushed]), as an interrupted capture leaves it,
    is never taken up again, no more than a request in a final phase: from a
    world where the request is stored with such a phase and the closures of
    the scheduler hold it with such a phase, any sequence of reconciles of
    the request and of firings of entries that captured it issues no call
    but [Update]s of the object, leaves pods and files alone, leaves every
    stored object with the status and the spec it had, and ends in a world
    of the same kind. *)
Theorem interrupted_request_is_never_resumed ns name w w' :
  stranded ns name w -> rtc (step env ns name) w w' ->
  still w w' /\ stranded ns name w'.
Proof.
  intros Hs Hsteps. induction Hsteps as [w|w1 w2 w3 H12 _ IH].
  - split; [apply still_refl|done].
  - destruct (step_stranded ns name w1 w2 Hs H12) as [S12 Hs2].
    destruct (IH Hs2) as [S23 Hs3]. split; [by eapply still_trans|done].
Qed.

End Halted.

(** ** The pipeline at its edges *)

Section Edges.

Variable env : Env.

(** The containers that are done with are passed over: no call, no change. *)
Theorem captured_containers_are_skipped backup pod containers w :
  Forall (captured (deref w backup) w) containers ->
  checkpointContainers env backup pod containers w = (Ok tt, w).
Proof.
  induction 1 as [|container rest (path & Hpath & Hgone & image & Hin & Hname) _ IH]; [done|].
  cbn [checkpointContainers]. unfold mbind, StateErr_bind at 1.
  assert (checkpointContainer env backup pod container w = (Ok tt, w)) as ->; [|exact IH].
  unfold checkpointContainer, mbind, StateErr_bind, load, gets, resumeCheck. simpl.
  rewrite Hpath, Hgone. simpl.
  assert (existsb (fun builtImage => bool_decide (bi_containerName builtImage = c_name container))
            (st_builtImages (cb_status (deref w backup))) = true) as ->; [|done].
  apply existsb_exists. exists image. split; [by apply list_elem_of_In|].
  by apply bool_decide_eq_true.
Qed.

Lemma performCheckpoint_not_running backup w :
  ~ halted (st_phase (cb_status (deref w backup))) ->
  env_get env (w_tick w) = None ->
  (forall pod, w_pods w !! (pr_namespace (sp_podRef (cb_spec (deref w backup))),
                            pr_name (sp_podRef (cb_spec (deref w backup)))) = Some pod ->
               pod_phase pod <> PodRunning) ->
  performCheckpoint env backup w
  = (match w_pods w !! (pr_namespace (sp_podRef (cb_spec (deref w backup))),
                        pr_name (sp_podRef (cb_spec (deref w backup)))) with
     | Some _ => Ok tt
     | None => Err ("failed to get pod: "
                    ++ notFound (pr_namespace (sp_podRef (cb_spec (deref w backup))))
                         (pr_name (sp_podRef (cb_spec (deref w backup)))))
     end, with_tick S w).
Proof.
  intros Hh Hget Hpod.
  assert (~ guarded (st_phase (cb_status (deref w backup)))) as Hg by (intros ?; apply Hh; by left).
  assert (~ in_progress (st_phase (cb_status (deref w backup)))) as Hp
    by (intros ?; apply Hh; by right).
  unfold performCheckpoint at 1. unfold getPod, load, gets, tick.
  unfold mbind at 1 2 3 4. unfold StateErr_bind. simpl.
  rewrite (bool_decide_eq_false_2 _ Hg), (bool_decide_eq_false_2 _ Hp). simpl.
  rewrite Hget. simpl.
  destruct (w_pods w !! _) as [pod|] eqn:Hpod'; simpl; [|done].
  by rewrite bool_decide_eq_true_2 by (simpl; by apply Hpod).
Qed.

(** [performCheckpoint] captures a running pod only.  For a request that is
    neither in a final phase nor in a phase of a capture under way, when the
    read of the pod succeeds: a pod that is missing is an error, a pod that
    is there without running is passed over in silence; either way the read
    is the only call, and neither the status nor anything else changes. *)
Theorem performCheckpoint_needs_running_pod backup w :
  ~ halted (st_phase (cb_status (deref w backup))) ->
  env_get env (w_tick w) = None ->
  (forall pod, w_pods w !! (pr_namespace (sp_podRef (cb_spec (deref w backup))),
                            pr_name (sp_podRef (cb_spec (deref w backup)))) = Some pod ->
               pod_phase pod <> PodRunning) ->
  (performCheckpoint env backup w).2 = with_tick S w
  /\ match w_pods w !! (pr_namespace (sp_podRef (cb_spec (deref w backup))),
                        pr_name (sp_podRef (cb_spec (deref w backup)))) with
     | Some _ => (performCheckpoint env backup w).1 = Ok tt
     | None => exists e, (performCheckpoint env backup w).1 = Err ("failed to get pod: " ++ e)
     end.
Proof.
  intros Hh Hget Hpod. rewrite (performCheckpoint_not_running backup w Hh Hget Hpod).
  split; [done|]. destruct (w_pods w !! _); [done|]. by eexists.
Qed.

(** A container of the request that the pod does not have is found out
    after the checkpoint was asked for, and nothing is written then.  With
    a reliable API server, a node agent that answers with the file it wrote,
    for a container without a recorded file: [checkpointContainer] ends in
    the error of Step 2 and leaves the request stored with the phase
    [Checkpointed], which is one of the phases at which [performCheckpoint]
    returns at once. *)
Theorem unknown_container_strands_request backup pod container relativePath written cur w :
  api_reliable env ->
  w_backups w !! key_of (deref w backup) = Some cur ->
  getCheckpointFilePath (deref w backup) (c_name container) = None ->
  (forall t, env_kubelet env t = KPath relativePath written) ->
  fullPath relativePath ∈ written ->
  findBaseImage (pod_containers pod) (c_name container) = "" ->
  spec (checkpointContainer env backup pod container) w (fun r w' =>
    r = Err ("could not find base image for container " ++ c_name container)
    /\ EvKubelet (pr_namespace (sp_podRef (cb_spec (deref w backup))))
                 (pr_name (sp_podRef (cb_spec (deref w backup)))) (c_name container) ∈ w_trace w'
    /\ exists c', w_backups w' !! key_of (deref w backup) = Some c'
                  /\ st_phase (cb_status c') = PhaseCheckpointed
                  /\ in_progress (st_phase (cb_status c'))).
Proof.
  intros Hrel Hcur Hnone Hk Hin Hbase.
  unfold checkpointContainer. apply spec_bind, spec_load, spec_bind, spec_gets.
  unfold resumeCheck. rewrite Hnone. cbv iota beta.
  unfold createCheckpointIfMissing. rewrite bool_decide_eq_true_2 by done. cbv iota.
  wp. wp_call updatePhase_frame; [by compute|]. intros r1 w1 F1.
  assert (spec (CreateCheckpoint env (pr_namespace (sp_podRef (cb_spec (deref w backup))))
                  (pr_name (sp_podRef (cb_spec (deref w backup)))) (c_name container)) w1
            (fun r w2 => r = Ok relativePath /\ frame true (fun _ => True) w1 w2
                         /\ fullPath relativePath ∈ w_files w2
                         /\ EvKubelet (pr_namespace (sp_podRef (cb_spec (deref w backup))))
                              (pr_name (sp_podRef (cb_spec (deref w backup)))) (c_name container)
                            ∈ w_trace w2)) as HC.
  { unfold CreateCheckpoint. wp; simpl in *; rewrite ?Hk in *; simplify_eq.
    split; [done|]. split; [frame_peel|]. split; [|set_solver].
    apply elem_of_union_r. by apply elem_of_list_to_set. }
  wp. wp_call HC. intros r2 w2 (-> & F2 & Hfile & Hev).
  wp. wp_call recordCheckpointFile_frame. intros r3 w3 F3.
  assert (frame true (fun _ => True) w w3) as F03.
  { eapply frame_step; [eapply frame_step; [eapply frame_weaken; [| |exact F1]; done
                                           |exact F2|done..]|exact F3|done..]. }
  destruct (fr_store _ _ _ _ F03 _ _ Hcur) as (cur3 & Hcur3 & _).
  destruct (fr_heap _ _ _ _ F03 backup) as [Hkey _].
  destruct (fr_trace _ _ _ _ F3) as (evs3 & Htr3 & _).
  assert (w_files w2 ⊆ w_files w3) as Hfiles by by apply (fr_files _ _ _ _ F3).
  wp. wp_call (updatePhase_ok env backup PhaseCheckpointed _ w3 cur3); [done|by rewrite Hkey|].
  intros r4 w4 [-> ->]. wp.
  unfold buildAndPush. cbv zeta. apply spec_bind, spec_gets. change (id ?x) with x.
  assert (onDisk (after_updatePhase w3 backup cur3 PhaseCheckpointed
                    ("Checkpoint created for container " ++ c_name container ++ ": "
                     ++ relativePath)) (fullPath relativePath) = true) as ->.
  { unfold onDisk, after_updatePhase. simpl.
    by rewrite (bool_decide_eq_true_2 (fullPath relativePath ∈ w_files w3)) by set_solver. }
  cbn [negb]. apply spec_bind, spec_ret. rewrite Hbase, bool_decide_eq_true_2 by done.
  apply spec_fail. split; [done|].
  split; [unfold after_updatePhase; simpl; rewrite Htr3; set_solver|].
  eexists. split; [unfold after_updatePhase; simpl; by rewrite <- Hkey, lookup_insert_eq|].
  split; [done|]. unfold in_progress. simpl. tauto.
Qed.

(** With a registry configured, an empty list of containers is not filled
    from the pod: the request is completed with nothing captured.  With a
    reliable API server and the pod running, for a request that does not
    ask to stop the pod, [performCheckpoint] succeeds with one call, the
    status update that stores the phase [Completed]; no checkpoint is asked
    for, no image is built or pushed, and files and pods are what they
    were. *)
Theorem registry_request_without_containers_completes backup pod registry cur w :
  api_reliable env ->
  ~ halted (st_phase (cb_status (deref w backup))) ->
  w_pods w !! (pr_namespace (sp_podRef (cb_spec (deref w backup))),
               pr_name (sp_podRef (cb_spec (deref w backup)))) = Some pod ->
  pod_phase pod = PodRunning ->
  sp_containers (cb_spec (deref w backup)) = [] ->
  sp_registry (cb_spec (deref w backup)) = Some registry ->
  shouldStopPod (deref w backup) = false ->
  w_backups w !! key_of (deref w backup) = Some cur ->
  spec (performCheckpoint env backup) w (fun r w' =>
    r = Ok tt
    /\ w_files w' = w_files w /\ w_pods w' = w_pods w
    /\ (exists st, w_trace w'
                   = EvStatusUpdate (cb_namespace (deref w backup)) (cb_name (deref w backup)) st
                     :: w_trace w
                   /\ st_phase st = PhaseCompleted)
    /\ exists c', w_backups w' !! key_of (deref w backup) = Some c'
                  /\ st_phase (cb_status c') = PhaseCompleted
                  /\ st_checkpointFiles (cb_status c') = st_checkpointFiles (cb_status cur)
                  /\ st_builtImages (cb_status c') = st_builtImages (cb_status cur)).
Proof.
  intros Hrel Hh Hpod Hrun Hnil Hreg Hstop Hcur.
  assert (~ guarded (st_phase (cb_status (deref w backup)))) as Hg by (intros ?; apply Hh; by left).
  assert (~ in_progress (st_phase (cb_status (deref w backup)))) as Hp
    by (intros ?; apply Hh; by right).
  pose proof (performCheckpoint_run env backup pod w (proj1 (Hrel _)) Hg Hp Hpod Hrun) as E.
  cbv zeta in E. unfold spec. rewrite E. clear E.
  unfold containersToProcess. rewrite Hnil, Hreg. cbn [length isNil andb checkpointContainers].
  rewrite andb_false_r. cbn [checkpointContainers].
  set (w0 := with_tick S w).
  change (spec (mret tt;; completeCheckpoint env backup
                 (podAt (pr_namespace (sp_podRef (cb_spec (deref w backup))))
                    (pr_name (sp_podRef (cb_spec (deref w backup)))) pod)) w0
            (fun r w' => r = Ok tt
               /\ w_files w' = w_files w0 /\ w_pods w' = w_pods w0
               /\ (exists st, w_trace w'
                      = EvStatusUpdate (cb_namespace (deref w0 backup)) (cb_name (deref w0 backup)) st
                        :: w_trace w0
                      /\ st_phase st = PhaseCompleted)
               /\ exists c', w_backups w' !! key_of (deref w0 backup) = Some c'
                     /\ st_phase (cb_status c') = PhaseCompleted
                     /\ st_checkpointFiles (cb_status c') = st_checkpointFiles (cb_status cur)
                     /\ st_builtImages (cb_status c') = st_builtImages (cb_status cur))).
  assert (w_backups w0 !! key_of (deref w0 backup) = Some cur) as Hcur0 by done.
  assert (shouldStopPod (deref w0 backup) = false) as Hstop0 by done.
  clearbody w0. clear Hcur Hstop Hpod Hg Hp Hh Hnil Hreg.
  apply spec_bind, spec_ret. unfold completeCheckpoint, now. wp.
  set (w1 := with_heap _ _).
  assert (key_of (deref w1 backup) = key_of (deref w0 backup)) as Hk1
    by (subst w1; by rewrite (deref_store_same key_of) by done).
  assert (shouldStopPod (deref w1 backup) = shouldStopPod (deref w0 backup)) as Hs1
    by (subst w1; by rewrite (deref_store_same shouldStopPod) by done).
  wp_call (updatePhase_ok env backup _ _ w1 cur); [done|by rewrite Hk1|].
  intros r w2 (-> & ->). apply spec_bind, spec_load.
  assert (shouldStopPod (deref (after_updatePhase w1 backup cur PhaseCompleted
                                  "All containers checkpointed successfully") backup) = false) as ->.
  { unfold after_updatePhase. rewrite (deref_store_same shouldStopPod) by done.
    change (shouldStopPod (deref w1 backup) = false). by rewrite Hs1. }
  apply spec_ret. split; [done|]. split; [done|]. split; [done|]. split.
  - exists (set_phase (cb_status cur) PhaseCompleted "All containers checkpointed successfully").
    split; [|done]. unfold after_updatePhase. simpl.
    assert (cb_namespace (deref w1 backup) = cb_namespace (deref w0 backup)
            /\ cb_name (deref w1 backup) = cb_name (deref w0 backup)) as [-> ->]; [|done].
    unfold key_of in Hk1. split; congruence.
  - eexists. unfold after_updatePhase. simpl. rewrite Hk1, lookup_insert_eq. by split_and!.
Qed.

End Edges.

(** ** The status helpers under contention *)

Section Contention.

Variable env : Env.

(** One round of [updatePhase] that meets a conflict. *)
Lemma updatePhase_from_conflict rounds i backup phase message cur e w Q :
  (forall t, env_get env t = None) ->
  (forall t, env_update env t = UpdConflict e) ->
  w_backups w !! key_of (deref w backup) = Some cur ->
  spec (if bool_decide (i < maxRetries - 1)
        then updatePhase_from env rounds (S i) backup phase message
        else fail ("failed to update backup status: " ++ e))
       (with_trace (cons (EvStatusUpdate (cb_namespace (deref w backup)) (cb_name (deref w backup))
                            (set_phase (cb_status cur) phase message)))
          (with_tick (fun t => S (S t)) w)) Q ->
  spec (updatePhase_from env (S rounds) i backup phase message) w Q.
Proof.
  intros Hget Hupdate Hcur HQ. cbn [updatePhase_from]. unfold getBackup, statusUpdate.
  unfold key_of in Hcur.
  wp; simpl in *; rewrite ?Hget, ?Hupdate, ?Hcur in *; simplify_eq/=.
  all: by case_bool_decide.
Qed.

(** [updatePhase] tries three times and no more.  When the reads succeed and
    every status update meets a conflict, it ends in the error of the
    conflict after exactly three status updates, with the stored objects and
    the objects in memory as they were; the error of the end of its loop,
    [failed to update backup status after 3 retries], is not what it
    returns. *)
Theorem updatePhase_gives_up_after_three_conflicts backup phase message cur e w :
  (forall t, env_get env t = None) ->
  (forall t, env_update env t = UpdConflict e) ->
  w_backups w !! key_of (deref w backup) = Some cur ->
  spec (updatePhase env backup phase message) w (fun r w' =>
    r = Err ("failed to update backup status: " ++ e)
    /\ w_backups w' = w_backups w /\ w_heap w' = w_heap w
    /\ w_trace w'
       = (replicate 3 (EvStatusUpdate (cb_namespace (deref w backup)) (cb_name (deref w backup))
                         (set_phase (cb_status cur) phase message))
          ++ w_trace w)%list).
Proof.
  intros Hget Hupdate Hcur. unfold updatePhase, maxRetries.
  apply (updatePhase_from_conflict _ _ _ _ _ cur e); [done..|].
  rewrite bool_decide_eq_true_2 by (unfold maxRetries; lia).
  apply (updatePhase_from_conflict _ _ _ _ _ cur e); [done..|].
  rewrite bool_decide_eq_true_2 by (unfold maxRetries; lia).
  apply (updatePhase_from_conflict _ _ _ _ _ cur e); [done..|].
  rewrite bool_decide_eq_false_2 by (unfold maxRetries; lia).
  by apply spec_fail.
Qed.

End Contention.

(** ** Leaving the schedule *)

Section Unscheduling.

Variable env : Env.

(** With the scheduler and the table of jobs in step, a key without job has
    no entry in the scheduler. *)
Lemma sched_ok_no_entry key w :
  sched_ok w -> w_scheduledJobs w !! key = None ->
  forall entryID entry, w_cron w !! entryID = Some entry ->
    namespacedName (cb_namespace (deref w (ce_backup entry)))
                   (cb_name (deref w (ce_backup entry))) <> key.
Proof.
  intros (H1 & H2 & _ & _) Hnone entryID entry Hentry Hkey.
  destruct (H2 _ _ Hentry) as (key' & Hjob).
  destruct (H1 _ _ Hjob) as (entry' & Hentry' & _ & Hkey'). by simplify_eq.
Qed.

Lemma removeScheduledJob_unschedules key w :
  sched_ok w ->
  spec (removeScheduledJob key) w (fun r w' =>
    (exists removed, r = Ok removed)
    /\ sched_ok w' /\ w_scheduledJobs w' !! key = None
    /\ w_trace w' = w_trace w /\ w_backups w' = w_backups w /\ w_heap w' = w_heap w
    /\ w_pods w' = w_pods w /\ w_files w' = w_files w /\ w_tick w' = w_tick w).
Proof.
  intros Hs. unfold removeScheduledJob. wp.
  - split; [by eexists|]. split; [by apply sched_ok_removeJob|]. simpl.
    by rewrite lookup_delete_eq.
  - split; [by eexists|done].
Qed.

(** Once the object of a request is gone, the request is out of the
    schedule.  With the scheduler and the table of jobs in step, when the
    read succeeds and finds no object, [Reconcile] succeeds without a call
    to the API server, and leaves no entry in the scheduler whose closure
    holds a request of that key; the stored objects are untouched. *)
Theorem missing_request_is_unscheduled ns name w :
  sched_ok w ->
  env_get env (w_tick w) = None ->
  w_backups w !! (ns, name) = None ->
  spec (Reconcile env ns name) w (fun r w' =>
    r = Ok (mkResult 0)
    /\ w_trace w' = w_trace w /\ w_backups w' = w_backups w
    /\ sched_ok w'
    /\ w_scheduledJobs w' !! namespacedName ns name = None
    /\ forall entryID entry, w_cron w' !! entryID = Some entry ->
         namespacedName (cb_namespace (deref w' (ce_backup entry)))
                        (cb_name (deref w' (ce_backup entry))) <> namespacedName ns name).
Proof.
  intros Hs Hget Hnone. unfold Reconcile, getBackup.
  apply spec_bind, spec_bind, spec_tick. rewrite Hget.
  apply spec_bind, spec_gets, spec_ret. simpl. rewrite Hnone.
  apply spec_bind. wp_call removeScheduledJob_unschedules; [by apply (sched_ok_same w)|].
  intros r w' ([removed ->] & Hs' & Hjob & Ht & Hb & _).
  apply spec_ret. split_and!; try done. by apply sched_ok_no_entry.
Qed.

(** A schedule that the scheduler refuses takes the request out of the
    schedule.  For a request whose schedule is not [immediately], with the
    scheduler and the table of jobs in step: when [AddFunc] refuses the
    schedule, [reconcileNormal] ends in that error after the job the request
    had was removed, so that no entry of the scheduler holds the request any
    more; nothing is captured and no call is issued. *)
Theorem refused_schedule_unschedules_request p e w :
  sched_ok w ->
  sp_schedule (cb_spec (deref w p)) <> "immediately" ->
  env_cron env (sp_schedule (cb_spec (deref w p))) = Some e ->
  spec (reconcileNormal env p) w (fun r w' =>
    r = Err e
    /\ w_trace w' = w_trace w /\ w_backups w' = w_backups w /\ w_files w' = w_files w
    /\ sched_ok w'
    /\ forall entryID entry, w_cron w' !! entryID = Some entry ->
         namespacedName (cb_namespace (deref w' (ce_backup entry)))
                        (cb_name (deref w' (ce_backup entry)))
         <> namespacedName (cb_namespace (deref w p)) (cb_name (deref w p))).
Proof.
  intros Hs Hsched Hcron. unfold reconcileNormal. apply spec_bind, spec_load.
  rewrite bool_decide_eq_false_2 by done.
  apply spec_bind. wp_call removeScheduledJob_unschedules; [done|].
  intros r w' ([removed ->] & Hs' & Hjob & Ht & Hb & Hh & _ & Hf & _).
  unfold AddFunc. rewrite Hcron. apply spec_bind, spec_fail.
  split_and!; try done. by apply sched_ok_no_entry.
Qed.

End Unscheduling.

(** ** The registry client *)

Section RegistryClients.

Variable env : Env.

(** The registry client that [NewRegistryClient] returns has a user name, a
    password and a registry that are not empty; the registry is the URL of
    the request when it has one, and else the registry of the secret, and
    [docker.io] when the secret has none. *)
Theorem NewRegistryClient_result registryConfig w :
  spec (NewRegistryClient env registryConfig) w (fun r w' =>
    forall registryClient, r = Ok registryClient ->
      rc_username registryClient <> "" /\ rc_password registryClient <> ""
      /\ rc_registry registryClient <> ""
      /\ (reg_url registryConfig <> "" -> rc_registry registryClient = reg_url registryConfig)
      /\ (reg_url registryConfig = "" ->
          exists data,
            w_secrets w !! (match reg_secretRef registryConfig with
                            | Some sr => if bool_decide (sr_namespace sr <> "")
                                         then sr_namespace sr else "stateful-migration"
                            | None => "stateful-migration"
                            end,
                            match reg_secretRef registryConfig with
                            | Some sr => sr_name sr
                            | None => "registry-credentials"
                            end) = Some data
            /\ rc_registry registryClient
               = match data !! "registry" with
                 | Some registry => if bool_decide (registry = "") then "docker.io" else registry
                 | None => "docker.io"
                 end)).
Proof.
  unfold NewRegistryClient, getSecret. cbv zeta.
  wp; simpl in *; simplify_eq; try done.
  intros registryClient [= <-]. simpl.
  match goal with H : bool_decide (_ ∨ _) = false |- _ =>
    apply bool_decide_eq_false in H; rename H into Hcred end.
  match goal with H : match w_secrets _ !! _ with _ => _ end = Found ?d |- _ =>
    rename H into Hsecret; rename d into data end.
  destruct (w_secrets w !! _) as [data'|] eqn:Hdata in Hsecret; [|done].
  assert (data' = data) as -> by congruence. clear Hsecret.
  split; [intros Hu; apply Hcred; by left|]. split; [intros Hp; apply Hcred; by right|].
  destruct (data !! "registry") as [registry|] eqn:Hregistry; simpl.
  all: destruct (decide (reg_url registryConfig = "")) as [Hurl|Hurl]; [rewrite ?Hurl|].
  all: split_and!; try (intros Hempty; exists data; split; [exact Hdata|]; rewrite Hregistry).
  all: repeat case_bool_decide; destruct_and?; simplify_eq; try done; naive_solver.
Qed.

End RegistryClients.

End CECases.

(** * The images of the interceptors and of the orchestrator *)

Module ImagesFacts.

Import Images.

Section PodMutatorImages.

Import PodMutator.

(** The image that [generateImagePatches] maps to a container name is the
    image of the last container of that name in [spec.containers] that has
    one and, when there is none, the image of the first entry of that name
    in [status.builtImages] that has one: the spec goes before the status,
    and an empty image maps nothing. *)
Theorem imageMapOf_lookup backup name :
  imageMapOf backup !! name
  = match specImage (sp_containers (cb_spec backup)) name with
    | Some image => Some image
    | None => builtImage (st_builtImages (cb_status backup)) name
    end.
Proof.
  unfold imageMapOf. rewrite fromStatus_lookup, fromSpec_lookup, lookup_empty.
  by destruct (specImage _ _).
Qed.

(** The patches of [generateImagePatches] are the replacements of the image
    of the containers of the pod whose name is mapped, each at the index of
    its container, by the image mapped to the name: no other patch, and no
    patch for an init container. *)
Theorem generateImagePatches_spec pod backup p :
  p ∈ generateImagePatches pod backup
  <-> exists i container newImage,
        pod_containers pod !! i = Some container
        /\ imageMapOf backup !! pc_name container = Some newImage
        /\ p = mkPatch "replace" ("/spec/containers/" ++ pretty i ++ "/image") newImage.
Proof. unfold generateImagePatches. by rewrite patchesFrom_elem. Qed.

Lemma firstMatching_elem items jobName namespace backup :
  firstMatching items jobName namespace = Some backup ->
  backup ∈ items
  /\ doesResourceRefMatchJob (sp_resourceRef (cb_spec backup)) jobName namespace = true.
Proof.
  induction items as [|item rest IH]; [done|]. simpl.
  destruct (doesResourceRefMatchJob (sp_resourceRef (cb_spec item)) jobName namespace) eqn:Hmatch.
  - intros [= <-]. split; [apply elem_of_cons; by left|done].
  - intros [Hin ?]%IH. split; [apply elem_of_cons; by right|done].
Qed.

(** [Handle] refuses a pod in two cases only: with the code 400 when the pod
    cannot be decoded, and with the code 500 when the pod is owned by a
    [Job] and the list of the requests of its namespace fails.  It answers
    with patches only for a pod owned by a [Job], from a listed request
    whose reference matches the job, and never with an empty list of
    patches. *)
Theorem Handle_refuses_or_patches c decoded : Handle_answers c decoded (Handle c decoded).
Proof.
  unfold Handle, Handle_answers, findMatchingCheckpointBackup.
  destruct decoded as [pod|]; [|by left].
  destruct (isPodFromJob pod) eqn:Hjob; simpl; [|done].
  case_bool_decide as Hname; [done|].
  destruct (client_list c (pod_namespace pod)) as [items|e'] eqn:Hlist.
  - destruct (firstMatching items _ _) as [backup|] eqn:Hfirst; [|done].
    case_bool_decide as Hpatches; [done|].
    apply firstMatching_elem in Hfirst as [Hin Hmatch].
    exists pod, items, backup. split_and!; try done.
    intros Hnil. apply Hpatches. by rewrite Hnil.
  - right. by exists pod, e'.
Qed.

End PodMutatorImages.

Section WebhookServerImages.

Import WebhookServer.

Lemma WebhookServer_patchesFrom_elem field i containers imageMap defaultImage p :
  p ∈ patchesFrom field i containers imageMap defaultImage
  <-> exists j container,
        containers !! j = Some container
        /\ wantedImage imageMap defaultImage container <> ""
        /\ pc_image container <> wantedImage imageMap defaultImage container
        /\ p = mkPatch "replace" ("/spec/" ++ field ++ "/" ++ pretty (i + j) ++ "/image")
                 (wantedImage imageMap defaultImage container).
Proof.
  revert i. induction containers as [|container rest IH]; intros i; simpl.
  { split; [by intros ?%elem_of_nil|]. by intros (j & ? & ? & _). }
  assert (p ∈ patchesFrom field (S i) rest imageMap defaultImage
          <-> exists j container0,
                (container :: rest) !! S j = Some container0
                /\ wantedImage imageMap defaultImage container0 <> ""
                /\ pc_image container0 <> wantedImage imageMap defaultImage container0
                /\ p = mkPatch "replace" ("/spec/" ++ field ++ "/" ++ pretty (i + S j) ++ "/image")
                         (wantedImage imageMap defaultImage container0)) as Hrest.
  { rewrite IH. split; intros (j & c & ? & ? & ? & ->); exists j, c; split_and!; try done.
    - by replace (i + S j) with (S i + j) by lia.
    - by replace (S i + j) with (i + S j) by lia. }
  fold (wantedImage imageMap defaultImage container).
  destruct (bool_decide (wantedImage imageMap defaultImage container = "")
            || bool_decide (pc_image container = wantedImage imageMap defaultImage container))
    eqn:Hskip.
  - rewrite Hrest. split.
    + intros (j & c & ? & ? & ? & ->). by exists (S j), c.
    + intros ([|j] & c & Hc & Hwant & Hne & ->).
      * simpl in Hc. simplify_eq.
        apply orb_true_iff in Hskip as [?%bool_decide_eq_true|?%bool_decide_eq_true]; done.
      * by exists j, c.
  - apply orb_false_iff in Hskip as [Hwant%bool_decide_eq_false Hne%bool_decide_eq_false].
    rewrite elem_of_cons, Hrest. split.
    + intros [->|(j & c & ? & ? & ? & ->)].
      * exists 0, container. by replace (i + 0) with i by lia.
      * by exists (S j), c.
    + intros ([|j] & c & Hc & ? & ? & ->).
      * left. simpl in Hc. simplify_eq. by replace (i + 0) with i by lia.
      * right. by exists j, c.
Qed.

(** The patches of the stand-alone server are the replacements of the image
    of the containers and of the init containers of the pod, each at its
    index, by the image it wants for them, where that image is not empty and
    differs from the image of the container.  The wanted image is the image
    mapped to the name of the container and else the default image: with a
    default image, a container that the restore does not name is given the
    image of another container. *)
Theorem buildPatches_spec pod imageMap defaultImage p :
  p ∈ buildPatches pod imageMap defaultImage
  <-> exists field containers i container,
        (field = "containers" /\ containers = pod_containers pod
         \/ field = "initContainers" /\ containers = pod_initContainers pod)
        /\ containers !! i = Some container
        /\ wantedImage imageMap defaultImage container <> ""
        /\ pc_image container <> wantedImage imageMap defaultImage container
        /\ p = mkPatch "replace" ("/spec/" ++ field ++ "/" ++ pretty i ++ "/image")
                 (wantedImage imageMap defaultImage container).
Proof.
  unfold buildPatches. rewrite elem_of_app, !WebhookServer_patchesFrom_elem. split.
  - intros [(i & c & ? & ? & ? & ->)|(i & c & ? & ? & ? & ->)].
    + exists "containers", (pod_containers pod), i, c. split_and!; auto.
    + exists "initContainers", (pod_initContainers pod), i, c. split_and!; auto.
  - intros (field & containers & i & c & [[-> ->]|[-> ->]] & ? & ? & ? & ->).
    + left. by exists i, c.
    + right. by exists i, c.
Qed.

(** The images the stand-alone server takes from the restore it matched.  A
    container name that is not empty is mapped to the image of the last
    entry of [spec.containers] of that name that has an image, and the empty
    name is mapped to nothing.  The default image is the image of the first
    entry that has one, with or without a name, and the single image
    [spec.image] only when no entry has one. *)
Theorem imagesOf_spec spec name :
  (imagesOf spec).1 !! name
  = (if bool_decide (name = "") then None else lastNamed (listedOf spec) name)
  /\ (imagesOf spec).2
     = match listedOf spec with
       | entry :: _ => entry.2
       | [] => singleImage spec
       end.
Proof.
  unfold imagesOf, listedOf, singleImage.
  destruct (asArray (spec !! "containers")) as [raw|] eqn:Hraw.
  - pose proof (containerImages_map raw ∅ "" name) as Hmap.
    pose proof (containerImages_default raw ∅ "") as Hdefault.
    destruct (containerImages raw ∅ "") as [imageMap defaultImage]. simpl in *.
    rewrite lookup_empty in Hmap. split.
    + rewrite Hmap. by destruct (if bool_decide (name = "") then _ else _).
    + subst defaultImage. destruct (listedImages raw) as [|entry listed] eqn:Hlisted.
      * simpl. destruct (spec !! "image") as [[| | |img| |]|]; simpl; try done.
        destruct (decide (img = "")) as [->|Himg]; [done|]. by rewrite bool_decide_eq_true_2.
      * assert (entry.2 <> "") as Hne; [|by rewrite bool_decide_eq_false_2].
        clear -Hlisted. induction raw as [|first rest IH]; [done|].
        destruct first as [| | | |l|m]; simpl in Hlisted; try by apply IH.
        case_bool_decide; [by apply IH|]. by simplify_eq.
  - simpl. rewrite lookup_empty. split; [by case_bool_decide|].
    destruct (spec !! "image") as [[| | |img| |]|]; simpl; try done.
    destruct (decide (img = "")) as [->|Himg]; [done|]. by rewrite bool_decide_eq_true_2.
Qed.

End WebhookServerImages.

Section OrchestratorImages.

Import RO.

Lemma containerImages_lookup containers name (m : gmap string string) :
  foldl (fun m container => <[c_name container := c_image container]> m) m containers !! name
  = match lastImage containers name with
    | Some image => Some image
    | None => m !! name
    end.
Proof.
  revert m. induction containers as [|container rest IH]; intros m; [done|].
  simpl. rewrite IH. destruct (lastImage rest name) as [image|]; [done|].
  case_bool_decide as Hname.
  - subst. by rewrite lookup_insert_eq.
  - by rewrite lookup_insert_ne.
Qed.

Lemma lastImage_app containers more name :
  lastImage (containers ++ more) name
  = match lastImage more name with
    | Some image => Some image
    | None => lastImage containers name
    end.
Proof.
  induction containers as [|container rest IH]; simpl.
  - by destruct (lastImage more name).
  - rewrite IH. by destruct (lastImage more name).
Qed.

Lemma checkpointImages_lookup backups name (m : gmap string string) :
  foldl (fun m backup =>
           foldl (fun m container => <[c_name container := c_image container]> m)
                 m (sp_containers (cb_spec backup))) m backups !! name
  = match lastImage (concat (map (fun backup => sp_containers (cb_spec backup)) backups)) name with
    | Some image => Some image
    | None => m !! name
    end.
Proof.
  revert m. induction backups as [|backup rest IH]; intros m; [done|].
  simpl. rewrite IH, lastImage_app, containerImages_lookup.
  by destruct (lastImage (concat _) name).
Qed.

(** The image that [updateWorkWithCheckpointImages] maps to a container name
    is the image of the last container of that name over the requests in
    their order, whether that image is empty or not. *)
Theorem checkpointImagesOf_lookup checkpointBackups name :
  checkpointImagesOf checkpointBackups !! name
  = lastImage (concat (map (fun backup => sp_containers (cb_spec backup)) checkpointBackups)) name.
Proof.
  unfold checkpointImagesOf. rewrite checkpointImages_lookup, lookup_empty.
  by destruct (lastImage _ _).
Qed.

End OrchestratorImages.

End ImagesFacts.

(** * More instances

    The statements of the engine at the objects of [Scenario] and of
    [Situations]. *)

Section MoreInstances.

Import CE CEProps CEFacts CEInv CEInvFacts CECases.

Lemma no_pod_deleted_unless_asked_witness :
  let b := Scenario.request "*/5 * * * *" None None [] "" in
  let w := Scenario.world_of b (Scenario.pod_on "node-a") in
  let w' := run Scenario.node [Reconciled "t" "cb1"; Fired 0] w in
  never_stops w /\ never_stops w' /\ no_deletion w w'.
Proof.
  cbv zeta.
  set (w := Scenario.world_of _ _).
  assert (never_stops w) as H1.
  { split.
    - intros k c Hc. unfold w, Scenario.world_of in Hc. cbn [w_backups] in Hc.
      apply lookup_singleton_Some in Hc as [_ <-]. reflexivity.
    - intros p. unfold deref, w, Scenario.world_of. cbn [w_heap]. by destruct p. }
  split; [exact H1|].
  exact (no_pod_deleted_unless_asked Scenario.node [Reconciled "t" "cb1"; Fired 0] w H1).
Defined.

Lemma scheduler_stays_in_step_witness :
  let b := Scenario.request "*/5 * * * *" None None [] "" in
  let w := Scenario.world_of b (Scenario.pod_on "node-a") in
  sched_ok w /\ sched_ok (run Scenario.node [Reconciled "t" "cb1"; Fired 0; Reconciled "t" "cb1"] w).
Proof.
  cbv zeta.
  set (w := Scenario.world_of _ _).
  assert (sched_ok w) as H1.
  { split; [|split; [|split]].
    - intros key entryID Hjob. simpl in Hjob. by rewrite lookup_empty in Hjob.
    - intros entryID entry Hentry. simpl in Hentry. by rewrite lookup_empty in Hentry.
    - intros key1 key2 entryID Hjob. simpl in Hjob. by rewrite lookup_empty in Hjob.
    - intros entryID entry Hentry. simpl in Hentry. by rewrite lookup_empty in Hentry. }
  split; [exact H1|].
  exact (scheduler_stays_in_step Scenario.node
           [Reconciled "t" "cb1"; Fired 0; Reconciled "t" "cb1"] w H1).
Defined.

Lemma records_stay_distinct_witness :
  let b := Scenario.request "*/5 * * * *" None None [] "" in
  let w := Scenario.world_of b (Scenario.pod_on "node-a") in
  records_distinct w
  /\ records_distinct (run Scenario.node [Reconciled "t" "cb1"; Fired 0; Reconciled "t" "cb1"] w).
Proof.
  cbv zeta.
  set (w := Scenario.world_of _ _).
  assert (records_distinct w) as H1.
  { intros k c Hc. unfold w, Scenario.world_of in Hc. cbn [w_backups] in Hc.
      apply lookup_singleton_Some in Hc as [_ <-]. split; apply NoDup_nil_2. }
  split; [exact H1|].
  exact (records_stay_distinct Scenario.node
           [Reconciled "t" "cb1"; Fired 0; Reconciled "t" "cb1"] w H1).
Defined.

Lemma unlocated_checkpoint_stays_on_disk_witness :
  let b := Scenario.request "immediately" None None [] "" in
  let pod := Scenario.pod_on "node-a" in
  let w := Scenario.memory_of b pod None in
  let container := mkContainer "web" "" in
  let written := [fullPath "checkpoint-web-2025.tar"] in
  getCheckpointFilePath (deref w 0) (c_name container) = None
  /\ (forall t, env_kubelet Situations.misplacing t = KPath "checkpoint-web.tar" written)
  /\ onDisk (with_files (fun fs => fs ∪ list_to_set written) w) (fullPath "checkpoint-web.tar")
     = false
  /\ spec (checkpointContainer Situations.misplacing 0 pod container) w (fun _ w' =>
       disk_is (w_files w ∪ list_to_set written) (w_trace w) w').
Proof.
  cbv zeta.
  set (w := Scenario.memory_of _ _ _).
  assert (onDisk (with_files (fun fs => fs ∪ list_to_set [fullPath "checkpoint-web-2025.tar"]) w)
            (fullPath "checkpoint-web.tar") = false) as H3 by (vm_compute; reflexivity).
  split; [reflexivity|]. split; [intros t; reflexivity|]. split; [exact H3|].
  exact (unlocated_checkpoint_stays_on_disk Situations.misplacing 0 (Scenario.pod_on "node-a")
           (mkContainer "web" "") "checkpoint-web.tar" [fullPath "checkpoint-web-2025.tar"] w
           eq_refl (fun t => eq_refl) H3).
Defined.

Lemma interrupted_request_is_never_resumed_witness :
  let b := Scenario.request "*/5 * * * *" None None [CheckpointBackupFinalizer]
             PhaseCheckpointed in
  let w := Scenario.world_of b (Scenario.pod_on "node-a") in
  let w1 := (Reconcile Scenario.node "t" "cb1" w).2 in
  let w2 := (runEntry Scenario.node 0 w1).2 in
  stranded "t" "cb1" w /\ rtc (step Scenario.node "t" "cb1") w w2
  /\ still w w2 /\ stranded "t" "cb1" w2.
Proof.
  cbv zeta.
  set (w := Scenario.world_of _ _).
  assert (stranded "t" "cb1" w) as H1.
  { split; [|split].
    - intros c Hc. vm_compute in Hc. injection Hc as <-. right. right. by left.
    - intros id e He. vm_compute in He. discriminate.
    - intros id e He. vm_compute in He. discriminate. }
  assert (rtc (step Scenario.node "t" "cb1") w
            (runEntry Scenario.node 0 (Reconcile Scenario.node "t" "cb1" w).2).2) as H2.
  { eapply rtc_l; [apply step_reconcile|]. eapply rtc_l; [|apply rtc_refl].
    apply (step_cron _ _ _ _ 0 (mkCronEntry "*/5 * * * *" 0)); vm_compute; reflexivity. }
  split; [exact H1|]. split; [exact H2|].
  exact (interrupted_request_is_never_resumed Scenario.node "t" "cb1" _ _ H1 H2).
Defined.

Lemma captured_containers_are_skipped_witness :
  let pod := Scenario.pod_on "node-a" in
  let w := Scenario.memory_of Situations.captured_request pod None in
  Forall (captured (deref w 0) w) [mkContainer "web" ""]
  /\ checkpointContainers Scenario.node 0 pod [mkContainer "web" ""] w = (Ok tt, w).
Proof.
  cbv zeta.
  set (w := Scenario.memory_of _ _ _).
  assert (Forall (captured (deref w 0) w) [mkContainer "web" ""]) as H1.
  { apply Forall_cons. split; [|apply Forall_nil_2].
    exists "checkpoint-web.tar". split; [reflexivity|]. split; [vm_compute; reflexivity|].
    exists (mkBuiltImage "web" "localhost/checkpoint-app-0-web:20250104-143000" None false).
    split; [apply list_elem_of_here|reflexivity]. }
  split; [exact H1|].
  exact (captured_containers_are_skipped Scenario.node 0 (Scenario.pod_on "node-a")
           [mkContainer "web" ""] w H1).
Defined.

Lemma performCheckpoint_needs_running_pod_witness :
  let b := Scenario.request "immediately" None None [] "" in
  let w := Scenario.memory_of b Situations.pending_pod None in
  ~ halted (st_phase (cb_status (deref w 0)))
  /\ env_get Scenario.node (w_tick w) = None
  /\ (forall pod, w_pods w !! ("t", "app-0") = Some pod -> pod_phase pod <> PodRunning)
  /\ (performCheckpoint Scenario.node 0 w).2 = with_tick S w
  /\ (performCheckpoint Scenario.node 0 w).1 = Ok tt.
Proof.
  cbv zeta.
  set (w := Scenario.memory_of _ _ _).
  assert (~ halted (st_phase (cb_status (deref w 0)))) as H1.
  { intros [[H|[H|H]]|[H|[H|[H|[H|[H|H]]]]]]; vm_compute in H; discriminate. }
  assert (forall pod, w_pods w !! (pr_namespace (sp_podRef (cb_spec (deref w 0))),
                                   pr_name (sp_podRef (cb_spec (deref w 0)))) = Some pod ->
                      pod_phase pod <> PodRunning) as H3.
  { intros pod Hpod. vm_compute in Hpod. injection Hpod as <-. vm_compute. discriminate. }
  split; [exact H1|]. split; [reflexivity|]. split; [exact H3|].
  exact (performCheckpoint_needs_running_pod Scenario.node 0 w H1 eq_refl H3).
Defined.

Lemma unknown_container_strands_request_witness :
  let b := Scenario.request "immediately" None None [] "" in
  let pod := Situations.sidecar_pod in
  let w := Scenario.memory_of b pod None in
  let container := mkContainer "web" "" in
  api_reliable Scenario.node
  /\ w_backups w !! key_of (deref w 0) = Some b
  /\ getCheckpointFilePath (deref w 0) (c_name container) = None
  /\ fullPath "checkpoint-web.tar" ∈ [fullPath "checkpoint-web.tar"]
  /\ findBaseImage (pod_containers pod) (c_name container) = ""
  /\ spec (checkpointContainer Scenario.node 0 pod container) w (fun r w' =>
       r = Err ("could not find base image for container " ++ c_name container)
       /\ EvKubelet "t" "app-0" "web" ∈ w_trace w'
       /\ exists c', w_backups w' !! ("t", "cb1") = Some c'
                     /\ st_phase (cb_status c') = PhaseCheckpointed
                     /\ in_progress (st_phase (cb_status c'))).
Proof.
  cbv zeta.
  set (w := Scenario.memory_of _ _ _).
  assert (api_reliable Scenario.node) as H1 by (intros t; split; reflexivity).
  assert (w_backups w !! key_of (deref w 0)
          = Some (Scenario.request "immediately" None None [] "")) as H2
    by (vm_compute; reflexivity).
  assert (fullPath "checkpoint-web.tar" ∈ [fullPath "checkpoint-web.tar"]) as H4
    by apply list_elem_of_here.
  split; [exact H1|]. split; [exact H2|]. split; [reflexivity|]. split; [exact H4|].
  split; [reflexivity|].
  exact (unknown_container_strands_request Scenario.node 0 Situations.sidecar_pod
           (mkContainer "web" "") "checkpoint-web.tar" [fullPath "checkpoint-web.tar"] _ w
           H1 H2 eq_refl (fun t => eq_refl) H4 eq_refl).
Defined.

Lemma registry_request_without_containers_completes_witness :
  let b := Situations.bare_request in
  let pod := Scenario.pod_on "node-a" in
  let w := Scenario.memory_of b pod None in
  api_reliable Scenario.node
  /\ ~ halted (st_phase (cb_status (deref w 0)))
  /\ w_pods w !! ("t", "app-0") = Some pod
  /\ pod_phase pod = PodRunning
  /\ sp_containers (cb_spec (deref w 0)) = []
  /\ sp_registry (cb_spec (deref w 0)) = Some (mkRegistry "reg.example" None)
  /\ shouldStopPod (deref w 0) = false
  /\ w_backups w !! key_of (deref w 0) = Some b
  /\ spec (performCheckpoint Scenario.node 0) w (fun r w' =>
       r = Ok tt
       /\ w_files w' = w_files w /\ w_pods w' = w_pods w
       /\ (exists st, w_trace w' = EvStatusUpdate "t" "cb1" st :: w_trace w
                      /\ st_phase st = PhaseCompleted)
       /\ exists c', w_backups w' !! ("t", "cb1") = Some c'
                     /\ st_phase (cb_status c') = PhaseCompleted
                     /\ st_checkpointFiles (cb_status c') = st_checkpointFiles (cb_status b)
                     /\ st_builtImages (cb_status c') = st_builtImages (cb_status b)).
Proof.
  cbv zeta.
  set (w := Scenario.memory_of _ _ _).
  assert (api_reliable Scenario.node) as H1 by (intros t; split; reflexivity).
  assert (~ halted (st_phase (cb_status (deref w 0)))) as H2.
  { intros [[H|[H|H]]|[H|[H|[H|[H|[H|H]]]]]]; vm_compute in H; discriminate. }
  assert (w_pods w !! (pr_namespace (sp_podRef (cb_spec (deref w 0))),
                       pr_name (sp_podRef (cb_spec (deref w 0))))
          = Some (Scenario.pod_on "node-a")) as H3 by (vm_compute; reflexivity).
  assert (w_backups w !! key_of (deref w 0) = Some Situations.bare_request) as H8
    by (vm_compute; reflexivity).
  split; [exact H1|]. split; [exact H2|]. split; [exact H3|]. split; [reflexivity|].
  split; [reflexivity|]. split; [reflexivity|]. split; [reflexivity|]. split; [exact H8|].
  exact (registry_request_without_containers_completes Scenario.node 0 (Scenario.pod_on "node-a")
           (mkRegistry "reg.example" None) Situations.bare_request w
           H1 H2 H3 eq_refl eq_refl eq_refl eq_refl H8).
Defined.

Lemma updatePhase_gives_up_after_three_conflicts_witness :
  let b := Scenario.request "immediately" None None [] "" in
  let w := Scenario.memory_of b (Scenario.pod_on "node-a") None in
  let e := "the object has been modified" in
  (forall t, env_get Situations.contended t = None)
  /\ (forall t, env_update Situations.contended t = UpdConflict e)
  /\ w_backups w !! key_of (deref w 0) = Some b
  /\ spec (updatePhase Situations.contended 0 PhaseCheckpointing "Creating checkpoint") w
       (fun r w' =>
          r = Err ("failed to update backup status: " ++ e)
          /\ w_backups w' = w_backups w /\ w_heap w' = w_heap w
          /\ w_trace w'
             = (replicate 3 (EvStatusUpdate "t" "cb1"
                               (set_phase (cb_status b) PhaseCheckpointing "Creating checkpoint"))
                ++ w_trace w)%list).
Proof.
  cbv zeta.
  set (w := Scenario.memory_of _ _ _).
  assert (w_backups w !! key_of (deref w 0)
          = Some (Scenario.request "immediately" None None [] "")) as H3
    by (vm_compute; reflexivity).
  split; [intros t; reflexivity|]. split; [intros t; reflexivity|]. split; [exact H3|].
  exact (updatePhase_gives_up_after_three_conflicts Situations.contended 0 PhaseCheckpointing
           "Creating checkpoint" _ "the object has been modified" w
           (fun t => eq_refl) (fun t => eq_refl) H3).
Defined.

Lemma missing_request_is_unscheduled_witness :
  let w := Situations.orphaned in
  sched_ok w
  /\ w_scheduledJobs w !! "t/cb1" = Some 0
  /\ env_get Scenario.node (w_tick w) = None
  /\ w_backups w !! ("t", "cb1") = None
  /\ spec (Reconcile Scenario.node "t" "cb1") w (fun r w' =>
       r = Ok (mkResult 0)
       /\ w_trace w' = w_trace w /\ w_backups w' = w_backups w
       /\ sched_ok w'
       /\ w_scheduledJobs w' !! namespacedName "t" "cb1" = None
       /\ forall entryID entry, w_cron w' !! entryID = Some entry ->
            namespacedName (cb_namespace (deref w' (ce_backup entry)))
                           (cb_name (deref w' (ce_backup entry))) <> namespacedName "t" "cb1").
Proof.
  cbv zeta.
  assert (sched_ok Situations.orphaned) as H1.
  { unfold sched_ok, Situations.orphaned. cbn [w_scheduledJobs w_cron w_cronNext w_heap].
    split; [|split; [|split]].
    - intros key entryID Hjob. apply lookup_singleton_Some in Hjob as [<- <-].
      exists (mkCronEntry "*/5 * * * *" 0). split; [reflexivity|]. split; [simpl; lia|reflexivity].
    - intros entryID entry Hentry. apply lookup_singleton_Some in Hentry as [<- <-].
      exists "t/cb1". reflexivity.
    - intros key1 key2 entryID Hjob1 Hjob2.
      apply lookup_singleton_Some in Hjob1 as [<- _].
      by apply lookup_singleton_Some in Hjob2 as [<- _].
    - intros entryID entry Hentry. apply lookup_singleton_Some in Hentry as [<- _]. lia. }
  assert (w_backups Situations.orphaned !! ("t", "cb1") = None) as H4 by reflexivity.
  split; [exact H1|]. split; [reflexivity|]. split; [reflexivity|]. split; [exact H4|].
  exact (missing_request_is_unscheduled Scenario.node "t" "cb1" Situations.orphaned
           H1 eq_refl H4).
Defined.

Lemma refused_schedule_unschedules_request_witness :
  let b := Scenario.request "every day" None None [CheckpointBackupFinalizer] "" in
  let w := Scenario.memory_of b (Scenario.pod_on "node-a") None in
  let e := "expected exactly 5 fields" in
  sched_ok w
  /\ sp_schedule (cb_spec (deref w 0)) <> "immediately"
  /\ env_cron Situations.strict (sp_schedule (cb_spec (deref w 0))) = Some e
  /\ spec (reconcileNormal Situations.strict 0) w (fun r w' =>
       r = Err e
       /\ w_trace w' = w_trace w /\ w_backups w' = w_backups w /\ w_files w' = w_files w
       /\ sched_ok w'
       /\ forall entryID entry, w_cron w' !! entryID = Some entry ->
            namespacedName (cb_namespace (deref w' (ce_backup entry)))
                           (cb_name (deref w' (ce_backup entry)))
            <> namespacedName "t" "cb1").
Proof.
  cbv zeta.
  set (w := Scenario.memory_of _ _ _).
  assert (sched_ok w) as H1.
  { split; [|split; [|split]].
    - intros key entryID Hjob. simpl in Hjob. by rewrite lookup_empty in Hjob.
    - intros entryID entry Hentry. simpl in Hentry. by rewrite lookup_empty in Hentry.
    - intros key1 key2 entryID Hjob. simpl in Hjob. by rewrite lookup_empty in Hjob.
    - intros entryID entry Hentry. simpl in Hentry. by rewrite lookup_empty in Hentry. }
  assert (sp_schedule (cb_spec (deref w 0)) <> "immediately") as H2
    by (vm_compute; discriminate).
  split; [exact H1|]. split; [exact H2|]. split; [reflexivity|].
  exact (refused_schedule_unschedules_request Situations.strict 0 "expected exactly 5 fields" w
           H1 H2 eq_refl).
Defined.

Lemma NewRegistryClient_result_witness :
  let registryConfig := mkRegistry "" None in
  let registryClient := mkRegistryClient "robot" "s3cret" "docker.io" in
  (NewRegistryClient Scenario.node registryConfig Situations.vault).1 = Ok registryClient
  /\ rc_username registryClient <> "" /\ rc_password registryClient <> ""
  /\ rc_registry registryClient <> "".
Proof.
  cbv zeta.
  assert ((NewRegistryClient Scenario.node (mkRegistry "" None) Situations.vault).1
          = Ok (mkRegistryClient "robot" "s3cret" "docker.io")) as H1
    by (vm_compute; reflexivity).
  pose proof (NewRegistryClient_result Scenario.node (mkRegistry "" None) Situations.vault
                (mkRegistryClient "robot" "s3cret" "docker.io") H1) as (H2 & H3 & H4 & _).
  split; [exact H1|]. split; [exact H2|]. split; [exact H3|]. exact H4.
Defined.

End MoreInstances.
